(** * xssh: the port-forwarding engine and its command-line rule parser

    A shallow embedding of
      - internal/forwarding/types.go    (rules, statistics, sessions),
      - internal/forwarding/session.go  (acceptors, SOCKS5, the stream pump),
      - the forwarding manager          (registry and transport pool),
      - the CLI rule parser             (parseForwardingRule),
    followed by the properties of the specification that concern them.

    Conventions.  Go's [int]/[int64] are [Z] with the 64-bit wrap-around
    written out where the code does arithmetic on them; [[]byte] is
    [list byte]; Go strings are [string] (a sequence of bytes); [sync.Map]
    is a [gmap]; a [*ForwardingSession] is a location in an explicit heap.
    Calls that leave the process (dialing, listening, the clock, the
    liveness probe) take their outcome from an [Env] record. *)

From Stdlib Require Import ZArith Lia Ascii String DecimalString.
From Stdlib.Strings Require Import Byte.
From stdpp Require Import base gmap strings list.

Local Open Scope string_scope.
Local Open Scope list_scope.
Local Open Scope Z_scope.

(** ** Go library functions used by the code *)

Module GoLib.

(** [fmt.Sprintf("%d", n)] for an [int]. *)
Definition itoa (n : Z) : string := NilZero.string_of_int (Z.to_int n).

(** [len(s)]: the number of bytes of a string. *)
Definition len (s : string) : Z := Z.of_nat (String.length s).

(** [strings.Split(s, sep)] for a one-byte separator. *)
Fixpoint Split (s : string) (sep : ascii) : list string :=
  match s with
  | EmptyString => [EmptyString]
  | String c s' =>
      if Ascii.eqb c sep then EmptyString :: Split s' sep
      else match Split s' sep with
           | p :: ps => String c p :: ps
           | [] => [String c EmptyString]
           end
  end.

(** [strings.Join(parts, sep)], the inverse used to state shapes. *)
Fixpoint Join (parts : list string) (sep : ascii) : string :=
  match parts with
  | [] => EmptyString
  | [p] => p
  | p :: ps => p +:+ String sep (Join ps sep)
  end.

Definition upper_ascii (c : ascii) : ascii :=
  let n := N_of_ascii c in
  if ((97 <=? n) && (n <=? 122))%N then ascii_of_N (n - 32) else c.

(** [strings.ToUpper] on the bytes of a string.  It is exact on ASCII
    text.  Bytes above 127 are left as they are: Go would map the runes
    they encode through the Unicode tables, and no rune outside ASCII
    has "D" or "R" as its upper case, which is all the caller compares
    the result with. *)
Fixpoint ToUpper (s : string) : string :=
  match s with
  | EmptyString => EmptyString
  | String c s' => String (upper_ascii c) (ToUpper s')
  end.

Definition is_digit (c : ascii) : bool :=
  let n := N_of_ascii c in ((48 <=? n) && (n <=? 57))%N.

Definition digit_val (c : ascii) : Z := Z.of_N (N_of_ascii c) - 48.

(** The digit loop of [strconv.Atoi]/[ParseUint]: [n = n*10 + int(ch)],
    a syntax error at the first byte that is not a decimal digit. *)
Fixpoint parse_digits (s : string) (acc : Z) : option Z :=
  match s with
  | EmptyString => Some acc
  | String c s' =>
      if is_digit c then parse_digits s' (acc * 10 + digit_val c) else None
  end.

Definition minInt : Z := - 2 ^ 63.
Definition maxInt : Z := 2 ^ 63 - 1.

(** [strconv.Atoi] on a 64-bit platform; [None] stands for a non-nil
    error (syntax or range), the only thing its callers look at.  An
    optional sign, then at least one decimal digit, and the value has
    to fit an [int]. *)
Definition Atoi (s : string) : option Z :=
  match s with
  | EmptyString => None
  | String c rest =>
      let neg := Ascii.eqb c "-" in
      let body := if neg || Ascii.eqb c "+" then rest else s in
      match body with
      | EmptyString => None
      | _ =>
          match parse_digits body 0 with
          | None => None
          | Some un =>
              let n := if neg then - un else un in
              if (minInt <=? n) && (n <=? maxInt) then Some n else None
          end
      end
  end.

(** Wrap-around of Go's fixed-width signed integers. *)
Definition wrap (bits : Z) (x : Z) : Z :=
  (x + 2 ^ (bits - 1)) mod 2 ^ bits - 2 ^ (bits - 1).
Definition wrap64 : Z -> Z := wrap 64.

End GoLib.
Import GoLib.

(** ** Results of fallible functions: Go's [(value, error)] pairs *)

Inductive result (A : Type) : Type :=
  | Ok (a : A)
  | Err (msg : string).
Arguments Ok {A} a.
Arguments Err {A} msg.

Definition is_ok {A} (r : result A) : bool :=
  match r with Ok _ => true | Err _ => false end.

(** ** internal/forwarding/types.go *)

Definition ForwardingType := Z.
Definition LocalForward : ForwardingType := 0.
Definition RemoteForward : ForwardingType := 1.
Definition DynamicForward : ForwardingType := 2.

Definition ForwardingType_String (ft : ForwardingType) : string :=
  if ft =? LocalForward then "Local"
  else if ft =? RemoteForward then "Remote"
  else if ft =? DynamicForward then "Dynamic"
  else "Unknown".

(** The field [Type] of the source is [Typ] here. *)
Record ForwardingRule : Type := mkRule {
  ID : string;
  Typ : ForwardingType;
  LocalHost : string;
  LocalPort : Z;
  RemoteHost : string;
  RemotePort : Z;
  Description : string
}.

(** ** The CLI rule parser *)

Definition parseForwardingRule (ruleStr : string) : result ForwardingRule :=
  let parts := Split ruleStr ":" in
  let id := "cli-" +:+ itoa (len ruleStr) in
  match parts with
  | [p0; p1] =>
      if String.eqb (ToUpper p0) "D" then
        match Atoi p1 with
        | None => Err ("invalid port number: " +:+ p1)
        | Some port =>
            Ok (mkRule id DynamicForward "localhost" port "" 0
                  ("SOCKS proxy on port " +:+ itoa port))
        end
      else Err "invalid forwarding rule format. Use: [R:]local_port:remote_host:remote_port or D:port"
  | [p0; p1; p2; p3] =>
      if String.eqb (ToUpper p0) "R" then
        match Atoi p1 with
        | None => Err ("invalid local port: " +:+ p1)
        | Some localPort =>
            match Atoi p3 with
            | None => Err ("invalid remote port: " +:+ p3)
            | Some remotePort =>
                Ok (mkRule id RemoteForward "localhost" localPort p2 remotePort
                      ("Remote " +:+ itoa localPort +:+ " -> " +:+ p2 +:+ ":"
                         +:+ itoa remotePort))
            end
        end
      else Err "invalid forwarding rule format. Use: [R:]local_port:remote_host:remote_port or D:port"
  | [p0; p1; p2] =>
      match Atoi p0 with
      | None => Err ("invalid local port: " +:+ p0)
      | Some localPort =>
          match Atoi p2 with
          | None => Err ("invalid remote port: " +:+ p2)
          | Some remotePort =>
              Ok (mkRule id LocalForward "localhost" localPort p1 remotePort
                    ("Local " +:+ itoa localPort +:+ " -> " +:+ p1 +:+ ":"
                       +:+ itoa remotePort))
          end
      end
  | _ => Err "invalid forwarding rule format. Use: [R:]local_port:remote_host:remote_port or D:port"
  end.

(** ** internal/forwarding/types.go, continued: statistics and sessions *)

(** [time.Time] values are nanosecond counts; the zero time is [0]. *)
Record ForwardingStats : Type := mkStats {
  BytesReceived : Z;
  BytesSent : Z;
  ConnectionCount : Z;
  ActiveConnections : Z;
  StartTime : Z;
  LastActivity : Z;
  ErrorCount : Z;
  LastError : string
}.

(** A [net.Listener]: the address it is bound to and whether [Close] has
    been called on it. *)
Record Listener : Type := mkListener {
  l_addr : string;
  l_closed : bool
}.

(** A [chan struct{}] that is only ever closed, never sent on. *)
Inductive chan : Type := chan_open | chan_closed.

Record ForwardingSession : Type := mkSession {
  Rule : ForwardingRule;
  Stats : ForwardingStats;
  listener : option Listener;
  done : chan;
  active : Z
}.

Definition with_Stats (f : ForwardingStats -> ForwardingStats)
    (fs : ForwardingSession) : ForwardingSession :=
  mkSession (Rule fs) (f (Stats fs)) (listener fs) (done fs) (active fs).

Definition IsActive (fs : ForwardingSession) : bool := active fs =? 1.

Definition SetActive (b : bool) (fs : ForwardingSession) : ForwardingSession :=
  mkSession (Rule fs) (Stats fs) (listener fs) (done fs) (if b then 1 else 0).

(** [atomic.AddInt64(&x, d)] *)
Definition AddInt64 (x d : Z) : Z := wrap64 (x + d).

Definition AddBytesReceived (now bytes : Z) (fs : ForwardingSession)
    : ForwardingSession :=
  with_Stats (fun st =>
    mkStats (AddInt64 (BytesReceived st) bytes) (BytesSent st)
      (ConnectionCount st) (ActiveConnections st) (StartTime st) now
      (ErrorCount st) (LastError st)) fs.

Definition AddBytesSent (now bytes : Z) (fs : ForwardingSession)
    : ForwardingSession :=
  with_Stats (fun st =>
    mkStats (BytesReceived st) (AddInt64 (BytesSent st) bytes)
      (ConnectionCount st) (ActiveConnections st) (StartTime st) now
      (ErrorCount st) (LastError st)) fs.

Definition IncrementConnections (fs : ForwardingSession) : ForwardingSession :=
  with_Stats (fun st =>
    mkStats (BytesReceived st) (BytesSent st)
      (AddInt64 (ConnectionCount st) 1) (AddInt64 (ActiveConnections st) 1)
      (StartTime st) (LastActivity st) (ErrorCount st) (LastError st)) fs.

Definition DecrementActiveConnections (fs : ForwardingSession)
    : ForwardingSession :=
  with_Stats (fun st =>
    mkStats (BytesReceived st) (BytesSent st)
      (ConnectionCount st) (AddInt64 (ActiveConnections st) (-1))
      (StartTime st) (LastActivity st) (ErrorCount st) (LastError st)) fs.

Definition IncrementErrors (err : string) (fs : ForwardingSession)
    : ForwardingSession :=
  with_Stats (fun st =>
    mkStats (BytesReceived st) (BytesSent st)
      (ConnectionCount st) (ActiveConnections st)
      (StartTime st) (LastActivity st) (AddInt64 (ErrorCount st) 1) err) fs.

(** ** Connections

    A [net.Conn] as the engine sees it.  [inbox] is what the peer sends,
    in the segments in which it arrives, each possibly ending the stream
    with an error; [wscript] says how the next calls of [Write] behave
    (how many bytes are accepted, and the error returned); [outbox] is
    what has really been written to the connection so far. *)

Inductive ioerr : Type :=
  | io_EOF
  | io_ErrShortWrite
  | io_Error (msg : string).

Definition ioerr_msg (e : ioerr) : string :=
  match e with
  | io_EOF => "EOF"
  | io_ErrShortWrite => "short write"
  | io_Error msg => msg
  end.

Definition is_EOF (e : ioerr) : bool :=
  match e with io_EOF => true | _ => false end.

Record ReadResult : Type := mkRead {
  r_data : list byte;
  r_err : option ioerr
}.

Record WriteOutcome : Type := mkWrite {
  w_accept : nat;
  w_err : option ioerr
}.

Record Conn : Type := mkConn {
  inbox : list ReadResult;
  wscript : list WriteOutcome;
  outbox : list byte
}.

Definition blen (bs : list byte) : Z := Z.of_nat (length bs).

(** [conn.Read(buf)] with [len(buf) = size]: the bytes read, the error,
    and the connection afterwards.  A segment longer than the buffer is
    handed out in pieces; a drained connection reports [io.EOF]. *)
Definition conn_Read (c : Conn) (size : nat)
    : list byte * option ioerr * Conn :=
  match inbox c with
  | [] => ([], Some io_EOF, c)
  | r :: rest =>
      let data := take size (r_data r) in
      match drop size (r_data r) with
      | [] => (data, r_err r, mkConn rest (wscript c) (outbox c))
      | pending =>
          (data, None,
           mkConn (mkRead pending (r_err r) :: rest) (wscript c) (outbox c))
      end
  end.

(** [conn.Write(p)]: the count and error returned, and the connection
    afterwards.  The bytes that are accepted are appended to [outbox]. *)
Definition conn_Write (c : Conn) (p : list byte)
    : Z * option ioerr * Conn :=
  match wscript c with
  | [] => (blen p, None, mkConn (inbox c) [] (outbox c ++ p))
  | w :: rest =>
      let sent := take (w_accept w) p in
      (blen sent, w_err w, mkConn (inbox c) rest (outbox c ++ sent))
  end.

(** ** internal/forwarding/session.go: the SOCKS5 negotiator *)

(** [buf[i]] as an [int]. *)
Definition byte_at (buf : list byte) (i : nat) : Z :=
  Z.of_N (Byte.to_N (nth i buf x00)).

(** Reading into [buf]: the first [n] bytes are overwritten, the others
    keep what an earlier read left there. *)
Definition read_into (buf data : list byte) : list byte :=
  data ++ drop (length data) buf.

Definition socks5_method_reply : list byte := [x05; x00].
Definition socks5_failure_reply : list byte :=
  [x05; x05; x00; x01; x00; x00; x00; x00; x00; x00].
Definition socks5_success_reply : list byte :=
  [x05; x00; x00; x01; x00; x00; x00; x00; x00; x00].

Definition socks5_target (n : Z) (buf : list byte) : result string :=
  let atyp := byte_at buf 3 in
  if atyp =? 1 then
    if n <? 10 then Err "invalid IPv4 address"
    else Ok (itoa (byte_at buf 4) +:+ "." +:+ itoa (byte_at buf 5) +:+ "."
             +:+ itoa (byte_at buf 6) +:+ "." +:+ itoa (byte_at buf 7) +:+ ":"
             +:+ itoa (Z.shiftl (byte_at buf 8) 8 + byte_at buf 9))
  else if atyp =? 3 then
    if n <? 7 then Err "invalid domain name"
    else
      let domainLen := byte_at buf 4 in
      if n <? 7 + domainLen then Err "incomplete domain name"
      else
        let dl := Z.to_nat domainLen in
        let domain := string_of_list_byte (take dl (drop 5 buf)) in
        let port := Z.shiftl (byte_at buf (5 + dl)) 8 + byte_at buf (6 + dl) in
        Ok (domain +:+ ":" +:+ itoa port)
  else Err "unsupported address type".

Definition socks5Handshake (conn : Conn) : result string * Conn :=
  let buf := repeat x00 256 in
  let '(data, err, conn) := conn_Read conn 256 in
  let n := blen data in
  let buf := read_into buf data in
  match err with
  | Some e => (Err (ioerr_msg e), conn)
  | None =>
      if (n <? 3) || negb (byte_at buf 0 =? 5) then
        (Err "unsupported SOCKS version", conn)
      else
        let '(_, _, conn) := conn_Write conn socks5_method_reply in
        let '(data, err, conn) := conn_Read conn 256 in
        let n := blen data in
        let buf := read_into buf data in
        match err with
        | Some e => (Err (ioerr_msg e), conn)
        | None =>
            if (n <? 7) || negb (byte_at buf 0 =? 5) || negb (byte_at buf 1 =? 1)
            then (Err "invalid SOCKS5 request", conn)
            else (socks5_target n buf, conn)
        end
  end.

(** ** internal/forwarding/session.go: the stream pump *)

(** What one direction of the pump does that others can observe, in
    order: the bytes a [Write] really put on the destination, and the
    calls of the accounting callback. *)
Inductive PumpEvent : Type :=
  | PWrite (bs : list byte)
  | PCallback (n : Z).

(** The number of segments and bytes still to be read: every pass of the
    copy loop makes it smaller. *)
Definition inbox_weight (c : Conn) : nat :=
  list_sum (map (fun r => S (length (r_data r))) (inbox c)).

(** The loop of [copyWithStats], [size] being [len(buf)].  The result is
    [(written, err)], the events in the order in which they happened, and
    both connections afterwards.  [fuel] bounds the passes of the loop;
    [None] means that it was too small, which for the fuel
    [copyWithStats] gives does not happen ([copy_loop_terminates]). *)
Fixpoint copy_loop (fuel : nat) (size : nat) (dst src : Conn) (written : Z)
    : option ((Z * option ioerr) * list PumpEvent * Conn * Conn) :=
  match fuel with
  | O => None
  | S fuel' =>
      let '(data, er, src) := conn_Read src size in
      let nr := blen data in
      let continue_ (written : Z) (evs : list PumpEvent) (dst : Conn) :=
        match er with
        | Some e =>
            if is_EOF e then Some ((written, None), evs, dst, src)
            else Some ((written, Some e), evs, dst, src)
        | None =>
            match copy_loop fuel' size dst src written with
            | Some (r, evs', dst', src') => Some (r, evs ++ evs', dst', src')
            | None => None
            end
        end in
      if 0 <? nr then
        let '(nw, ew, dst') := conn_Write dst data in
        let sent := drop (length (outbox dst)) (outbox dst') in
        let written' := if 0 <? nw then AddInt64 written nw else written in
        let evs := PWrite sent :: (if 0 <? nw then [PCallback nw] else []) in
        match ew with
        | Some e => Some ((written', Some e), evs, dst', src)
        | None =>
            if negb (nr =? nw) then Some ((written', Some io_ErrShortWrite), evs, dst', src)
            else continue_ written' evs dst'
        end
      else continue_ written [] dst
  end.

Definition bufsize : nat := Z.to_nat (32 * 1024).

Definition copyWithStats (dst src : Conn)
    : (Z * option ioerr) * list PumpEvent * Conn * Conn :=
  match copy_loop (S (inbox_weight src)) bufsize dst src 0 with
  | Some r => r
  | None => ((0, None), [], dst, src)
  end.

(** ** What the engine's tasks do to a session

    The goroutines of a session (its acceptor, the handler of every
    connection, the two directions of every pump) share the session and
    touch it only through the atomic operations of types.go.  A task is
    the list of its operations in program order; the scheduler decides
    how the tasks interleave. *)

Inductive StatOp : Type :=
  | OpAddBytesReceived (n : Z)
  | OpAddBytesSent (n : Z)
  | OpIncrementConnections
  | OpDecrementActiveConnections
  | OpIncrementErrors (msg : string)
  (** [if session.IsActive() { session.IncrementErrors(msg) }] *)
  | OpIncrementErrorsIfActive (msg : string).

Definition apply_op (now : Z) (op : StatOp) (fs : ForwardingSession)
    : ForwardingSession :=
  match op with
  | OpAddBytesReceived n => AddBytesReceived now n fs
  | OpAddBytesSent n => AddBytesSent now n fs
  | OpIncrementConnections => IncrementConnections fs
  | OpDecrementActiveConnections => DecrementActiveConnections fs
  | OpIncrementErrors msg => IncrementErrors msg fs
  | OpIncrementErrorsIfActive msg =>
      if IsActive fs then IncrementErrors msg fs else fs
  end.

(** The two directions of a pump: [Outbound] copies conn1 to conn2 and
    accounts into [BytesSent], [Inbound] copies conn2 to conn1 and
    accounts into [BytesReceived]. *)
Inductive Direction : Type := Outbound | Inbound.

Inductive Event : Type :=
  | EvStat (op : StatOp)
  | EvWrite (d : Direction) (bs : list byte).

Definition apply_event (now : Z) (e : Event) (fs : ForwardingSession)
    : ForwardingSession :=
  match e with
  | EvStat op => apply_op now op fs
  | EvWrite _ _ => fs
  end.

(** The trace of a schedule: at every tick the scheduler names a task
    and the clock reading; the task performs its next operation, if it
    has one left. *)
Fixpoint interleave {E : Type} (sched : list (nat * Z)) (tasks : list (list E))
    : list (Z * E) :=
  match sched with
  | [] => []
  | (i, now) :: sched' =>
      match tasks !! i with
      | Some (e :: rest) => (now, e) :: interleave sched' (<[i := rest]> tasks)
      | _ => interleave sched' tasks
      end
  end.

(** The tasks as a schedule leaves them. *)
Fixpoint remaining {E : Type} (sched : list (nat * Z)) (tasks : list (list E))
    : list (list E) :=
  match sched with
  | [] => tasks
  | (i, now) :: sched' =>
      match tasks !! i with
      | Some (e :: rest) => remaining sched' (<[i := rest]> tasks)
      | _ => remaining sched' tasks
      end
  end.

Definition run_trace (tr : list (Z * Event)) (fs : ForwardingSession)
    : ForwardingSession :=
  foldl (fun fs te => apply_event (fst te) (snd te) fs) fs tr.

Definition run (sched : list (nat * Z)) (tasks : list (list Event))
    (fs : ForwardingSession) : ForwardingSession :=
  run_trace (interleave sched tasks) fs.

(** *** forwardData *)

Definition statsCallback (d : Direction) (n : Z) : StatOp :=
  match d with
  | Outbound => OpAddBytesSent n
  | Inbound => OpAddBytesReceived n
  end.

Definition forward_error (d : Direction) (written : Z) (e : ioerr) : string :=
  "Forward error (" +:+
  (match d with Outbound => "sent " | Inbound => "received " end) +:+
  itoa written +:+ " bytes): " +:+ ioerr_msg e.

(** One direction as a task: its writes and callbacks, then the error it
    records if the copy failed and the session is still active. *)
Definition pump_task (d : Direction) (res : Z * option ioerr)
    (evs : list PumpEvent) : list Event :=
  map (fun e => match e with
                | PWrite bs => EvWrite d bs
                | PCallback n => EvStat (statsCallback d n)
                end) evs
  ++ match snd res with
     | Some e => [EvStat (OpIncrementErrorsIfActive (forward_error d (fst res) e))]
     | None => []
     end.

(** [forwardData] starts both directions and returns when the first one
    is over; the caller goes on while the other may still be running.
    The result is the two tasks and the connections once both are over. *)
Definition forwardData (conn1 conn2 : Conn) : list (list Event) * Conn * Conn :=
  let '(r1, evs1, conn2, conn1) := copyWithStats conn2 conn1 in
  let '(r2, evs2, conn1, conn2) := copyWithStats conn1 conn2 in
  ([pump_task Outbound r1 evs1; pump_task Inbound r2 evs2], conn1, conn2).

(** ** The world outside the process *)

Definition Signer := list byte.
Definition client := nat.

Record SSHHost : Type := mkHost {
  Name : string;
  Host : string;
  User : string;
  Port : string;
  Identity : string
}.

Record Env : Type := mkEnv {
  (** [time.Now()] *)
  now : Z;
  (** [os.ReadFile] *)
  ReadFile : string -> result (list byte);
  (** [ssh.ParsePrivateKey], [ssh.ParsePrivateKeyWithPassphrase] *)
  ParsePrivateKey : list byte -> result Signer;
  ParsePrivateKeyWithPassphrase : list byte -> string -> result Signer;
  (** [ssh.Dial("tcp", addr, config)], by address, user and keys offered *)
  ssh_Dial : string -> string -> list Signer -> result unit;
  (** does [client.SendRequest("keepalive@golang.org", true, nil)] succeed *)
  keepalive : client -> bool;
  (** [net.Listen("tcp", addr)] and [sshClient.Listen("tcp", addr)] *)
  net_Listen : string -> result unit;
  client_Listen : client -> string -> result unit;
  (** [sshClient.Dial("tcp", addr)] and [net.Dial("tcp", addr)] *)
  client_Dial : client -> string -> result Conn;
  net_Dial : string -> result Conn
}.

(** *** Connection handlers

    A handler yields its own task, the tasks of the pump it started, and
    the accepted connection as it leaves it. *)

Definition handleLocalForwardConnection (env : Env) (sshClient : client)
    (localConn : Conn) (remoteHost : string) (remotePort : Z)
    : list (list Event) * Conn :=
  let remoteAddr := remoteHost +:+ ":" +:+ itoa remotePort in
  match client_Dial env sshClient remoteAddr with
  | Err e =>
      ([[EvStat OpIncrementConnections;
         EvStat (OpIncrementErrors
                   ("Failed to connect to " +:+ remoteAddr +:+ ": " +:+ e));
         EvStat OpDecrementActiveConnections]], localConn)
  | Ok remoteConn =>
      let '(pumps, localConn, _) := forwardData localConn remoteConn in
      ([EvStat OpIncrementConnections; EvStat OpDecrementActiveConnections]
         :: pumps, localConn)
  end.

Definition handleRemoteForwardConnection (env : Env) (remoteConn : Conn)
    (localHost : string) (localPort : Z) : list (list Event) * Conn :=
  let localAddr := localHost +:+ ":" +:+ itoa localPort in
  match net_Dial env localAddr with
  | Err e =>
      ([[EvStat OpIncrementConnections;
         EvStat (OpIncrementErrors
                   ("Failed to connect to local " +:+ localAddr +:+ ": " +:+ e));
         EvStat OpDecrementActiveConnections]], remoteConn)
  | Ok localConn =>
      let '(pumps, _, remoteConn) := forwardData localConn remoteConn in
      ([EvStat OpIncrementConnections; EvStat OpDecrementActiveConnections]
         :: pumps, remoteConn)
  end.

Definition handleSOCKS5Connection (env : Env) (sshClient : client)
    (localConn : Conn) : list (list Event) * Conn :=
  match socks5Handshake localConn with
  | (Err e, localConn) =>
      ([[EvStat OpIncrementConnections;
         EvStat (OpIncrementErrors ("SOCKS5 handshake failed: " +:+ e));
         EvStat OpDecrementActiveConnections]], localConn)
  | (Ok targetAddr, localConn) =>
      match client_Dial env sshClient targetAddr with
      | Err e =>
          let '(_, _, localConn) := conn_Write localConn socks5_failure_reply in
          ([[EvStat OpIncrementConnections;
             EvStat (OpIncrementErrors
                       ("Failed to connect to " +:+ targetAddr +:+ ": " +:+ e));
             EvStat OpDecrementActiveConnections]], localConn)
      | Ok remoteConn =>
          let '(_, _, localConn) := conn_Write localConn socks5_success_reply in
          let '(pumps, localConn, _) := forwardData localConn remoteConn in
          ([EvStat OpIncrementConnections; EvStat OpDecrementActiveConnections]
             :: pumps, localConn)
      end
  end.

(** ** The forwarding manager *)

Definition loc := nat.

(** The manager and what it points to: [sessions] and [sshClients] are
    its two [sync.Map]s; [heap] holds the sessions allocated so far, the
    registry and the goroutines refer to them by location; [dialed]
    counts the transports created, a transport being named by its rank;
    [closedClients] lists the transports that have been closed. *)
Record State : Type := mkState {
  sessions : gmap string loc;
  sshClients : gmap string client;
  heap : gmap loc ForwardingSession;
  dialed : nat;
  closedClients : list client
}.

Definition NewManager : State := mkState ∅ ∅ ∅ 0%nat [].

Definition set_sessions (m : gmap string loc) (st : State) : State :=
  mkState m (sshClients st) (heap st) (dialed st) (closedClients st).

Definition set_sshClients (m : gmap string client) (st : State) : State :=
  mkState (sessions st) m (heap st) (dialed st) (closedClients st).

Definition set_heap (h : gmap loc ForwardingSession) (st : State) : State :=
  mkState (sessions st) (sshClients st) h (dialed st) (closedClients st).

(** Updating in place the session a pointer refers to. *)
Definition update_session (p : loc) (f : ForwardingSession -> ForwardingSession)
    (st : State) : State :=
  set_heap (alter f p (heap st)) st.

Definition set_listener (l : option Listener) (fs : ForwardingSession)
    : ForwardingSession :=
  mkSession (Rule fs) (Stats fs) l (done fs) (active fs).

Definition set_done (c : chan) (fs : ForwardingSession) : ForwardingSession :=
  mkSession (Rule fs) (Stats fs) (listener fs) c (active fs).

Definition Listener_Close (l : Listener) : Listener := mkListener (l_addr l) true.

(** A Go [error]: [None] is [nil]. *)
Definition error := option string.

Definition loadPrivateKey (env : Env) (keyPath keyPassword : string)
    : result Signer :=
  match ReadFile env keyPath with
  | Err e => Err e
  | Ok keyData =>
      if negb (String.eqb keyPassword "")
      then ParsePrivateKeyWithPassphrase env keyData keyPassword
      else ParsePrivateKey env keyData
  end.

Definition createSSHClient (env : Env) (host : SSHHost) (keyPassword : string)
    (st : State) : State * result client :=
  let dial (auth : list Signer) :=
    match ssh_Dial env (Host host +:+ ":" +:+ Port host) (User host) auth with
    | Err e => (st, Err ("failed to connect to SSH server: " +:+ e))
    | Ok _ =>
        (mkState (sessions st) (sshClients st) (heap st) (S (dialed st))
           (closedClients st), Ok (dialed st))
    end in
  if negb (String.eqb (Identity host) "") then
    match loadPrivateKey env (Identity host) keyPassword with
    | Err e => (st, Err ("failed to load private key: " +:+ e))
    | Ok key => dial [key]
    end
  else dial [].

Definition clientKey (host : SSHHost) : string :=
  User host +:+ "@" +:+ Host host +:+ ":" +:+ Port host.

Definition getSSHClient (env : Env) (host : SSHHost) (keyPassword : string)
    (st : State) : State * result client :=
  let create (st : State) :=
    match createSSHClient env host keyPassword st with
    | (st, Err e) => (st, Err e)
    | (st, Ok c) => (set_sshClients (<[clientKey host := c]> (sshClients st)) st, Ok c)
    end in
  match sshClients st !! clientKey host with
  | Some c =>
      if keepalive env c then (st, Ok c)
      else
        create (mkState (sessions st) (delete (clientKey host) (sshClients st))
                  (heap st) (dialed st) (c :: closedClients st))
  | None => create st
  end.

(** The three starters.  They hand the accept loop to a goroutine and
    return; what is left of them in the state is the transport pool and
    the listener stored in the session.  [p] is the session just
    allocated by [StartForwarding]. *)

Definition startLocalForwarding (env : Env) (p : loc) (host : SSHHost)
    (keyPassword : string) (st : State) : State * error :=
  match heap st !! p with
  | None => (st, Some "invalid session")
  | Some session =>
      let rule := Rule session in
      match getSSHClient env host keyPassword st with
      | (st, Err e) => (st, Some ("failed to get SSH client: " +:+ e))
      | (st, Ok sshClient) =>
          let localAddr := LocalHost rule +:+ ":" +:+ itoa (LocalPort rule) in
          match net_Listen env localAddr with
          | Err e => (st, Some ("failed to listen on " +:+ localAddr +:+ ": " +:+ e))
          | Ok _ =>
              (update_session p (set_listener (Some (mkListener localAddr false))) st,
               None)
          end
      end
  end.

Definition startRemoteForwarding (env : Env) (p : loc) (host : SSHHost)
    (keyPassword : string) (st : State) : State * error :=
  match heap st !! p with
  | None => (st, Some "invalid session")
  | Some session =>
      let rule := Rule session in
      match getSSHClient env host keyPassword st with
      | (st, Err e) => (st, Some ("failed to get SSH client: " +:+ e))
      | (st, Ok sshClient) =>
          let remoteAddr := RemoteHost rule +:+ ":" +:+ itoa (RemotePort rule) in
          match client_Listen env sshClient remoteAddr with
          | Err e =>
              (st, Some ("failed to listen on remote " +:+ remoteAddr +:+ ": " +:+ e))
          | Ok _ =>
              (update_session p (set_listener (Some (mkListener remoteAddr false))) st,
               None)
          end
      end
  end.

Definition startDynamicForwarding (env : Env) (p : loc) (host : SSHHost)
    (keyPassword : string) (st : State) : State * error :=
  match heap st !! p with
  | None => (st, Some "invalid session")
  | Some session =>
      let rule := Rule session in
      match getSSHClient env host keyPassword st with
      | (st, Err e) => (st, Some ("failed to get SSH client: " +:+ e))
      | (st, Ok sshClient) =>
          let localAddr := LocalHost rule +:+ ":" +:+ itoa (LocalPort rule) in
          match net_Listen env localAddr with
          | Err e => (st, Some ("failed to listen on " +:+ localAddr +:+ ": " +:+ e))
          | Ok _ =>
              (update_session p (set_listener (Some (mkListener localAddr false))) st,
               None)
          end
      end
  end.

Definition new_session (env : Env) (rule : ForwardingRule) : ForwardingSession :=
  mkSession rule (mkStats 0 0 0 0 (now env) 0 0 "") None chan_open 0.

Definition StartForwarding (env : Env) (rule : ForwardingRule) (host : SSHHost)
    (keyPassword : string) (st : State) : State * error :=
  match sessions st !! ID rule with
  | Some _ => (st, Some ("forwarding session " +:+ ID rule +:+ " already exists"))
  | None =>
      let p : loc := fresh (dom (heap st)) in
      let st := set_heap (<[p := new_session env rule]> (heap st)) st in
      let st := set_sessions (<[ID rule := p]> (sessions st)) st in
      let '(st, err) :=
        if Typ rule =? LocalForward then startLocalForwarding env p host keyPassword st
        else if Typ rule =? RemoteForward then startRemoteForwarding env p host keyPassword st
        else if Typ rule =? DynamicForward then startDynamicForwarding env p host keyPassword st
        else (st, Some ("unsupported forwarding type: "
                          +:+ ForwardingType_String (Typ rule))) in
      match err with
      | Some e => (set_sessions (delete (ID rule) (sessions st)) st, Some e)
      | None => (update_session p (SetActive true) st, None)
      end
  end.

(** How a call ends: it returns its [error], or the goroutine panics. *)
Inductive outcome : Type :=
  | Returned (err : error)
  | Panicked (msg : string).

Definition StopForwarding (sessionID : string) (st : State) : State * outcome :=
  match sessions st !! sessionID with
  | None => (st, Returned (Some ("session " +:+ sessionID +:+ " not found")))
  | Some p =>
      match heap st !! p with
      | None => (st, Panicked "invalid memory address or nil pointer dereference")
      | Some _ =>
          let st := update_session p (SetActive false) st in
          let st := update_session p
                      (fun fs => set_listener (Listener_Close <$> listener fs) fs) st in
          match done <$> heap st !! p with
          | Some chan_open =>
              let st := update_session p (set_done chan_closed) st in
              (set_sessions (delete sessionID (sessions st)) st, Returned None)
          | _ => (st, Panicked "close of closed channel")
          end
      end
  end.

Definition GetSession (sessionID : string) (st : State) : option loc :=
  sessions st !! sessionID.

Definition GetAllSessions (st : State) : list loc :=
  (map_to_list (sessions st)).*2.

Definition StopAll (st : State) : State * outcome :=
  let sessionIDs := (map_to_list (sessions st)).*1 in
  foldl (fun acc id =>
           match acc with
           | (st, Returned _) =>
               match StopForwarding id st with
               | (st, Returned _) => (st, Returned None)
               | (st, Panicked msg) => (st, Panicked msg)
               end
           | (st, Panicked msg) => (st, Panicked msg)
           end)
        (st, Returned None) sessionIDs.

(** *** StopForwarding, one shared-memory access at a time

    Two calls of [StopForwarding] may overlap; what they do then depends
    on how their accesses to the registry and to the session interleave.
    [stop_step] is one access of one call. *)

Inductive StopPC : Type :=
  | pc_load
  | pc_set_inactive (p : loc)
  | pc_close_listener (p : loc)
  | pc_close_done (p : loc)
  | pc_delete
  | pc_end (o : outcome).

Definition stop_step (sessionID : string) (pc : StopPC) (st : State)
    : State * StopPC :=
  match pc with
  | pc_load =>
      match sessions st !! sessionID with
      | None =>
          (st, pc_end (Returned (Some ("session " +:+ sessionID +:+ " not found"))))
      | Some p => (st, pc_set_inactive p)
      end
  | pc_set_inactive p =>
      match heap st !! p with
      | None =>
          (st, pc_end (Panicked "invalid memory address or nil pointer dereference"))
      | Some _ => (update_session p (SetActive false) st, pc_close_listener p)
      end
  | pc_close_listener p =>
      (update_session p (fun fs => set_listener (Listener_Close <$> listener fs) fs) st,
       pc_close_done p)
  | pc_close_done p =>
      match done <$> heap st !! p with
      | Some chan_open => (update_session p (set_done chan_closed) st, pc_delete)
      | _ => (st, pc_end (Panicked "close of closed channel"))
      end
  | pc_delete =>
      (set_sessions (delete sessionID (sessions st)) st, pc_end (Returned None))
  | pc_end o => (st, pc_end o)
  end.

(** Two calls for the same id; [true] in the schedule lets the first
    call make its next access, [false] the second. *)
Fixpoint stop_race (sched : list bool) (sessionID : string)
    (pcA pcB : StopPC) (st : State) : State * StopPC * StopPC :=
  match sched with
  | [] => (st, pcA, pcB)
  | true :: sched' =>
      let '(st, pcA) := stop_step sessionID pcA st in
      stop_race sched' sessionID pcA pcB st
  | false :: sched' =>
      let '(st, pcB) := stop_step sessionID pcB st in
      stop_race sched' sessionID pcA pcB st
  end.

(** ** Notions used to state the properties *)

(** The registry invariant: every registered id leads to an allocated
    session whose rule carries that id. *)
Definition wf_state (st : State) : Prop :=
  forall (k : string) (p : loc),
    sessions st !! k = Some p ->
    exists fs, heap st !! p = Some fs /\ ID (Rule fs) = k.

(** *** Rule texts, as the command surface documents them *)

Fixpoint colon_free (s : string) : bool :=
  match s with
  | EmptyString => true
  | String c s' => negb (Ascii.eqb c ":") && colon_free s'
  end.

Fixpoint all_digits (s : string) : bool :=
  match s with
  | EmptyString => true
  | String c s' => is_digit c && all_digits s'
  end.

(** A decimal number: an optional sign and at least one digit. *)
Definition numeric (s : string) : bool :=
  match s with
  | EmptyString => false
  | String c rest =>
      let body := if Ascii.eqb c "-" || Ascii.eqb c "+" then rest else s in
      negb (String.eqb body "") && all_digits body
  end.

Definition cli_id (ruleStr : string) : string := "cli-" +:+ itoa (len ruleStr).

(** The three encodings.  The letter of the Remote and Dynamic encodings
    is accepted in either case. *)
Inductive RuleEncoding : string -> ForwardingRule -> Prop :=
  | enc_local (lp rh rp : string) (l r : Z) :
      Atoi lp = Some l -> colon_free rh = true -> Atoi rp = Some r ->
      RuleEncoding (lp +:+ ":" +:+ rh +:+ ":" +:+ rp)
        (mkRule (cli_id (lp +:+ ":" +:+ rh +:+ ":" +:+ rp)) LocalForward
           "localhost" l rh r
           ("Local " +:+ itoa l +:+ " -> " +:+ rh +:+ ":" +:+ itoa r))
  | enc_remote (pre lp rh rp : string) (l r : Z) :
      pre = "R" \/ pre = "r" ->
      Atoi lp = Some l -> colon_free rh = true -> Atoi rp = Some r ->
      RuleEncoding (pre +:+ ":" +:+ lp +:+ ":" +:+ rh +:+ ":" +:+ rp)
        (mkRule (cli_id (pre +:+ ":" +:+ lp +:+ ":" +:+ rh +:+ ":" +:+ rp))
           RemoteForward "localhost" l rh r
           ("Remote " +:+ itoa l +:+ " -> " +:+ rh +:+ ":" +:+ itoa r))
  | enc_dynamic (pre p : string) (n : Z) :
      pre = "D" \/ pre = "d" ->
      Atoi p = Some n ->
      RuleEncoding (pre +:+ ":" +:+ p)
        (mkRule (cli_id (pre +:+ ":" +:+ p)) DynamicForward "localhost" n "" 0
           ("SOCKS proxy on port " +:+ itoa n)).

(** The encodings as the specification lists them, letter for letter:
    "D:port", "localPort:remoteHost:remotePort" and
    "R:localPort:remoteHost:remotePort", the ports being numbers. *)
Definition documented_encoding (s : string) : bool :=
  match Split s ":" with
  | [p0; p1] => String.eqb p0 "D" && numeric p1
  | [p0; p1; p2] => numeric p0 && colon_free p1 && numeric p2
  | [p0; p1; p2; p3] =>
      String.eqb p0 "R" && numeric p1 && colon_free p2 && numeric p3
  | _ => false
  end.

(** *** SOCKS5 messages *)

Definition byte_val (b : byte) : Z := Z.of_N (Byte.to_N b).

(** The client's greeting: version 5 first, at least one method. *)
Definition greeting_ok (g : list byte) : Prop :=
  nth 0 g x00 = x05 /\ (3 <= length g <= 256)%nat.

(** CONNECT requests: version 5, command 1, a reserved byte, the address
    type, the address and the port, high byte first. *)
Definition connect_ipv4 (rsv a b c d ph pl : byte) : list byte :=
  [x05; x01; rsv; x01; a; b; c; d; ph; pl].

Definition connect_domain (rsv dl : byte) (domain : list byte) (ph pl : byte)
    : list byte :=
  [x05; x01; rsv; x03; dl] ++ domain ++ [ph; pl].

Definition connect_ipv6 (rsv : byte) (rest : list byte) : list byte :=
  [x05; x01; rsv; x04] ++ rest.

(** A well-formed CONNECT request and the target it names: an IPv4
    request, or a domain request whose length byte is the length of the
    domain that follows. *)
Inductive WellFormedConnect : list byte -> string -> Prop :=
  | wf_connect_ipv4 (rsv a b c d ph pl : byte) :
      WellFormedConnect (connect_ipv4 rsv a b c d ph pl)
        (itoa (byte_val a) +:+ "." +:+ itoa (byte_val b) +:+ "."
         +:+ itoa (byte_val c) +:+ "." +:+ itoa (byte_val d) +:+ ":"
         +:+ itoa (256 * byte_val ph + byte_val pl))
  | wf_connect_domain (rsv dl : byte) (domain : list byte) (ph pl : byte) :
      byte_val dl = blen domain ->
      WellFormedConnect (connect_domain rsv dl domain ph pl)
        (string_of_list_byte domain +:+ ":"
         +:+ itoa (256 * byte_val ph + byte_val pl)).

(** *** Accounting of a pump *)

Fixpoint pump_reported (evs : list PumpEvent) : Z :=
  match evs with
  | [] => 0
  | PCallback n :: evs' => n + pump_reported evs'
  | PWrite _ :: evs' => pump_reported evs'
  end.

Fixpoint pump_delivered (evs : list PumpEvent) : Z :=
  match evs with
  | [] => 0
  | PWrite bs :: evs' => blen bs + pump_delivered evs'
  | PCallback _ :: evs' => pump_delivered evs'
  end.

Fixpoint pump_bytes (evs : list PumpEvent) : list byte :=
  match evs with
  | [] => []
  | PWrite bs :: evs' => bs ++ pump_bytes evs'
  | PCallback _ :: evs' => pump_bytes evs'
  end.

(** *** What a reader gets from a connection

    The bytes a reader is handed before [Read] reports an error: those
    of the segments up to the first one that carries an error, this one
    included. *)
Fixpoint readable (rs : list ReadResult) : list byte :=
  match rs with
  | [] => []
  | r :: rest =>
      r_data r ++ match r_err r with
                  | Some _ => []
                  | None => readable rest
                  end
  end.

(** The error that ends the reading; the end of the stream is none. *)
Fixpoint read_error (rs : list ReadResult) : option ioerr :=
  match rs with
  | [] => None
  | r :: rest =>
      match r_err r with
      | Some e => if is_EOF e then None else Some e
      | None => read_error rest
      end
  end.

(** The same for the events of a session, by direction. *)
Definition reported (d : Direction) (e : Event) : Z :=
  match d, e with
  | Outbound, EvStat (OpAddBytesSent n) => n
  | Inbound, EvStat (OpAddBytesReceived n) => n
  | _, _ => 0
  end.

Definition delivered (d : Direction) (e : Event) : Z :=
  match d, e with
  | Outbound, EvWrite Outbound bs => blen bs
  | Inbound, EvWrite Inbound bs => blen bs
  | _, _ => 0
  end.

Definition total {E : Type} (f : E -> Z) (tr : list E) : Z :=
  foldr (fun e acc => f e + acc) 0 tr.

(** *** Pairing of increments and decrements *)

Definition delta (e : Event) : Z :=
  match e with
  | EvStat OpIncrementConnections => 1
  | EvStat OpDecrementActiveConnections => -1
  | _ => 0
  end.

(** Whether every prefix of a task keeps [credit] plus the weights of its
    events at or above zero. *)
Fixpoint prefix_nonneg {E : Type} (w : E -> Z) (credit : Z) (task : list E)
    : bool :=
  match task with
  | [] => true
  | e :: rest => (0 <=? credit + w e) && prefix_nonneg w (credit + w e) rest
  end.

(** A task is balanced when it never decrements more often than it has
    incremented, [credit] being the increments it has already made. *)
Definition balanced (credit : Z) (task : list Event) : bool :=
  prefix_nonneg delta credit task.

Definition zsum (l : list Z) : Z := foldr Z.add 0 l.

(** What a direction has written beyond what it has accounted. *)
Definition unaccounted (d : Direction) (e : Event) : Z :=
  delivered d e - reported d e.

(** The shape of the events of one direction: every write that put
    bytes on the destination is followed by the callback with their
    number; a write that put none is followed by nothing. *)
Inductive accounted : list PumpEvent -> Prop :=
  | accounted_nil : accounted []
  | accounted_write (bs : list byte) (evs : list PumpEvent) :
      0 < blen bs -> accounted evs ->
      accounted (PWrite bs :: PCallback (blen bs) :: evs)
  | accounted_nothing (evs : list PumpEvent) :
      accounted evs -> accounted (PWrite [] :: evs).

Definition in_int64 (x : Z) : Prop := minInt <= x <= maxInt.

(** The byte counts the engine accounts are never negative. *)
Definition counts_bytes (e : Event) : bool :=
  match e with
  | EvStat (OpAddBytesReceived n) | EvStat (OpAddBytesSent n) => 0 <=? n
  | _ => true
  end.

(** The discipline of a task of the engine. *)
Definition disciplined (t : list Event) : Prop :=
  balanced 0 t = true /\ Forall (fun e => counts_bytes e = true) t.

Definition conns_of (e : Event) : Z :=
  match e with EvStat OpIncrementConnections => 1 | _ => 0 end.

Definition errors_of (e : Event) : Z :=
  match e with
  | EvStat (OpIncrementErrors _) | EvStat (OpIncrementErrorsIfActive _) => 1
  | _ => 0
  end.

Definition total_tasks (f : Event -> Z) (tasks : list (list Event)) : Z :=
  total (total f) tasks.

(** The counters stay within [int64] whatever part of the tasks runs. *)
Definition within_int64 (fs : ForwardingSession) (tasks : list (list Event))
    : Prop :=
  BytesReceived (Stats fs) + total_tasks (reported Inbound) tasks <= maxInt /\
  BytesSent (Stats fs) + total_tasks (reported Outbound) tasks <= maxInt /\
  ConnectionCount (Stats fs) + total_tasks conns_of tasks <= maxInt /\
  ActiveConnections (Stats fs) + total_tasks conns_of tasks <= maxInt /\
  ErrorCount (Stats fs) + total_tasks errors_of tasks <= maxInt.

Definition counters_nonneg (fs : ForwardingSession) : Prop :=
  0 <= BytesReceived (Stats fs) /\ 0 <= BytesSent (Stats fs) /\
  0 <= ConnectionCount (Stats fs) /\ 0 <= ErrorCount (Stats fs).

(** Every monotone counter of [b] is at least that of [a]. *)
Definition stats_le (a b : ForwardingSession) : Prop :=
  BytesReceived (Stats a) <= BytesReceived (Stats b) /\
  BytesSent (Stats a) <= BytesSent (Stats b) /\
  ConnectionCount (Stats a) <= ConnectionCount (Stats b) /\
  ErrorCount (Stats a) <= ErrorCount (Stats b).

(** *** The starters, seen from [StartForwarding] *)

(** The dispatch of [StartForwarding] on the rule's type. *)
Definition dispatch (env : Env) (rule : ForwardingRule) (host : SSHHost)
    (pw : string) (p : loc) (st : State) : State * error :=
  if Typ rule =? LocalForward then startLocalForwarding env p host pw st
  else if Typ rule =? RemoteForward then startRemoteForwarding env p host pw st
  else if Typ rule =? DynamicForward then startDynamicForwarding env p host pw st
  else (st, Some ("unsupported forwarding type: "
                    +:+ ForwardingType_String (Typ rule))).

(** What a starter may change: the transport pool, and the listener of
    the session it was given. *)
Definition starter_frame (p : loc) (st st' : State) (err : error) : Prop :=
  sessions st' = sessions st /\
  match err with
  | Some _ => heap st' = heap st
  | None =>
      exists addr,
        heap st' = alter (set_listener (Some (mkListener addr false))) p (heap st)
  end.

(** ** Concrete scenarios *)

Module Scenario.

(** A world in which every external call succeeds and every probe
    passes; dials for forwarded connections are refused. *)
Definition env_ok : Env :=
  mkEnv 1000 (fun _ => Ok []) (fun _ => Ok []) (fun _ _ => Ok [])
    (fun _ _ _ => Ok tt) (fun _ => true) (fun _ => Ok tt) (fun _ _ => Ok tt)
    (fun _ _ => Err "connection refused") (fun _ => Err "connection refused").

(** The same world with every local port taken. *)
Definition env_busy : Env :=
  mkEnv 2000 (fun _ => Ok []) (fun _ => Ok []) (fun _ _ => Ok [])
    (fun _ _ _ => Ok tt) (fun _ => true)
    (fun _ => Err "bind: address already in use") (fun _ _ => Ok tt)
    (fun _ _ => Err "connection refused") (fun _ => Err "connection refused").

(** The same world with every pooled transport dead. *)
Definition env_dead : Env :=
  mkEnv 3000 (fun _ => Ok []) (fun _ => Ok []) (fun _ _ => Ok [])
    (fun _ _ _ => Ok tt) (fun _ => false) (fun _ => Ok tt) (fun _ _ => Ok tt)
    (fun _ _ => Err "connection refused") (fun _ => Err "connection refused").

Definition web : SSHHost := mkHost "web" "10.0.0.1" "root" "22" "".

Definition rule_a : ForwardingRule :=
  mkRule "a" LocalForward "localhost" 8080 "localhost" 80 "".

(** The manager after [rule_a] has been started. *)
Definition st_a : State := fst (StartForwarding env_ok rule_a web "" NewManager).

(** A SOCKS5 client: its greeting (one method, no authentication) and
    then its request, on a connection that accepts every write. *)
Definition greeting : list byte := [x05; x01; x00].

Definition socks_client (request : list byte) : Conn :=
  mkConn [mkRead greeting None; mkRead request None] [] [].

(** CONNECT 93.184.216.34:80 *)
Definition request_ipv4 : list byte :=
  connect_ipv4 x00 x5d xb8 xd8 x22 x00 x50.

(** CONNECT example.com:80 *)
Definition request_domain : list byte :=
  connect_domain x00 x0b (list_byte_of_string "example.com") x00 x50.

(** A connection pair for the pump: the client sends five bytes in
    three segments and the upstream accepts two bytes, then one, the
    second write falling short; the upstream sends three bytes back and
    closes. *)
Definition downstream : Conn :=
  mkConn [mkRead [x01; x02] None; mkRead [x03; x04] None; mkRead [x05] None]
    [] [].
Definition upstream : Conn :=
  mkConn [mkRead [x0a; x0b; x0c] (Some io_EOF)]
    [mkWrite 2 None; mkWrite 1 None] [].

(** A session as [StartForwarding] leaves it. *)
Definition session_a : ForwardingSession :=
  mkSession rule_a (mkStats 0 0 0 0 1000 0 0 "")
    (Some (mkListener "localhost:8080" false)) chan_open 1.

(** Two handlers of one session: the first forwards seven bytes out
    and three back, the second fails to reach its target. *)
Definition two_handlers : list (list Event) :=
  [[EvStat OpIncrementConnections; EvStat OpDecrementActiveConnections];
   [EvStat (OpAddBytesSent 7)];
   [EvStat (OpAddBytesReceived 3);
    EvStat (OpIncrementErrorsIfActive "Forward error (received 3 bytes): reset")];
   [EvStat OpIncrementConnections;
    EvStat (OpIncrementErrors "Failed to connect to localhost:80: refused");
    EvStat OpDecrementActiveConnections]].

(** CONNECT [::1]:80 *)
Definition request_ipv6 : list byte :=
  connect_ipv6 x00 (repeat x00 15 ++ [x01; x00; x50]).

End Scenario.

(** ** The rest of the engine *)

(** *** Accept loops

    What [Accept] returns to an accept loop: an error, which may be the
    expiry of the deadline, or a connection. *)
Inductive AcceptOutcome : Type :=
  | AcceptError (timeout : bool) (msg : string)
  | Accepted (c : Conn).

(** The accept loop of [startLocalForwarding], over the outcomes it sees
    before the shutdown signal: the task of the loop itself, and the tasks
    of the handlers it starts. *)
Fixpoint localAcceptLoop (env : Env) (sshClient : client) (rule : ForwardingRule)
    (outcomes : list AcceptOutcome) : list Event * list (list Event) :=
  match outcomes with
  | [] => ([], [])
  | AcceptError true _ :: rest => localAcceptLoop env sshClient rule rest
  | AcceptError false msg :: rest =>
      let '(own, spawned) := localAcceptLoop env sshClient rule rest in
      (EvStat (OpIncrementErrorsIfActive ("Accept error: " +:+ msg)) :: own, spawned)
  | Accepted localConn :: rest =>
      let '(own, spawned) := localAcceptLoop env sshClient rule rest in
      (own,
       fst (handleLocalForwardConnection env sshClient localConn (RemoteHost rule)
              (RemotePort rule)) ++ spawned)
  end.

(** The accept loop of [startRemoteForwarding]: every error counts, the
    expiry of a deadline like any other. *)
Fixpoint remoteAcceptLoop (env : Env) (rule : ForwardingRule)
    (outcomes : list AcceptOutcome) : list Event * list (list Event) :=
  match outcomes with
  | [] => ([], [])
  | AcceptError _ msg :: rest =>
      let '(own, spawned) := remoteAcceptLoop env rule rest in
      (EvStat (OpIncrementErrorsIfActive ("Remote accept error: " +:+ msg)) :: own,
       spawned)
  | Accepted remoteConn :: rest =>
      let '(own, spawned) := remoteAcceptLoop env rule rest in
      (own,
       fst (handleRemoteForwardConnection env remoteConn (LocalHost rule)
              (LocalPort rule)) ++ spawned)
  end.

(** The accept loop of [startDynamicForwarding]. *)
Fixpoint dynamicAcceptLoop (env : Env) (sshClient : client)
    (outcomes : list AcceptOutcome) : list Event * list (list Event) :=
  match outcomes with
  | [] => ([], [])
  | AcceptError true _ :: rest => dynamicAcceptLoop env sshClient rest
  | AcceptError false msg :: rest =>
      let '(own, spawned) := dynamicAcceptLoop env sshClient rest in
      (EvStat (OpIncrementErrorsIfActive ("SOCKS accept error: " +:+ msg)) :: own,
       spawned)
  | Accepted localConn :: rest =>
      let '(own, spawned) := dynamicAcceptLoop env sshClient rest in
      (own, fst (handleSOCKS5Connection env sshClient localConn) ++ spawned)
  end.

(** All the tasks of an accept loop. *)
Definition loop_tasks (r : list Event * list (list Event)) : list (list Event) :=
  fst r :: snd r.

Definition accepted_count (outcomes : list AcceptOutcome) : Z :=
  total (fun o => match o with Accepted _ => 1 | AcceptError _ _ => 0 end) outcomes.

(** *** Notions for the registry and the pool *)

(** Every registered session has its shutdown signal still open. *)
Definition registry_open (st : State) : Prop :=
  forall (k : string) (p : loc) (fs : ForwardingSession),
    sessions st !! k = Some p -> heap st !! p = Some fs -> done fs = chan_open.

(** The pool holds transports that have been dialed and not closed, and
    no transport under two keys. *)
Definition pool_ok (st : State) : Prop :=
  (forall (k : string) (c : client),
     sshClients st !! k = Some c ->
     (c < dialed st)%nat /\ c ∉ closedClients st) /\
  (forall c : client, c ∈ closedClients st -> (c < dialed st)%nat) /\
  (forall (k1 k2 : string) (c : client),
     sshClients st !! k1 = Some c -> sshClients st !! k2 = Some c -> k1 = k2).

(** Every registered session is running: its active flag is set and it
    holds a listener that has not been closed. *)
Definition registry_running (st : State) : Prop :=
  forall (k : string) (p : loc) (fs : ForwardingSession),
    sessions st !! k = Some p -> heap st !! p = Some fs ->
    IsActive fs = true /\
    exists addr, listener fs = Some (mkListener addr false).

(** The calls a user of the manager makes, one after the other. *)
Inductive Call : Type :=
  | CallStart (env : Env) (rule : ForwardingRule) (host : SSHHost) (pw : string)
  | CallStop (sessionID : string)
  | CallStopAll.

Definition call (c : Call) (st : State) : State * outcome :=
  match c with
  | CallStart env rule host pw =>
      let '(st, err) := StartForwarding env rule host pw st in (st, Returned err)
  | CallStop sessionID => StopForwarding sessionID st
  | CallStopAll => StopAll st
  end.

(** A sequence of calls; a panic ends it. *)
Fixpoint calls (cs : list Call) (st : State) : State * outcome :=
  match cs with
  | [] => (st, Returned None)
  | c :: cs' =>
      match call c st with
      | (st, Returned _) => calls cs' st
      | (st, Panicked msg) => (st, Panicked msg)
      end
  end.

(** The address a starter listens on. *)
Definition listen_addr (rule : ForwardingRule) : string :=
  if Typ rule =? RemoteForward
  then RemoteHost rule +:+ ":" +:+ itoa (RemotePort rule)
  else LocalHost rule +:+ ":" +:+ itoa (LocalPort rule).

Definition valid_type (rule : ForwardingRule) : bool :=
  (Typ rule =? LocalForward) || (Typ rule =? RemoteForward)
  || (Typ rule =? DynamicForward).

(** The session a successful [StartForwarding] leaves in the registry. *)
Definition started_session (env : Env) (rule : ForwardingRule)
    : ForwardingSession :=
  mkSession rule (mkStats 0 0 0 0 (now env) 0 0 "")
    (Some (mkListener (listen_addr rule) false)) chan_open 1.

(** A session as [StopForwarding] leaves it. *)
Definition stopped_session (fs : ForwardingSession) : ForwardingSession :=
  mkSession (Rule fs) (Stats fs) (Listener_Close <$> listener fs) chan_closed 0.

(** *** Notions for the pump *)

(** All that a connection's peer sends, as one sequence of bytes. *)
Definition stream (c : Conn) : list byte := concat (map r_data (inbox c)).

(** *** Notions for the statistics *)

(** A schedule is complete when it leaves no task with an operation. *)
Definition complete (sched : list (nat * Z)) (tasks : list (list Event)) : Prop :=
  Forall (fun t => t = []) (remaining sched tasks).

(** The tasks of one handled connection: one increment of the
    connections, and as many decrements as increments. *)
Definition one_connection (tasks : list (list Event)) : Prop :=
  total_tasks delta tasks = 0 /\ total_tasks conns_of tasks = 1.

(** Events that record an error only while the session is active, or
    none. *)
Definition records_if_active (e : Event) : bool :=
  match e with
  | EvStat (OpIncrementErrors _) => false
  | _ => true
  end.

(** * Properties *)

Example parse_local :
  parseForwardingRule "8080:localhost:80"
  = Ok (mkRule "cli-17" LocalForward "localhost" 8080 "localhost" 80
          "Local 8080 -> localhost:80").
Proof. vm_compute. reflexivity. Qed.

Example parse_remote :
  parseForwardingRule "R:9000:db:5432"
  = Ok (mkRule "cli-14" RemoteForward "localhost" 9000 "db" 5432
          "Remote 9000 -> db:5432").
Proof. vm_compute. reflexivity. Qed.

Example parse_dynamic :
  parseForwardingRule "D:1080"
  = Ok (mkRule "cli-6" DynamicForward "localhost" 1080 "" 0
          "SOCKS proxy on port 1080").
Proof. vm_compute. reflexivity. Qed.

Example parse_lower : is_ok (parseForwardingRule "d:1080") = true.
Proof. vm_compute. reflexivity. Qed.

(** ** The registry *)

Section Registry.

Implicit Types (st : State) (env : Env) (rule : ForwardingRule)
  (host : SSHHost) (p : loc).

Lemma createSSHClient_frame env host pw st st' r :
  createSSHClient env host pw st = (st', r) ->
  sessions st' = sessions st /\ heap st' = heap st /\
  sshClients st' = sshClients st /\ closedClients st' = closedClients st.
Proof.
  unfold createSSHClient. intros H.
  repeat (match type of H with
          | context [if ?b then _ else _] => destruct b
          | context [match ?x with _ => _ end] => destruct x
          end); inversion H; subst; simpl; auto.
Qed.

Lemma getSSHClient_frame env host pw st st' r :
  getSSHClient env host pw st = (st', r) ->
  sessions st' = sessions st /\ heap st' = heap st.
Proof.
  unfold getSSHClient. intros H.
  destruct (sshClients st !! clientKey host) as [c|].
  - destruct (keepalive env c).
    + inversion H; subst; auto.
    + destruct (createSSHClient env host pw _) as [st1 [c1|e]] eqn:Hc;
        apply createSSHClient_frame in Hc as (Hs & Hh & _);
        inversion H; subst; simpl in *; auto.
  - destruct (createSSHClient env host pw st) as [st1 [c1|e]] eqn:Hc;
      apply createSSHClient_frame in Hc as (Hs & Hh & _);
      inversion H; subst; simpl in *; auto.
Qed.

Lemma startLocalForwarding_frame env p host pw st st' err :
  startLocalForwarding env p host pw st = (st', err) -> starter_frame p st st' err.
Proof.
  unfold startLocalForwarding, starter_frame. intros H.
  destruct (heap st !! p) as [fs|]; [|inversion H; subst; auto].
  destruct (getSSHClient env host pw st) as [st1 [c|e]] eqn:Hg;
    apply getSSHClient_frame in Hg as [Hs Hh].
  - destruct (net_Listen env _); inversion H; subst; simpl.
    + split; [done|]. eexists. by rewrite Hh.
    + done.
  - inversion H; subst; done.
Qed.

Lemma startRemoteForwarding_frame env p host pw st st' err :
  startRemoteForwarding env p host pw st = (st', err) -> starter_frame p st st' err.
Proof.
  unfold startRemoteForwarding, starter_frame. intros H.
  destruct (heap st !! p) as [fs|]; [|inversion H; subst; auto].
  destruct (getSSHClient env host pw st) as [st1 [c|e]] eqn:Hg;
    apply getSSHClient_frame in Hg as [Hs Hh].
  - destruct (client_Listen env _ _); inversion H; subst; simpl.
    + split; [done|]. eexists. by rewrite Hh.
    + done.
  - inversion H; subst; done.
Qed.

Lemma startDynamicForwarding_frame env p host pw st st' err :
  startDynamicForwarding env p host pw st = (st', err) -> starter_frame p st st' err.
Proof.
  unfold startDynamicForwarding, starter_frame. intros H.
  destruct (heap st !! p) as [fs|]; [|inversion H; subst; auto].
  destruct (getSSHClient env host pw st) as [st1 [c|e]] eqn:Hg;
    apply getSSHClient_frame in Hg as [Hs Hh].
  - destruct (net_Listen env _); inversion H; subst; simpl.
    + split; [done|]. eexists. by rewrite Hh.
    + done.
  - inversion H; subst; done.
Qed.

Lemma dispatch_frame env rule host pw p st st' err :
  dispatch env rule host pw p st = (st', err) -> starter_frame p st st' err.
Proof.
  unfold dispatch. intros H.
  destruct (Typ rule =? LocalForward);
    [by eapply startLocalForwarding_frame|].
  destruct (Typ rule =? RemoteForward);
    [by eapply startRemoteForwarding_frame|].
  destruct (Typ rule =? DynamicForward);
    [by eapply startDynamicForwarding_frame|].
  inversion H; subst. by split.
Qed.

Lemma StartForwarding_unfold env rule host pw st :
  StartForwarding env rule host pw st =
  match sessions st !! ID rule with
  | Some _ => (st, Some ("forwarding session " +:+ ID rule +:+ " already exists"))
  | None =>
      let p : loc := fresh (dom (heap st)) in
      let st1 := set_sessions (<[ID rule := p]> (sessions st))
                   (set_heap (<[p := new_session env rule]> (heap st)) st) in
      match dispatch env rule host pw p st1 with
      | (st2, Some e) => (set_sessions (delete (ID rule) (sessions st2)) st2, Some e)
      | (st2, None) => (update_session p (SetActive true) st2, None)
      end
  end.
Proof.
  unfold StartForwarding, dispatch.
  destruct (sessions st !! ID rule); [done|]. simpl.
  repeat match goal with |- context [if ?b then _ else _] => destruct b end;
    try done;
    match goal with |- context [let '(_, _) := ?x in _] => by destruct x as [? [?|]] end.
Qed.

End Registry.

Section RegistryProperties.

Implicit Types (st : State) (env : Env) (rule : ForwardingRule)
  (host : SSHHost) (p : loc).

Lemma StartForwarding_success_inv env rule host pw st st1 :
  StartForwarding env rule host pw st = (st1, None) ->
  sessions st !! ID rule = None /\
  sessions st1 = <[ID rule := fresh (dom (heap st))]> (sessions st) /\
  exists addr,
    heap st1 =
      <[fresh (dom (heap st)) :=
          SetActive true
            (set_listener (Some (mkListener addr false)) (new_session env rule))]>
        (heap st).
Proof.
  rewrite StartForwarding_unfold. intros H.
  destruct (sessions st !! ID rule) eqn:Hreg; [inversion H|].
  cbv zeta in H.
  destruct (dispatch _ _ _ _ _ _) as [st2 [e|]] eqn:Hd; [inversion H|].
  apply dispatch_frame in Hd as [Hs [addr Hh]]. simpl in Hs, Hh.
  inversion H; subst; clear H. simpl.
  split; [done|]. split; [done|]. exists addr.
  by rewrite Hh, !alter_insert_eq.
Qed.

Lemma StartForwarding_failure_inv env rule host pw st st1 e :
  StartForwarding env rule host pw st = (st1, Some e) ->
  sessions st1 = sessions st.
Proof.
  rewrite StartForwarding_unfold. intros H.
  destruct (sessions st !! ID rule) eqn:Hreg; [by inversion H|].
  cbv zeta in H.
  destruct (dispatch _ _ _ _ _ _) as [st2 [e'|]] eqn:Hd; [|inversion H].
  apply dispatch_frame in Hd as [Hs _]. simpl in Hs.
  inversion H; subst; clear H. simpl.
  rewrite Hs. by apply delete_insert_id.
Qed.

Lemma fresh_heap st : heap st !! fresh (dom (heap st)) = None.
Proof. apply not_elem_of_dom, is_fresh. Qed.

Lemma StopForwarding_success_inv id st st1 :
  StopForwarding id st = (st1, Returned None) ->
  exists p fs,
    sessions st !! id = Some p /\ heap st !! p = Some fs /\
    done fs = chan_open /\
    sessions st1 = delete id (sessions st) /\
    heap st1 =
      <[p := set_done chan_closed
               (set_listener (Listener_Close <$> listener fs) (SetActive false fs))]>
        (heap st).
Proof.
  unfold StopForwarding. intros H.
  destruct (sessions st !! id) as [p|] eqn:Hreg; [|inversion H].
  destruct (heap st !! p) as [fs|] eqn:Hp; [|inversion H].
  simpl in H. rewrite !lookup_alter_eq, Hp in H. simpl in H.
  destruct (done fs) eqn:Hdone; [|inversion H].
  inversion H; subst; clear H. simpl.
  exists p, fs. repeat split; try done.
  apply map_eq. intros q. destruct (decide (q = p)) as [->|Hne].
  - by rewrite !lookup_alter_eq, lookup_insert_eq, Hp.
  - by rewrite !lookup_alter_ne, lookup_insert_ne.
Qed.

Lemma StartForwarding_registered env rule host pw st p :
  sessions st !! ID rule = Some p ->
  StartForwarding env rule host pw st
  = (st, Some ("forwarding session " +:+ ID rule +:+ " already exists")).
Proof. unfold StartForwarding. by intros ->. Qed.

Lemma StopForwarding_absent id st :
  sessions st !! id = None ->
  StopForwarding id st
  = (st, Returned (Some ("session " +:+ id +:+ " not found"))).
Proof. unfold StopForwarding. by intros ->. Qed.

(** The invariant holds of a new manager and is kept by both
    operations. *)
Lemma wf_NewManager : wf_state NewManager.
Proof. intros k p H. simpl in H. by rewrite lookup_empty in H. Qed.

Lemma wf_StartForwarding env rule host pw st st1 err :
  wf_state st -> StartForwarding env rule host pw st = (st1, err) ->
  wf_state st1.
Proof.
  intros Hwf H k q Hk. destruct err as [e|].
  - apply StartForwarding_failure_inv in H as Hs. rewrite Hs in Hk.
    destruct (Hwf k q Hk) as (fs & Hq & Hid).
    rewrite StartForwarding_unfold in H.
    destruct (sessions st !! ID rule) eqn:Hreg; [inversion H; subst; eauto|].
    cbv zeta in H.
    destruct (dispatch _ _ _ _ _ _) as [st2 [e'|]] eqn:Hd; [|inversion H].
    apply dispatch_frame in Hd as [_ Hh]. simpl in Hh.
    inversion H; subst; clear H. simpl. rewrite Hh.
    exists fs. split; [|done].
    rewrite lookup_insert_ne; [done|].
    intros <-. by rewrite fresh_heap in Hq.
  - apply StartForwarding_success_inv in H as (Hreg & Hs & addr & Hh).
    rewrite Hs in Hk. rewrite Hh.
    destruct (decide (ID rule = k)) as [<-|Hne].
    + rewrite lookup_insert_eq in Hk. inversion Hk; subst.
      rewrite lookup_insert_eq. eauto.
    + rewrite lookup_insert_ne in Hk by done.
      destruct (Hwf k q Hk) as (fs & Hq & Hid). exists fs. split; [|done].
      rewrite lookup_insert_ne; [done|].
      intros <-. by rewrite fresh_heap in Hq.
Qed.

Lemma wf_StopForwarding id st st1 o :
  wf_state st -> StopForwarding id st = (st1, o) -> wf_state st1.
Proof.
  intros Hwf H. destruct o as [[e|]|msg].
  - unfold StopForwarding in H.
    destruct (sessions st !! id) as [p|] eqn:Hreg; [|by inversion H; subst].
    destruct (heap st !! p) as [fs|] eqn:Hp; [|inversion H].
    simpl in H. rewrite !lookup_alter_eq, Hp in H. simpl in H.
    destruct (done fs); inversion H.
  - apply StopForwarding_success_inv in H
      as (p & fs & Hreg & Hp & _ & Hs & Hh).
    intros k q Hk. rewrite Hs in Hk.
    apply lookup_delete_Some in Hk as [Hne Hk].
    destruct (Hwf k q Hk) as (fs' & Hq & Hid). rewrite Hh.
    destruct (decide (p = q)) as [->|Hpq].
    + rewrite lookup_insert_eq. rewrite Hp in Hq. inversion Hq; subst. eauto.
    + rewrite lookup_insert_ne by done. eauto.
  - unfold StopForwarding in H.
    destruct (sessions st !! id) as [p|] eqn:Hreg; [|inversion H].
    destruct (heap st !! p) as [fs|] eqn:Hp; [|by inversion H; subst].
    simpl in H. rewrite !lookup_alter_eq, Hp in H. simpl in H.
    destruct (done fs); inversion H; subst; clear H.
    intros k q Hk. simpl in Hk. destruct (Hwf k q Hk) as (fs' & Hq & Hid).
    simpl. destruct (decide (p = q)) as [->|Hpq].
    + rewrite !lookup_alter_eq, Hq. simpl. eauto.
    + rewrite !lookup_alter_ne by done. eauto.
Qed.

End RegistryProperties.

(** ** Starting and stopping *)

(** C1.  When the id of the rule is already registered, [StartForwarding]
    returns the error "forwarding session <id> already exists" and hands
    the state back as it was: the registry, the transport pool and the
    heap, hence the registered session and its statistics. *)
Theorem StartForwarding_already_exists
    (env : Env) (rule : ForwardingRule) (host : SSHHost) (pw : string)
    (st : State) (p : loc) :
  sessions st !! ID rule = Some p ->
  StartForwarding env rule host pw st
  = (st, Some ("forwarding session " +:+ ID rule +:+ " already exists"))
  /\ Stats <$> heap (fst (StartForwarding env rule host pw st)) !! p
     = Stats <$> heap st !! p.
Proof.
  intros H. by rewrite (StartForwarding_registered _ _ _ _ _ _ H).
Qed.

Lemma StartForwarding_already_exists_witness :
  sessions Scenario.st_a !! ID Scenario.rule_a = Some 0%nat /\
  StartForwarding Scenario.env_busy Scenario.rule_a Scenario.web "" Scenario.st_a
  = (Scenario.st_a, Some "forwarding session a already exists").
Proof.
  split; [vm_compute; reflexivity|].
  apply (StartForwarding_already_exists Scenario.env_busy Scenario.rule_a
           Scenario.web "" Scenario.st_a 0%nat).
  vm_compute; reflexivity.
Defined.

(** C2.  Whenever [StartForwarding] returns an error the registry it
    leaves is the registry it found.  For a rule whose id was free the
    error is that of the starter the call dispatched to: the session
    stored before the dispatch has been deleted again, so the id is not
    registered and the sessions listed are those listed before. *)
Theorem StartForwarding_failure_rolls_back
    (env : Env) (rule : ForwardingRule) (host : SSHHost) (pw : string)
    (st st' : State) (e : string) :
  StartForwarding env rule host pw st = (st', Some e) ->
  sessions st' = sessions st /\
  GetSession (ID rule) st' = GetSession (ID rule) st /\
  GetAllSessions st' = GetAllSessions st /\
  (sessions st !! ID rule = None ->
   GetSession (ID rule) st' = None /\
   exists st2,
     dispatch env rule host pw (fresh (dom (heap st)))
       (set_sessions (<[ID rule := fresh (dom (heap st))]> (sessions st))
          (set_heap (<[fresh (dom (heap st)) := new_session env rule]> (heap st)) st))
     = (st2, Some e) /\
     st' = set_sessions (delete (ID rule) (sessions st2)) st2).
Proof.
  intros H.
  pose proof (StartForwarding_failure_inv _ _ _ _ _ _ _ H) as Hs.
  unfold GetSession, GetAllSessions. rewrite Hs.
  split; [done|]. split; [done|]. split; [done|].
  intros Hfree. split; [done|].
  rewrite StartForwarding_unfold, Hfree in H. cbv zeta in H.
  destruct (dispatch _ _ _ _ _ _) as [st2 [e'|]]; inversion H; subst. eauto.
Qed.

Lemma StartForwarding_failure_rolls_back_witness :
  sessions (fst (StartForwarding Scenario.env_busy Scenario.rule_a Scenario.web ""
                   NewManager))
  = sessions NewManager.
Proof.
  eapply (StartForwarding_failure_rolls_back Scenario.env_busy Scenario.rule_a
            Scenario.web "" NewManager _
            "failed to listen on localhost:8080: bind: address already in use").
  vm_compute; reflexivity.
Defined.

(** C3.  After a successful [StartForwarding] of a rule, [StopForwarding]
    of its id returns without error, and then [GetSession] does not find
    the id and no session listed by [GetAllSessions] carries it. *)
Theorem start_then_stop_absent
    (env : Env) (rule : ForwardingRule) (host : SSHHost) (pw : string)
    (st st1 : State) :
  wf_state st ->
  StartForwarding env rule host pw st = (st1, None) ->
  exists st2,
    StopForwarding (ID rule) st1 = (st2, Returned None) /\
    GetSession (ID rule) st2 = None /\
    forall (p : loc) (fs : ForwardingSession),
      p ∈ GetAllSessions st2 -> heap st2 !! p = Some fs ->
      ID (Rule fs) <> ID rule.
Proof.
  intros Hwf Hstart.
  pose proof (wf_StartForwarding _ _ _ _ _ _ _ Hwf Hstart) as Hwf1.
  apply StartForwarding_success_inv in Hstart as (Hfree & Hs & addr & Hh).
  destruct (StopForwarding (ID rule) st1) as [st2 o] eqn:Hstop.
  pose proof (wf_StopForwarding _ _ _ _ Hwf1 Hstop) as Hwf2.
  assert (o = Returned None) as ->.
  { unfold StopForwarding in Hstop.
    rewrite Hs, lookup_insert_eq, Hh, lookup_insert_eq in Hstop.
    simpl in Hstop. rewrite Hh, !lookup_alter_eq, lookup_insert_eq in Hstop.
    simpl in Hstop. by inversion Hstop. }
  exists st2. split; [done|].
  apply StopForwarding_success_inv in Hstop as (_ & _ & _ & _ & _ & Hs2 & _).
  assert (sessions st2 !! ID rule = None) as Hgone
    by (rewrite Hs2; apply lookup_delete_eq).
  split; [done|].
  intros p fs Hin Hp. unfold GetAllSessions in Hin.
  apply list_elem_of_fmap in Hin as ([k q] & -> & Hin).
  apply elem_of_map_to_list in Hin. simpl in Hp.
  destruct (Hwf2 k q Hin) as (fs' & Hq & Hid).
  rewrite Hp in Hq. injection Hq as <-.
  intros Heq. rewrite Hid in Heq. rewrite Heq, Hgone in Hin. discriminate Hin.
Qed.

Lemma start_then_stop_absent_witness :
  exists st2,
    StopForwarding (ID Scenario.rule_a) Scenario.st_a = (st2, Returned None) /\
    GetSession (ID Scenario.rule_a) st2 = None /\
    forall (p : loc) (fs : ForwardingSession),
      p ∈ GetAllSessions st2 -> heap st2 !! p = Some fs ->
      ID (Rule fs) <> ID Scenario.rule_a.
Proof.
  apply (start_then_stop_absent Scenario.env_ok Scenario.rule_a Scenario.web ""
           NewManager Scenario.st_a).
  - exact wf_NewManager.
  - vm_compute; reflexivity.
Defined.

(** The accesses of [stop_step], made without interruption, are
    [StopForwarding]. *)
Lemma stop_steps_uninterrupted (id : string) (st : State) :
  stop_race [true; true; true; true; true] id pc_load pc_load st
  = (fst (StopForwarding id st), pc_end (snd (StopForwarding id st)), pc_load).
Proof.
  unfold StopForwarding. simpl.
  destruct (sessions st !! id) as [p|]; simpl; [|done].
  destruct (heap st !! p) as [fs|] eqn:Hp; simpl; [|done].
  rewrite !lookup_alter_eq, Hp. simpl.
  destruct (done fs); simpl; done.
Qed.

(** The double close of the shutdown signal needs two calls that overlap:
    when both have loaded the session before either deletes the entry,
    the call that comes second to [close(session.done)] panics. *)
Lemma overlapping_stops_double_close
    (id : string) (st : State) (p : loc) (fs : ForwardingSession) :
  sessions st !! id = Some p -> heap st !! p = Some fs -> done fs = chan_open ->
  exists st',
    stop_race [true; false; true; true; true; true; false; false; false]
      id pc_load pc_load st
    = (st', pc_end (Returned None), pc_end (Panicked "close of closed channel")).
Proof.
  intros Hreg Hp Hdone. simpl.
  repeat (first [rewrite Hreg | rewrite Hp | rewrite Hdone
                | rewrite lookup_alter_eq]; simpl).
  eauto.
Qed.

(** C6, as the code has it.  Once [StopForwarding] has returned for an
    id, a second call for that id finds the registry without it: it
    returns the ordinary error "session <id> not found", closes nothing
    and leaves the state as it is.  The shutdown signal is closed a second
    time when two calls for the id overlap: with both having loaded the
    session before either deletes the entry, the call that comes second
    to [close(session.done)] panics. *)
Theorem second_stop_not_found :
  (forall (id : string) (st st1 : State),
     StopForwarding id st = (st1, Returned None) ->
     StopForwarding id st1
     = (st1, Returned (Some ("session " +:+ id +:+ " not found")))) /\
  (forall (id : string) (st : State) (p : loc) (fs : ForwardingSession),
     sessions st !! id = Some p -> heap st !! p = Some fs ->
     done fs = chan_open ->
     exists st',
       stop_race [true; false; true; true; true; true; false; false; false]
         id pc_load pc_load st
       = (st', pc_end (Returned None),
          pc_end (Panicked "close of closed channel"))).
Proof.
  split; [|apply overlapping_stops_double_close].
  intros id st st1 H.
  apply StopForwarding_success_inv in H as (_ & _ & _ & _ & _ & Hs & _).
  apply StopForwarding_absent. rewrite Hs. apply lookup_delete_eq.
Qed.

Lemma second_stop_not_found_witness :
  (snd (StopForwarding "a" Scenario.st_a) = Returned None /\
   StopForwarding "a" (fst (StopForwarding "a" Scenario.st_a))
   = (fst (StopForwarding "a" Scenario.st_a),
      Returned (Some "session a not found"))) /\
  exists st',
    stop_race [true; false; true; true; true; true; false; false; false]
      "a" pc_load pc_load Scenario.st_a
    = (st', pc_end (Returned None), pc_end (Panicked "close of closed channel")).
Proof.
  split; [split; [vm_compute; reflexivity|]|].
  - apply (proj1 second_stop_not_found "a" Scenario.st_a).
    vm_compute; reflexivity.
  - apply (proj2 second_stop_not_found "a" Scenario.st_a 0%nat
             Scenario.session_a);
      vm_compute; reflexivity.
Defined.

(** C6, as the specification words it, fails: here the first call has
    stopped session "a", and the second call returns an error instead of
    closing the shutdown signal a second time. *)
Lemma second_stop_is_not_a_double_close :
  snd (StopForwarding "a" Scenario.st_a) = Returned None /\
  snd (StopForwarding "a" (fst (StopForwarding "a" Scenario.st_a)))
  = Returned (Some "session a not found") /\
  ~ (exists msg,
       snd (StopForwarding "a" (fst (StopForwarding "a" Scenario.st_a)))
       = Panicked msg).
Proof.
  split; [vm_compute; reflexivity|].
  split; [vm_compute; reflexivity|].
  intros [msg H]. vm_compute in H. discriminate H.
Qed.

(** ** The transport pool *)

Section Pool.

Implicit Types (st : State) (env : Env) (host : SSHHost) (c : client).

Lemma createSSHClient_dialed env host pw st st' r :
  createSSHClient env host pw st = (st', r) ->
  match r with
  | Ok c => c = dialed st /\ dialed st' = S (dialed st)
  | Err _ => dialed st' = dialed st
  end.
Proof.
  unfold createSSHClient. intros H.
  repeat (match type of H with
          | context [if ?b then _ else _] => destruct b
          | context [match ?x with _ => _ end] => destruct x
          end); inversion H; subst; simpl; auto.
Qed.

Lemma getSSHClient_live env host pw st c :
  sshClients st !! clientKey host = Some c -> keepalive env c = true ->
  getSSHClient env host pw st = (st, Ok c).
Proof. unfold getSSHClient. by intros -> ->. Qed.

Lemma getSSHClient_stored env host pw st st' c :
  getSSHClient env host pw st = (st', Ok c) ->
  sshClients st' !! clientKey host = Some c.
Proof.
  unfold getSSHClient. intros H.
  destruct (sshClients st !! clientKey host) as [c0|] eqn:Hk.
  - destruct (keepalive env c0).
    + by inversion H; subst.
    + destruct (createSSHClient env host pw _) as [st1 [c1|e]];
        inversion H; subst; simpl. apply lookup_insert_eq.
  - destruct (createSSHClient env host pw st) as [st1 [c1|e]];
      inversion H; subst; simpl. apply lookup_insert_eq.
Qed.





End Pool.



(** The pool of [st_a] holds transport 0; when its probe fails it is
    closed and replaced by transport 1. *)
Example pool_evicts_dead_transport :
  getSSHClient Scenario.env_dead Scenario.web "" Scenario.st_a
  = (mkState (sessions Scenario.st_a) {["root@10.0.0.1:22" := 1%nat]}
       (heap Scenario.st_a) 2%nat [0%nat],
     Ok 1%nat).
Proof. vm_compute. reflexivity. Qed.

(** ** The rule parser *)

Section Parser.

Lemma Split_nonempty (s : string) (sep : ascii) : Split s sep <> [].
Proof.
  destruct s as [|c s]; simpl; [done|].
  destruct (Ascii.eqb c sep); [done|]. by destruct (Split s sep).
Qed.



Lemma Split_parts_colon_free (s : string) :
  Forall (fun p => colon_free p = true) (Split s ":").
Proof.
  induction s as [|c s IH]; simpl; [by repeat constructor|].
  destruct (Ascii.eqb c ":") eqn:Hc; [by constructor|].
  destruct (Split s ":") as [|p ps].
  - constructor; [|constructor]. simpl. by rewrite Hc.
  - inversion IH; subst. constructor; [|done]. simpl. by rewrite Hc.
Qed.

Lemma Join_cons (p q : string) (qs : list string) (sep : ascii) :
  Join (p :: q :: qs) sep = p +:+ String sep (Join (q :: qs) sep).
Proof. reflexivity. Qed.

Lemma Join_Split (s : string) : Join (Split s ":") ":" = s.
Proof.
  induction s as [|c s IH]; [done|].
  pose proof (Split_nonempty s ":") as Hne.
  cbn [Split]. destruct (Ascii.eqb c ":") eqn:Hc.
  - apply Ascii.eqb_eq in Hc as ->.
    destruct (Split s ":") as [|p ps]; [done|].
    rewrite Join_cons, IH. reflexivity.
  - destruct (Split s ":") as [|p [|q qs]]; [done| |];
      rewrite <- IH; reflexivity.
Qed.

Lemma upper_ascii_D (c : ascii) :
  upper_ascii c = "D"%char <-> c = "D"%char \/ c = "d"%char.
Proof.
  split.
  - destruct c as [[] [] [] [] [] [] [] []]; vm_compute; intros H;
      first [discriminate H | by left | by right].
  - by intros [-> | ->].
Qed.

Lemma upper_ascii_R (c : ascii) :
  upper_ascii c = "R"%char <-> c = "R"%char \/ c = "r"%char.
Proof.
  split.
  - destruct c as [[] [] [] [] [] [] [] []]; vm_compute; intros H;
      first [discriminate H | by left | by right].
  - by intros [-> | ->].
Qed.

Lemma ToUpper_D (p : string) :
  String.eqb (ToUpper p) "D" = true <-> p = "D" \/ p = "d".
Proof.
  rewrite String.eqb_eq. split.
  - destruct p as [|c [|c' p]]; simpl; intros H; try discriminate H.
    injection H as H. apply upper_ascii_D in H as [-> | ->]; auto.
  - by intros [-> | ->].
Qed.

Lemma ToUpper_R (p : string) :
  String.eqb (ToUpper p) "R" = true <-> p = "R" \/ p = "r".
Proof.
  rewrite String.eqb_eq. split.
  - destruct p as [|c [|c' p]]; simpl; intros H; try discriminate H.
    injection H as H. apply upper_ascii_R in H as [-> | ->]; auto.
  - by intros [-> | ->].
Qed.







Lemma parse_sound (s : string) (r : ForwardingRule) :
  parseForwardingRule s = Ok r -> RuleEncoding s r.
Proof.
  unfold parseForwardingRule. intros H.
  pose proof (Join_Split s) as Hjoin.
  pose proof (Split_parts_colon_free s) as Hfree.
  destruct (Split s ":") as [|p0 [|p1 [|p2 [|p3 [|p4 ps]]]]];
    try discriminate H.
  - destruct (String.eqb (ToUpper p0) "D") eqn:Hd; [|discriminate H].
    destruct (Atoi p1) as [port|] eqn:Hport; [|discriminate H].
    injection H as <-. simpl in Hjoin. subst s.
    apply ToUpper_D in Hd. by apply (enc_dynamic p0 p1 port).
  - destruct (Atoi p0) as [l|] eqn:Hl; [|discriminate H].
    destruct (Atoi p2) as [rp|] eqn:Hr; [|discriminate H].
    injection H as <-. simpl in Hjoin. subst s.
    apply (enc_local p0 p1 p2 l rp); try done.
    by inversion Hfree as [|? ? _ Hfree']; inversion Hfree'.
  - destruct (String.eqb (ToUpper p0) "R") eqn:Hd; [|discriminate H].
    destruct (Atoi p1) as [l|] eqn:Hl; [|discriminate H].
    destruct (Atoi p3) as [rp|] eqn:Hr; [|discriminate H].
    injection H as <-. simpl in Hjoin. subst s.
    apply ToUpper_R in Hd. apply (enc_remote p0 p1 p2 p3 l rp); try done.
    by inversion Hfree as [|? ? _ Hfree1]; inversion Hfree1 as [|? ? _ Hfree2];
      inversion Hfree2.
Qed.


Lemma parse_id (s : string) (r : ForwardingRule) :
  parseForwardingRule s = Ok r -> ID r = "cli-" +:+ itoa (len s).
Proof. intros H%parse_sound. by destruct H. Qed.

End Parser.




(** What the specification lists is accepted. *)
Lemma documented_encoding_examples :
  documented_encoding "8080:localhost:80" = true /\
  documented_encoding "R:9000:db:5432" = true /\
  documented_encoding "D:1080" = true.
Proof. repeat split; vm_compute; reflexivity. Qed.

(** C10.  The id of a parsed rule is "cli-" followed by the length of the
    rule text, and nothing else of the text enters it.  So there are two
    different rule texts of the same length whose rules differ and carry
    the same id; and whenever two rule texts have the same length, once
    the rule of the first is started, starting the rule of the second
    fails with "already exists" and changes nothing. *)
Theorem cli_rule_id_collision :
  (forall (s : string) (r : ForwardingRule),
     parseForwardingRule s = Ok r -> ID r = "cli-" +:+ itoa (len s)) /\
  (exists (s1 s2 : string) (r1 r2 : ForwardingRule),
     s1 <> s2 /\ String.length s1 = String.length s2 /\
     parseForwardingRule s1 = Ok r1 /\ parseForwardingRule s2 = Ok r2 /\
     r1 <> r2 /\ ID r1 = ID r2) /\
  (forall (env env' : Env) (host host' : SSHHost) (pw pw' : string)
          (s1 s2 : string) (r1 r2 : ForwardingRule) (st st1 : State),
     parseForwardingRule s1 = Ok r1 -> parseForwardingRule s2 = Ok r2 ->
     String.length s1 = String.length s2 ->
     StartForwarding env r1 host pw st = (st1, None) ->
     StartForwarding env' r2 host' pw' st1
     = (st1, Some ("forwarding session " +:+ ID r2 +:+ " already exists"))).
Proof.
  split; [apply parse_id|]. split.
  - exists "8080:localhost:80", "8081:localhost:80",
      (mkRule "cli-17" LocalForward "localhost" 8080 "localhost" 80
         "Local 8080 -> localhost:80"),
      (mkRule "cli-17" LocalForward "localhost" 8081 "localhost" 80
         "Local 8081 -> localhost:80").
    repeat split; try (vm_compute; reflexivity); discriminate.
  - intros env env' host host' pw pw' s1 s2 r1 r2 st st1 H1 H2 Hlen Hstart.
    apply parse_id in H1, H2.
    assert (ID r2 = ID r1) as Hid by (unfold len in *; congruence).
    apply StartForwarding_success_inv in Hstart as (_ & Hs & _).
    eapply (StartForwarding_registered env' r2 host' pw' st1).
    rewrite Hid, Hs. apply lookup_insert_eq.
Qed.

Lemma cli_rule_id_collision_witness :
  StartForwarding Scenario.env_ok
    (mkRule "cli-17" LocalForward "localhost" 8081 "localhost" 80
       "Local 8081 -> localhost:80")
    Scenario.web ""
    (fst (StartForwarding Scenario.env_ok
            (mkRule "cli-17" LocalForward "localhost" 8080 "localhost" 80
               "Local 8080 -> localhost:80")
            Scenario.web "" NewManager))
  = (fst (StartForwarding Scenario.env_ok
            (mkRule "cli-17" LocalForward "localhost" 8080 "localhost" 80
               "Local 8080 -> localhost:80")
            Scenario.web "" NewManager),
     Some "forwarding session cli-17 already exists").
Proof.
  apply (proj2 (proj2 cli_rule_id_collision) Scenario.env_ok Scenario.env_ok
           Scenario.web Scenario.web "" ""
           "8080:localhost:80" "8081:localhost:80"
           (mkRule "cli-17" LocalForward "localhost" 8080 "localhost" 80
              "Local 8080 -> localhost:80")
           (mkRule "cli-17" LocalForward "localhost" 8081 "localhost" 80
              "Local 8081 -> localhost:80")
           NewManager);
    vm_compute; reflexivity.
Defined.

(** ** The SOCKS5 negotiator *)

Section Socks5.

Lemma conn_Read_fits (r : ReadResult) (rest : list ReadResult)
    (ws : list WriteOutcome) (out : list byte) (size : nat) :
  (length (r_data r) <= size)%nat ->
  conn_Read (mkConn (r :: rest) ws out) size
  = (r_data r, r_err r, mkConn rest ws out).
Proof.
  intros H. unfold conn_Read. simpl.
  by rewrite (drop_ge _ _ H), (take_ge _ _ H).
Qed.

Lemma conn_Write_pop (r : ReadResult) (rest : list ReadResult)
    (ws : list WriteOutcome) (out p : list byte) :
  snd (conn_Write (mkConn (r :: rest) ws out) p)
  = mkConn (r :: rest) (wscript (snd (conn_Write (mkConn rest ws out) p)))
      (outbox (snd (conn_Write (mkConn rest ws out) p))).
Proof. unfold conn_Write. by destruct ws. Qed.

Lemma conn_Write_eta (rest : list ReadResult) (ws : list WriteOutcome)
    (out p : list byte) :
  mkConn rest (wscript (snd (conn_Write (mkConn rest ws out) p)))
    (outbox (snd (conn_Write (mkConn rest ws out) p)))
  = snd (conn_Write (mkConn rest ws out) p).
Proof. unfold conn_Write. by destruct ws. Qed.

Lemma byte_at_read_into (buf data : list byte) (i : nat) :
  (i < length data)%nat -> byte_at (read_into buf data) i = byte_at data i.
Proof. intros H. unfold byte_at, read_into. by rewrite app_nth1. Qed.

(** The negotiation when the greeting and the request each arrive in
    one read. *)
Lemma socks5Handshake_request (g req : list byte) (rest : list ReadResult)
    (ws : list WriteOutcome) (out : list byte) :
  greeting_ok g -> (length req <= 256)%nat ->
  socks5Handshake (mkConn (mkRead g None :: mkRead req None :: rest) ws out)
  = (if (blen req <? 7) || negb (byte_at req 0 =? 5) || negb (byte_at req 1 =? 1)
     then Err "invalid SOCKS5 request"
     else socks5_target (blen req) (read_into (read_into (repeat x00 256) g) req),
     snd (conn_Write (mkConn rest ws out) socks5_method_reply)).
Proof.
  intros [Hg0 [Hg3 Hg256]] Hreq. unfold socks5Handshake.
  rewrite conn_Read_fits by (simpl; lia). cbn [r_data r_err].
  assert ((blen g <? 3) = false) as -> by (apply Z.ltb_ge; unfold blen; lia).
  assert (byte_at (read_into (repeat x00 256) g) 0 = 5) as ->.
  { rewrite byte_at_read_into by lia. unfold byte_at. by rewrite Hg0. }
  cbn [orb negb Z.eqb Pos.eqb].
  destruct (conn_Write _ socks5_method_reply) as [[nw ew] conn1] eqn:Hw.
  assert (conn1 = snd (conn_Write (mkConn (mkRead req None :: rest) ws out)
                         socks5_method_reply)) as -> by (by rewrite Hw).
  rewrite conn_Write_pop, conn_Read_fits by (simpl; lia). cbn [r_data r_err].
  rewrite conn_Write_eta.
  destruct (blen req <? 7) eqn:Hlen; [done|].
  apply Z.ltb_ge in Hlen. unfold blen in Hlen.
  rewrite !byte_at_read_into by lia. cbn [orb].
  by destruct (negb (byte_at req 0 =? 5) || negb (byte_at req 1 =? 1)).
Qed.

Lemma shiftl_8 (x y : Z) : Z.shiftl x 8 + y = 256 * x + y.
Proof. rewrite Z.shiftl_mul_pow2 by lia. lia. Qed.

Lemma socks5_target_ipv4 (buf : list byte) (rsv a b c d ph pl : byte) :
  socks5_target 10 (read_into buf (connect_ipv4 rsv a b c d ph pl))
  = Ok (itoa (byte_val a) +:+ "." +:+ itoa (byte_val b) +:+ "."
        +:+ itoa (byte_val c) +:+ "." +:+ itoa (byte_val d) +:+ ":"
        +:+ itoa (256 * byte_val ph + byte_val pl)).
Proof.
  unfold socks5_target.
  rewrite !byte_at_read_into by (simpl; lia).
  unfold byte_at, connect_ipv4. cbn [nth]. fold (byte_val a) (byte_val b)
    (byte_val c) (byte_val d) (byte_val ph) (byte_val pl).
  by rewrite shiftl_8.
Qed.

Lemma socks5_target_domain (buf : list byte) (rsv dl : byte)
    (domain : list byte) (ph pl : byte) :
  byte_val dl = blen domain ->
  socks5_target (7 + blen domain)
    (read_into buf (connect_domain rsv dl domain ph pl))
  = Ok (string_of_list_byte domain +:+ ":"
        +:+ itoa (256 * byte_val ph + byte_val pl)).
Proof.
  intros Hdl. unfold socks5_target, read_into.
  set (X := drop _ buf). unfold connect_domain, byte_at.
  cbn [app nth]. fold (byte_val dl). rewrite Hdl.
  change (Z.of_N (Byte.to_N x03)) with 3. cbn [Z.eqb Pos.eqb].
  assert ((7 + blen domain <? 7) = false) as ->
    by (apply Z.ltb_ge; unfold blen; lia).
  rewrite Z.ltb_irrefl. unfold blen. rewrite Nat2Z.id.
  cbn [drop Nat.add nth].
  rewrite drop_0, take_app3_length.
  rewrite <- !app_assoc.
  rewrite (app_nth2 domain) by lia. rewrite Nat.sub_diag.
  replace (S (length domain)) with (length domain + 1)%nat by lia.
  rewrite (app_nth2_plus domain). cbn [app nth].
  fold (byte_val ph) (byte_val pl). by rewrite shiftl_8.
Qed.

Lemma socks5_target_ipv6 (n : Z) (buf : list byte) (rsv : byte)
    (rest : list byte) :
  socks5_target n (read_into buf (connect_ipv6 rsv rest))
  = Err "unsupported address type".
Proof.
  unfold socks5_target. rewrite byte_at_read_into by (simpl; lia).
  reflexivity.
Qed.

Lemma conn_Read_inbox (c c' : Conn) (size : nat) :
  inbox c' = inbox c ->
  fst (conn_Read c' size) = fst (conn_Read c size).
Proof.
  unfold conn_Read. intros ->. destruct (inbox c) as [|r rest]; [done|].
  by destruct (drop size (r_data r)).
Qed.

Lemma conn_Write_inbox (c : Conn) (p : list byte) (nw : Z) (ew : option ioerr)
    (c' : Conn) :
  conn_Write c p = (nw, ew, c') -> inbox c' = inbox c.
Proof.
  unfold conn_Write. destruct (wscript c); by intros [= <- <- <-].
Qed.

(** The negotiation after a greeting that arrived in one read: what it
    returns is decided by what the second read returns. *)
Lemma socks5Handshake_second (g : list byte) (rest : list ReadResult)
    (ws : list WriteOutcome) (out : list byte) (data : list byte)
    (er : option ioerr) :
  greeting_ok g ->
  fst (conn_Read (mkConn rest [] []) 256) = (data, er) ->
  fst (socks5Handshake (mkConn (mkRead g None :: rest) ws out))
  = match er with
    | Some e => Err (ioerr_msg e)
    | None =>
        if (blen data <? 7)
           || negb (byte_at (read_into (read_into (repeat x00 256) g) data) 0 =? 5)
           || negb (byte_at (read_into (read_into (repeat x00 256) g) data) 1 =? 1)
        then Err "invalid SOCKS5 request"
        else socks5_target (blen data)
               (read_into (read_into (repeat x00 256) g) data)
    end.
Proof.
  intros [Hg0 [Hg3 Hg256]] Hread. unfold socks5Handshake.
  rewrite conn_Read_fits by (simpl; lia). cbn [r_data r_err].
  assert ((blen g <? 3) = false) as -> by (apply Z.ltb_ge; unfold blen; lia).
  assert (byte_at (read_into (repeat x00 256) g) 0 = 5) as ->.
  { rewrite byte_at_read_into by lia. unfold byte_at. by rewrite Hg0. }
  cbn [orb negb Z.eqb Pos.eqb].
  destruct (conn_Write _ socks5_method_reply) as [[nw ew] conn1] eqn:Hw.
  assert (inbox conn1 = rest) as Hin.
  { apply conn_Write_inbox in Hw. by rewrite Hw. }
  pose proof (conn_Read_inbox (mkConn rest [] []) conn1 256 Hin) as Hfst.
  rewrite Hread in Hfst.
  destruct (conn_Read conn1 256) as [[data' er'] conn2]. simpl in Hfst.
  injection Hfst as -> ->.
  destruct er as [e|]; [done|].
  by destruct ((blen data <? 7) || _ || _).
Qed.

Lemma byte_at_take (l : list byte) (k i : nat) :
  (i < k)%nat -> byte_at (take k l) i = byte_at l i.
Proof.
  intros H. unfold byte_at. f_equal. f_equal.
  rewrite <- (take_drop k l) at 2.
  destruct (decide (i < length (take k l))%nat) as [Hi|Hi].
  - by rewrite app_nth1.
  - rewrite !nth_overflow; [done| |lia].
    rewrite length_app. rewrite length_take in *.
    assert (length (drop k l) = 0%nat) as -> by (rewrite length_drop; lia). lia.
Qed.

(** A read that returns only the first [k] bytes of a well-formed
    request. *)
Lemma socks5_truncated (buf req : list byte) (target : string) (k : nat) :
  WellFormedConnect req target -> (k < length req)%nat ->
  (if (blen (take k req) <? 7)
      || negb (byte_at (read_into buf (take k req)) 0 =? 5)
      || negb (byte_at (read_into buf (take k req)) 1 =? 1)
   then Err "invalid SOCKS5 request"
   else socks5_target (blen (take k req)) (read_into buf (take k req)))
  = Err (if (k <? 7)%nat then "invalid SOCKS5 request"
         else if byte_at req 3 =? 1 then "invalid IPv4 address"
         else "incomplete domain name").
Proof.
  intros Hwf Hk.
  assert (length (take k req) = k) as Hlen by (rewrite length_take; lia).
  assert (blen (take k req) = Z.of_nat k) as Hblen by (unfold blen; lia).
  rewrite Hblen.
  destruct (k <? 7)%nat eqn:Hk7.
  - apply Nat.ltb_lt in Hk7.
    assert ((Z.of_nat k <? 7) = true) as -> by (apply Z.ltb_lt; lia). done.
  - apply Nat.ltb_ge in Hk7.
    assert ((Z.of_nat k <? 7) = false) as Hn7 by (apply Z.ltb_ge; lia).
    rewrite Hn7. unfold socks5_target.
    rewrite !byte_at_read_into by lia. rewrite !byte_at_take by lia.
    destruct Hwf as [rsv a b c d ph pl|rsv dl domain ph pl Hdl].
    + change (byte_at (connect_ipv4 rsv a b c d ph pl) 0) with 5.
      change (byte_at (connect_ipv4 rsv a b c d ph pl) 1) with 1.
      change (byte_at (connect_ipv4 rsv a b c d ph pl) 3) with 1.
      cbn [Z.eqb Pos.eqb negb orb].
      simpl in Hk.
      assert ((Z.of_nat k <? 10) = true) as -> by (apply Z.ltb_lt; lia). done.
    + change (byte_at (connect_domain rsv dl domain ph pl) 0) with 5.
      change (byte_at (connect_domain rsv dl domain ph pl) 1) with 1.
      change (byte_at (connect_domain rsv dl domain ph pl) 3) with 3.
      change (byte_at (connect_domain rsv dl domain ph pl) 4) with (byte_val dl).
      cbn [Z.eqb Pos.eqb negb orb]. rewrite Hn7, Hdl.
      assert (length (connect_domain rsv dl domain ph pl)
              = (7 + length domain)%nat) as Hl
        by (unfold connect_domain; simpl; rewrite length_app; simpl; lia).
      assert ((Z.of_nat k <? 7 + blen domain) = true) as ->
        by (apply Z.ltb_lt; unfold blen; lia).
      done.
Qed.

Lemma WellFormedConnect_length (req : list byte) (target : string) :
  WellFormedConnect req target ->
  (7 <= length req)%nat /\
  ((256 < length req)%nat -> byte_at req 3 = 3).
Proof.
  intros [rsv a b c d ph pl|rsv dl domain ph pl Hdl].
  - simpl. split; lia.
  - split; [|done]. unfold connect_domain. simpl. rewrite length_app. simpl. lia.
Qed.

End Socks5.

(** C4.  The negotiator reads the client's greeting with one read and
    the CONNECT request with one further read into its buffer of 256
    bytes, and parses what that read returned.  Given a well-formed
    CONNECT request that this read returns whole, so one of at most 256
    bytes, it returns the target as "host:port": for an IPv4 request the
    four address bytes in decimal separated by dots and the port with its
    first byte as the high byte, for a domain request the domain bytes
    and the port; this covers the domains of at most 249 bytes.  A
    well-formed request that the read does not return whole is rejected:
    one of more than 256 bytes, which is a domain request with a domain
    of 250 to 255 bytes, with "incomplete domain name"; one that arrives
    in two pieces with "invalid SOCKS5 request" when the first piece has
    fewer than 7 bytes, and otherwise with "invalid IPv4 address" or
    "incomplete domain name"; one that arrives in the same piece as the
    greeting, a piece of at most 256 bytes, is consumed with the greeting,
    and when nothing follows the negotiation ends with the error "EOF".
    For address
    type 4 (IPv6) it returns the error "unsupported address type", and
    the handler then writes nothing: the connection is left as the
    method-selection message of the negotiation left it, neither the
    success nor the failure reply is written.  The examples of the
    specification are the last three items. *)
Theorem socks5_connect_target :
  (forall (g req : list byte) (target : string) (rest : list ReadResult)
          (ws : list WriteOutcome) (out : list byte),
     greeting_ok g -> WellFormedConnect req target ->
     (length req <= 256)%nat ->
     socks5Handshake (mkConn (mkRead g None :: mkRead req None :: rest) ws out)
     = (Ok target, snd (conn_Write (mkConn rest ws out) socks5_method_reply))) /\
  (forall (g req : list byte) (target : string) (rest : list ReadResult)
          (ws : list WriteOutcome) (out : list byte),
     greeting_ok g -> WellFormedConnect req target ->
     (256 < length req)%nat ->
     fst (socks5Handshake
            (mkConn (mkRead g None :: mkRead req None :: rest) ws out))
     = Err "incomplete domain name") /\
  (forall (g req : list byte) (target : string) (k : nat)
          (rest : list ReadResult) (ws : list WriteOutcome) (out : list byte),
     greeting_ok g -> WellFormedConnect req target ->
     (k < length req)%nat ->
     fst (socks5Handshake
            (mkConn (mkRead g None :: mkRead (take k req) None
                       :: mkRead (drop k req) None :: rest) ws out))
     = Err (if (k <? 7)%nat then "invalid SOCKS5 request"
            else if byte_at req 3 =? 1 then "invalid IPv4 address"
            else "incomplete domain name")) /\
  (forall (g req : list byte) (target : string)
          (ws : list WriteOutcome) (out : list byte),
     greeting_ok g -> WellFormedConnect req target ->
     (length (g ++ req) <= 256)%nat ->
     fst (socks5Handshake (mkConn [mkRead (g ++ req) None] ws out))
     = Err "EOF") /\
  (forall (env : Env) (sshClient : client) (g : list byte) (rsv : byte)
          (addr : list byte) (rest : list ReadResult) (ws : list WriteOutcome)
          (out : list byte),
     greeting_ok g -> (3 <= length addr <= 252)%nat ->
     socks5Handshake
       (mkConn (mkRead g None :: mkRead (connect_ipv6 rsv addr) None :: rest) ws out)
     = (Err "unsupported address type",
        snd (conn_Write (mkConn rest ws out) socks5_method_reply)) /\
     snd (handleSOCKS5Connection env sshClient
            (mkConn (mkRead g None :: mkRead (connect_ipv6 rsv addr) None :: rest)
               ws out))
     = snd (conn_Write (mkConn rest ws out) socks5_method_reply) /\
     exists k : nat,
       outbox (snd (handleSOCKS5Connection env sshClient
                      (mkConn (mkRead g None :: mkRead (connect_ipv6 rsv addr) None
                                 :: rest) ws out)))
       = out ++ take k socks5_method_reply) /\
  socks5Handshake (Scenario.socks_client Scenario.request_ipv4)
  = (Ok "93.184.216.34:80", mkConn [] [] socks5_method_reply) /\
  socks5Handshake (Scenario.socks_client Scenario.request_domain)
  = (Ok "example.com:80", mkConn [] [] socks5_method_reply) /\
  handleSOCKS5Connection Scenario.env_ok 0%nat
    (Scenario.socks_client Scenario.request_ipv6)
  = ([[EvStat OpIncrementConnections;
       EvStat (OpIncrementErrors
                 "SOCKS5 handshake failed: unsupported address type");
       EvStat OpDecrementActiveConnections]],
     mkConn [] [] socks5_method_reply).
Proof.
  split; [|split; [|split; [|split; [|split]]]].
  - intros g req target rest ws out Hg Hwf Hlen.
    destruct Hwf as [rsv a b c d ph pl|rsv dl domain ph pl Hdl].
    + rewrite socks5Handshake_request by (done || (simpl; lia)).
      by rewrite socks5_target_ipv4.
    + assert (length (connect_domain rsv dl domain ph pl)
              = (7 + length domain)%nat) as Hl
        by (unfold connect_domain; simpl; rewrite length_app; simpl; lia).
      rewrite socks5Handshake_request by (done || lia).
      assert (blen (connect_domain rsv dl domain ph pl) = 7 + blen domain) as ->
        by (unfold blen; lia).
      assert ((7 + blen domain <? 7) = false) as ->
        by (apply Z.ltb_ge; unfold blen; lia).
      by rewrite socks5_target_domain.
  - intros g req target rest ws out Hg Hwf Hlen.
    destruct (WellFormedConnect_length req target Hwf) as [_ Hatyp].
    assert (fst (conn_Read (mkConn (mkRead req None :: rest) [] []) 256)
            = (take 256 req, None)) as Hread.
    { unfold conn_Read. simpl.
      destruct (drop 256 req) as [|b pending] eqn:Hdrop; [|done].
      apply (f_equal length) in Hdrop. rewrite length_drop in Hdrop.
      simpl in Hdrop. lia. }
    rewrite (socks5Handshake_second g _ ws out _ _ Hg Hread).
    rewrite (socks5_truncated _ req target 256 Hwf Hlen).
    rewrite (Hatyp Hlen). reflexivity.
  - intros g req target k rest ws out Hg Hwf Hk.
    destruct (decide (k <= 256)%nat) as [Hk256|Hk256].
    + assert (fst (conn_Read
                     (mkConn (mkRead (take k req) None
                                :: mkRead (drop k req) None :: rest) [] []) 256)
              = (take k req, None)) as Hread.
      { rewrite conn_Read_fits; [done|]. simpl. rewrite length_take. lia. }
      rewrite (socks5Handshake_second g _ ws out _ _ Hg Hread).
      by rewrite (socks5_truncated _ req target k Hwf Hk).
    + destruct (WellFormedConnect_length req target Hwf) as [_ Hatyp].
      assert (fst (conn_Read
                     (mkConn (mkRead (take k req) None
                                :: mkRead (drop k req) None :: rest) [] []) 256)
              = (take 256 req, None)) as Hread.
      { unfold conn_Read. simpl. rewrite take_take.
        replace (256 `min` k)%nat with 256%nat by lia.
        destruct (drop 256 (take k req)) as [|b pending] eqn:Hdrop; [|done].
        apply (f_equal length) in Hdrop.
        rewrite length_drop, length_take in Hdrop. simpl in Hdrop. lia. }
      rewrite (socks5Handshake_second g _ ws out _ _ Hg Hread).
      rewrite (socks5_truncated _ req target 256 Hwf) by lia.
      rewrite Hatyp by lia.
      assert ((k <? 7)%nat = false) as -> by (apply Nat.ltb_ge; lia).
      reflexivity.
  - intros g req target ws out [Hg0 [Hg3 Hg256]] Hwf Hlen.
    assert (greeting_ok (g ++ req)) as Hg'.
    { split; [|rewrite length_app in *; lia].
      rewrite app_nth1 by lia. done. }
    assert (fst (conn_Read (mkConn [] [] []) 256) = ([], Some io_EOF)) as Hread
      by done.
    by rewrite (socks5Handshake_second (g ++ req) [] ws out _ _ Hg' Hread).
  - intros env sshClient g rsv addr rest ws out Hg Hlen.
    assert (socks5Handshake
              (mkConn (mkRead g None :: mkRead (connect_ipv6 rsv addr) None :: rest)
                 ws out)
            = (Err "unsupported address type",
               snd (conn_Write (mkConn rest ws out) socks5_method_reply))) as Hhs.
    { rewrite socks5Handshake_request by (done || (simpl; lia)).
      rewrite socks5_target_ipv6.
      assert ((blen (connect_ipv6 rsv addr) <? 7) = false) as ->
        by (apply Z.ltb_ge; unfold blen; simpl; lia).
      reflexivity. }
    split; [done|]. unfold handleSOCKS5Connection. rewrite Hhs. simpl.
    split; [done|]. unfold conn_Write. simpl.
    destruct ws as [|w ws]; simpl.
    + by exists 2%nat.
    + by exists (w_accept w).
  - repeat split; vm_compute; reflexivity.
Qed.

Lemma socks5_connect_target_witness :
  fst (socks5Handshake
         (mkConn [mkRead [x05; x02; x00; x02] None;
                  mkRead (connect_domain x00 x02 [x61; x62] x01 xbb) None]
            [] []))
  = Ok "ab:443".
Proof.
  assert (WellFormedConnect (connect_domain x00 x02 [x61; x62] x01 xbb)
            (string_of_list_byte [x61; x62] +:+ ":"
             +:+ itoa (256 * byte_val x01 + byte_val xbb))) as Hwf
    by (apply wf_connect_domain; reflexivity).
  assert (greeting_ok [x05; x02; x00; x02]) as Hg
    by (split; [reflexivity | simpl; lia]).
  assert (length (connect_domain x00 x02 [x61; x62] x01 xbb) <= 256)%nat as Hlen
    by (simpl; lia).
  pose proof (proj1 socks5_connect_target
                [x05; x02; x00; x02] (connect_domain x00 x02 [x61; x62] x01 xbb)
                _ [] [] [] Hg Hwf Hlen) as H.
  rewrite H. reflexivity.
Defined.

(** Well-formed requests that are rejected: one with a domain of 250
    bytes, which is 257 bytes long; the IPv4 request of the
    specification arriving in two pieces of 4 and 6 bytes; and the same
    request arriving in one piece with the greeting. *)
Lemma well_formed_connect_is_rejected :
  WellFormedConnect (connect_domain x00 xfa (repeat x61 250) x00 x50)
    (string_of_list_byte (repeat x61 250) +:+ ":"
     +:+ itoa (256 * byte_val x00 + byte_val x50)) /\
  length (connect_domain x00 xfa (repeat x61 250) x00 x50) = 257%nat /\
  fst (socks5Handshake
         (Scenario.socks_client
            (connect_domain x00 xfa (repeat x61 250) x00 x50)))
  = Err "incomplete domain name" /\
  Scenario.request_ipv4 = [x05; x01; x00; x01] ++ [x5d; xb8; xd8; x22; x00; x50] /\
  fst (socks5Handshake
         (mkConn [mkRead Scenario.greeting None;
                  mkRead [x05; x01; x00; x01] None;
                  mkRead [x5d; xb8; xd8; x22; x00; x50] None] [] []))
  = Err "invalid SOCKS5 request" /\
  fst (socks5Handshake
         (mkConn [mkRead (Scenario.greeting ++ Scenario.request_ipv4) None]
            [] []))
  = Err "EOF".
Proof.
  split; [by apply wf_connect_domain|].
  repeat split; vm_compute; reflexivity.
Qed.

(** ** The stream pump *)

Section Pump.

Lemma conn_Write_spec (c : Conn) (p : list byte) (nw : Z) (ew : option ioerr)
    (c' : Conn) :
  conn_Write c p = (nw, ew, c') ->
  exists sent, nw = blen sent /\ outbox c' = outbox c ++ sent.
Proof.
  unfold conn_Write. destruct (wscript c) as [|w ws]; intros H;
    inversion H; subst; simpl; eauto.
Qed.

Lemma accounted_app (evs1 evs2 : list PumpEvent) :
  accounted evs1 -> accounted evs2 -> accounted (evs1 ++ evs2).
Proof. induction 1; simpl; intros; try constructor; auto. Qed.

Lemma accounted_block (sent : list byte) :
  accounted (PWrite sent :: (if 0 <? blen sent then [PCallback (blen sent)] else [])).
Proof.
  destruct (0 <? blen sent) eqn:Hnw.
  - apply Z.ltb_lt in Hnw. by repeat constructor.
  - apply Z.ltb_ge in Hnw. destruct sent; [by repeat constructor|].
    unfold blen in Hnw. simpl in Hnw. lia.
Qed.

Lemma pump_bytes_app (evs1 evs2 : list PumpEvent) :
  pump_bytes (evs1 ++ evs2) = pump_bytes evs1 ++ pump_bytes evs2.
Proof.
  induction evs1 as [|[bs|n] evs1 IH]; simpl; [done| |done].
  by rewrite IH, app_assoc.
Qed.

Lemma pump_bytes_block (sent : list byte) (nw : Z) :
  pump_bytes (PWrite sent :: (if 0 <? nw then [PCallback nw] else [])) = sent.
Proof. destruct (0 <? nw); simpl; by rewrite app_nil_r. Qed.

(** The events of the copy loop have the shape [accounted], and the
    writes among them are what reached the destination. *)
Lemma copy_loop_accounted (fuel size : nat) (dst src : Conn) (written : Z)
    (res : Z * option ioerr) (evs : list PumpEvent) (dst' src' : Conn) :
  copy_loop fuel size dst src written = Some (res, evs, dst', src') ->
  accounted evs /\ outbox dst' = outbox dst ++ pump_bytes evs.
Proof.
  revert dst src written res evs dst' src'.
  induction fuel as [|fuel IH]; intros dst src written res evs dst' src' H;
    [discriminate H|].
  simpl in H. destruct (conn_Read src size) as [[data er] src1].
  assert (forall w evs0 dst0,
            accounted evs0 ->
            outbox dst0 = outbox dst ++ pump_bytes evs0 ->
            match er with
            | Some e =>
                if is_EOF e then Some (w, None, evs0, dst0, src1)
                else Some (w, Some e, evs0, dst0, src1)
            | None =>
                match copy_loop fuel size dst0 src1 w with
                | Some (r, evs', dst', src') => Some (r, evs0 ++ evs', dst', src')
                | None => None
                end
            end = Some (res, evs, dst', src') ->
            accounted evs /\ outbox dst' = outbox dst ++ pump_bytes evs)
    as Hcont.
  { intros w evs0 dst0 Hacc Hout Hk. destruct er as [e|].
    - destruct (is_EOF e); inversion Hk; by subst.
    - destruct (copy_loop fuel size dst0 src1 w)
        as [[[[r evs1] dst1] src2]|] eqn:Hl; [|discriminate Hk].
      apply IH in Hl as [Hacc1 Hout1]. inversion Hk; subst.
      split; [by apply accounted_app|].
      by rewrite Hout1, Hout, pump_bytes_app, app_assoc. }
  destruct (0 <? blen data).
  - destruct (conn_Write dst data) as [[nw ew] dst1] eqn:Hw.
    apply conn_Write_spec in Hw as (sent & -> & Hout).
    rewrite Hout, drop_app_length in H.
    pose proof (accounted_block sent) as Hblock.
    pose proof (pump_bytes_block sent (blen sent)) as Hbytes.
    destruct ew as [e|].
    + inversion H; subst. split; [done|]. by rewrite Hbytes.
    + destruct (negb (blen data =? blen sent)).
      * inversion H; subst. split; [done|]. by rewrite Hbytes.
      * eapply Hcont; [exact Hblock| |exact H]. by rewrite Hbytes.
  - eapply Hcont; [constructor| |exact H]. simpl. by rewrite app_nil_r.
Qed.

Lemma conn_Read_frame (c : Conn) (size : nat) (data : list byte)
    (er : option ioerr) (c' : Conn) :
  conn_Read c size = (data, er, c') ->
  outbox c' = outbox c /\ wscript c' = wscript c.
Proof.
  unfold conn_Read. destruct (inbox c) as [|r rest]; [by inversion 1; subst|].
  destruct (drop size (r_data r)); by inversion 1; subst.
Qed.

(** A copy reads from its source only: what has been written to the
    source is left alone. *)
Lemma copy_loop_frame (fuel size : nat) (dst src : Conn) (written : Z)
    (res : Z * option ioerr) (evs : list PumpEvent) (dst' src' : Conn) :
  copy_loop fuel size dst src written = Some (res, evs, dst', src') ->
  outbox src' = outbox src /\ wscript src' = wscript src.
Proof.
  revert dst src written res evs dst' src'.
  induction fuel as [|fuel IH]; intros dst src written res evs dst' src' H;
    [discriminate H|].
  simpl in H. destruct (conn_Read src size) as [[data er] src1] eqn:Hr.
  apply conn_Read_frame in Hr as [<- <-].
  assert (forall w evs0 dst0,
            match er with
            | Some e =>
                if is_EOF e then Some (w, None, evs0, dst0, src1)
                else Some (w, Some e, evs0, dst0, src1)
            | None =>
                match copy_loop fuel size dst0 src1 w with
                | Some (r, evs', dst', src') => Some (r, evs0 ++ evs', dst', src')
                | None => None
                end
            end = Some (res, evs, dst', src') ->
            outbox src' = outbox src1 /\ wscript src' = wscript src1) as Hcont.
  { intros w evs0 dst0 Hk. destruct er as [e|].
    - destruct (is_EOF e); inversion Hk; by subst.
    - destruct (copy_loop fuel size dst0 src1 w)
        as [[[[r evs1] dst1] src2]|] eqn:Hl; [|discriminate Hk].
      apply IH in Hl. inversion Hk; by subst. }
  destruct (0 <? blen data); [|exact (Hcont written [] dst H)].
  destruct (conn_Write dst data) as [[nw ew] dst1].
  destruct ew; [inversion H; by subst|].
  destruct (negb (blen data =? nw)); [inversion H; by subst|].
  exact (Hcont _ (PWrite _ :: (if 0 <? nw then [PCallback nw] else [])) _ H).
Qed.

Lemma accounted_prefix (evs : list PumpEvent) (k : nat) :
  accounted evs -> pump_reported (take k evs) <= pump_delivered (take k evs).
Proof.
  intros H. revert k. induction H as [|bs evs Hpos H IH|evs H IH]; intros k.
  - by rewrite take_nil.
  - destruct k as [|[|k]]; simpl; [lia|lia|]. specialize (IH k). lia.
  - destruct k as [|k]; simpl; [lia|]. specialize (IH k). unfold blen. simpl. lia.
Qed.

Lemma accounted_total (evs : list PumpEvent) :
  accounted evs ->
  pump_reported evs = pump_delivered evs /\
  pump_delivered evs = blen (pump_bytes evs).
Proof.
  induction 1 as [|bs evs Hpos H [IH1 IH2]|evs H [IH1 IH2]]; simpl.
  - done.
  - unfold blen in *. rewrite length_app. lia.
  - unfold blen in *. simpl. lia.
Qed.

Lemma accounted_callbacks_positive (evs : list PumpEvent) :
  accounted evs ->
  Forall (fun e => match e with PCallback n => 0 < n | PWrite _ => True end) evs.
Proof. induction 1; repeat constructor; auto. Qed.

(** The loop is over before its fuel is: a pass that goes on has read
    a segment, or a buffer's worth of one. *)
Lemma conn_Read_weight (src : Conn) (size : nat) (data : list byte)
    (src' : Conn) :
  (0 < size)%nat -> conn_Read src size = (data, None, src') ->
  (inbox_weight src' < inbox_weight src)%nat.
Proof.
  intros Hsize. unfold conn_Read, inbox_weight.
  destruct (inbox src) as [|r rest]; [discriminate|].
  destruct (drop size (r_data r)) as [|b pending] eqn:Hdrop; intros H;
    inversion H; subst; simpl; [lia|].
  assert (length (drop size (r_data r)) = S (length pending)) as Hlen
    by (by rewrite Hdrop).
  rewrite length_drop in Hlen. lia.
Qed.

Lemma copy_loop_terminates (size fuel : nat) (dst src : Conn) (written : Z) :
  (0 < size)%nat -> (inbox_weight src < fuel)%nat ->
  is_Some (copy_loop fuel size dst src written).
Proof.
  intros Hsize. revert dst src written.
  induction fuel as [|fuel IH]; intros dst src written Hfuel; [lia|].
  simpl. destruct (conn_Read src size) as [[data er] src1] eqn:Hr.
  assert (forall w evs d,
            is_Some
              match er with
              | Some e =>
                  if is_EOF e then Some (w, None, evs, d, src1)
                  else Some (w, Some e, evs, d, src1)
              | None =>
                  match copy_loop fuel size d src1 w with
                  | Some (r, evs', dst', src') => Some (r, evs ++ evs', dst', src')
                  | None => None
                  end
              end) as Hcont.
  { intros w evs d. destruct er as [e|]; [by destruct (is_EOF e)|].
    apply conn_Read_weight in Hr; [|done].
    destruct (IH d src1 w) as [[[[r evs1] d1] s1] ->]; [lia|done]. }
  destruct (0 <? blen data); [|apply Hcont].
  destruct (conn_Write dst data) as [[nw ew] dst1].
  destruct ew; [done|]. destruct (negb (blen data =? nw)); [done|].
  apply Hcont.
Qed.

(** [copyWithStats] is the copy loop run to its end. *)
Lemma copyWithStats_loop (dst src : Conn) :
  copy_loop (S (inbox_weight src)) bufsize dst src 0
  = Some (copyWithStats dst src).
Proof.
  unfold copyWithStats.
  destruct (copy_loop_terminates bufsize (S (inbox_weight src)) dst src 0)
    as [r ->]; [unfold bufsize; lia|lia|done].
Qed.

Lemma copyWithStats_accounted (dst src : Conn) (res : Z * option ioerr)
    (evs : list PumpEvent) (dst' src' : Conn) :
  copyWithStats dst src = (res, evs, dst', src') ->
  accounted evs /\ outbox dst' = outbox dst ++ pump_bytes evs /\
  outbox src' = outbox src.
Proof.
  intros H. pose proof (copyWithStats_loop dst src) as Hl. rewrite H in Hl.
  pose proof (copy_loop_accounted _ _ _ _ _ _ _ _ _ Hl) as [Ha Ho].
  apply copy_loop_frame in Hl as [Hs _]. done.
Qed.

End Pump.

(** ** Schedules *)

Section Interleaving.

Context {E : Type}.
Implicit Types (sched : list (nat * Z)) (tasks : list (list E)) (w : E -> Z).

Lemma interleave_app sched1 sched2 tasks :
  interleave (sched1 ++ sched2) tasks
  = interleave sched1 tasks ++ interleave sched2 (remaining sched1 tasks).
Proof.
  revert tasks. induction sched1 as [|[i now] sched1 IH]; intros tasks; [done|].
  simpl. destruct (tasks !! i) as [[|e rest]|]; simpl; by rewrite IH.
Qed.

Lemma total_cons (f : E -> Z) (e : E) (l : list E) :
  total f (e :: l) = f e + total f l.
Proof. reflexivity. Qed.

Lemma total_app (f : E -> Z) (l1 l2 : list E) :
  total f (l1 ++ l2) = total f l1 + total f l2.
Proof.
  induction l1 as [|e l1 IH]; [done|].
  rewrite <- app_comm_cons, !total_cons, IH. lia.
Qed.

Lemma zsum_insert (l : list Z) (i : nat) (x y : Z) :
  l !! i = Some y -> zsum (<[i := x]> l) = zsum l - y + x.
Proof.
  revert i. induction l as [|z l IH]; intros i H; [done|].
  destruct i as [|i]; simpl in *.
  - injection H as ->. lia.
  - rewrite (IH i H). lia.
Qed.

Lemma zsum_nonneg (l : list Z) : Forall (fun c => 0 <= c) l -> 0 <= zsum l.
Proof. induction 1; simpl; lia. Qed.

(** When every task keeps its own prefixes at or above zero, so does
    every interleaving of the tasks. *)
Lemma interleave_prefix_nonneg w sched tasks (credits : list Z) :
  Forall2 (fun c t => 0 <= c /\ prefix_nonneg w c t = true) credits tasks ->
  0 <= zsum credits + total w (snd <$> interleave sched tasks).
Proof.
  revert tasks credits.
  induction sched as [|[i now] sched IH]; intros tasks credits H.
  - simpl. rewrite Z.add_0_r. apply zsum_nonneg.
    induction H as [|c t cs ts [Hc _] _ IHf]; constructor; auto.
  - simpl. destruct (tasks !! i) as [[|e rest]|] eqn:Hi; try by apply IH.
    destruct (Forall2_lookup_r _ _ _ _ _ H Hi) as (c & Hc & Hc0 & Hpre).
    simpl in Hpre. apply andb_prop in Hpre as [Hstep Hrest].
    apply Z.leb_le in Hstep.
    assert (Forall2 (fun c t => 0 <= c /\ prefix_nonneg w c t = true)
              (<[i := c + w e]> credits) (<[i := rest]> tasks)) as H'
      by (by apply Forall2_insert).
    specialize (IH _ _ H'). rewrite (zsum_insert _ _ _ _ Hc) in IH.
    rewrite fmap_cons, total_cons. cbn [snd]. lia.
Qed.

End Interleaving.

Section PumpTasks.

Lemma prefix_nonneg_app {E : Type} (w : E -> Z) (c : Z) (t1 t2 : list E) :
  prefix_nonneg w c (t1 ++ t2)
  = prefix_nonneg w c t1 && prefix_nonneg w (c + total w t1) t2.
Proof.
  revert c. induction t1 as [|e t1 IH]; intros c; simpl.
  - by rewrite Z.add_0_r.
  - rewrite IH, Z.add_assoc. by rewrite andb_assoc.
Qed.

Lemma pump_events_nonneg (d d' : Direction) (evs : list PumpEvent) (c : Z) :
  accounted evs -> 0 <= c ->
  let task := map (fun e => match e with
                            | PWrite bs => EvWrite d' bs
                            | PCallback n => EvStat (statsCallback d' n)
                            end) evs in
  prefix_nonneg (unaccounted d) c task = true /\
  total (unaccounted d) task = 0.
Proof.
  intros Hacc Hc. cbv zeta.
  induction Hacc as [|bs evs Hpos Hacc [IH1 IH2]|evs Hacc [IH1 IH2]].
  - done.
  - cbn [map prefix_nonneg]. rewrite !total_cons, IH2.
    assert (unaccounted d (EvWrite d' bs)
            + unaccounted d (EvStat (statsCallback d' (blen bs))) = 0
            /\ 0 <= unaccounted d (EvWrite d' bs)) as [Hsum Hge]
      by (destruct d, d'; unfold unaccounted; simpl; lia).
    split; [|lia].
    replace (c + unaccounted d (EvWrite d' bs)
             + unaccounted d (EvStat (statsCallback d' (blen bs)))) with c by lia.
    rewrite IH1, andb_true_r.
    apply andb_true_intro. split; apply Z.leb_le; lia.
  - cbn [map prefix_nonneg]. rewrite !total_cons, IH2.
    assert (unaccounted d (EvWrite d' []) = 0) as ->
      by (destruct d, d'; reflexivity).
    rewrite Z.add_0_r, IH1. split; [|lia].
    apply andb_true_intro. split; [apply Z.leb_le; lia|done].
Qed.

Lemma pump_task_nonneg (d d' : Direction) (res : Z * option ioerr)
    (evs : list PumpEvent) :
  accounted evs ->
  prefix_nonneg (unaccounted d) 0 (pump_task d' res evs) = true.
Proof.
  intros Hacc. unfold pump_task. rewrite prefix_nonneg_app.
  destruct (pump_events_nonneg d d' evs 0 Hacc) as [-> ->]; [lia|].
  destruct (snd res); [|done]. by destruct d.
Qed.

Lemma forwardData_tasks (conn1 conn2 : Conn) :
  exists r1 evs1 r2 evs2,
    fst (fst (forwardData conn1 conn2))
    = [pump_task Outbound r1 evs1; pump_task Inbound r2 evs2] /\
    accounted evs1 /\ accounted evs2 /\
    outbox (snd (forwardData conn1 conn2)) = outbox conn2 ++ pump_bytes evs1 /\
    outbox (snd (fst (forwardData conn1 conn2))) = outbox conn1 ++ pump_bytes evs2.
Proof.
  unfold forwardData.
  destruct (copyWithStats conn2 conn1) as [[[r1 evs1] c2] c1] eqn:H1.
  destruct (copyWithStats c1 c2) as [[[r2 evs2] c1'] c2'] eqn:H2.
  apply copyWithStats_accounted in H1 as (Ha1 & Ho1 & Hs1).
  apply copyWithStats_accounted in H2 as (Ha2 & Ho2 & Hs2).
  exists r1, evs1, r2, evs2. simpl. repeat split; try done.
  - by rewrite Hs2, Ho1.
  - by rewrite Ho2, Hs1.
Qed.

End PumpTasks.

Section Conservation.

Context {E : Type}.
Implicit Types (sched : list (nat * Z)) (tasks : list (list E)) (f : E -> Z).

Lemma total_insert {A : Type} (g : A -> Z) (l : list A) (i : nat) (x y : A) :
  l !! i = Some y -> total g (<[i := x]> l) = total g l - g y + g x.
Proof.
  revert i. induction l as [|z l IH]; intros i H; [done|].
  destruct i as [|i]; simpl in H.
  - injection H as ->. change (<[0%nat := x]> (y :: l)) with (x :: l).
    rewrite !total_cons. lia.
  - change (<[S i := x]> (z :: l)) with (z :: <[i := x]> l).
    rewrite !total_cons, (IH i H). lia.
Qed.

Lemma total_nonneg {A : Type} (g : A -> Z) (l : list A) :
  (forall a, 0 <= g a) -> 0 <= total g l.
Proof.
  intros Hg. induction l as [|a l IH]; [done|].
  rewrite total_cons. specialize (Hg a). lia.
Qed.

(** What has run and what is left add up to the tasks. *)
Lemma interleave_conservation f sched tasks :
  total f (snd <$> interleave sched tasks)
  + total (total f) (remaining sched tasks)
  = total (total f) tasks.
Proof.
  revert tasks. induction sched as [|[i now] sched IH]; intros tasks; [done|].
  simpl. destruct (tasks !! i) as [[|e rest]|] eqn:Hi; try apply IH.
  rewrite fmap_cons, total_cons. cbn [snd].
  specialize (IH (<[i := rest]> tasks)).
  rewrite (total_insert _ _ _ _ _ Hi), total_cons in IH. lia.
Qed.

Lemma interleave_total_le f sched tasks :
  (forall e, 0 <= f e) ->
  0 <= total f (snd <$> interleave sched tasks) <= total (total f) tasks.
Proof.
  intros Hf. pose proof (interleave_conservation f sched tasks).
  pose proof (total_nonneg (total f) (remaining sched tasks)
                (fun t => total_nonneg f t Hf)).
  pose proof (total_nonneg f (snd <$> interleave sched tasks) Hf). lia.
Qed.

End Conservation.

Section Recording.

Lemma wrap64_unfold (x : Z) :
  wrap64 x
  = (x + 9223372036854775808) mod 18446744073709551616 - 9223372036854775808.
Proof. reflexivity. Qed.

Lemma in_int64_unfold (x : Z) :
  in_int64 x <-> -9223372036854775808 <= x <= 9223372036854775807.
Proof. reflexivity. Qed.

Lemma wrap64_in_int64 (x : Z) : in_int64 (wrap64 x).
Proof.
  rewrite in_int64_unfold, wrap64_unfold.
  pose proof (Z.mod_pos_bound (x + 9223372036854775808) 18446744073709551616).
  lia.
Qed.

Lemma wrap64_id (x : Z) : in_int64 x -> wrap64 x = x.
Proof.
  rewrite in_int64_unfold, wrap64_unfold. intros H.
  rewrite Z.mod_small; lia.
Qed.

Lemma wrap64_add (a b : Z) : wrap64 (wrap64 a + b) = wrap64 (a + b).
Proof.
  rewrite !wrap64_unfold.
  replace ((a + 9223372036854775808) mod 18446744073709551616
           - 9223372036854775808 + b + 9223372036854775808)
    with ((a + 9223372036854775808) mod 18446744073709551616 + b) by lia.
  rewrite Zplus_mod_idemp_l. f_equal. f_equal. lia.
Qed.

Lemma apply_event_BytesSent (now : Z) (e : Event) (fs : ForwardingSession) :
  in_int64 (BytesSent (Stats fs)) ->
  BytesSent (Stats (apply_event now e fs))
  = wrap64 (BytesSent (Stats fs) + reported Outbound e).
Proof.
  intros H. destruct e as [[n|n| | |msg|msg]|d bs]; simpl;
    try reflexivity; rewrite Z.add_0_r, wrap64_id by done; try done.
  destruct (IsActive fs); simpl; done.
Qed.

Lemma apply_event_BytesReceived (now : Z) (e : Event) (fs : ForwardingSession) :
  in_int64 (BytesReceived (Stats fs)) ->
  BytesReceived (Stats (apply_event now e fs))
  = wrap64 (BytesReceived (Stats fs) + reported Inbound e).
Proof.
  intros H. destruct e as [[n|n| | |msg|msg]|d bs]; simpl;
    try reflexivity; rewrite Z.add_0_r, wrap64_id by done; try done.
  destruct (IsActive fs); simpl; done.
Qed.

(** What a session has recorded is what the callbacks reported. *)
Lemma run_trace_BytesSent (tr : list (Z * Event)) (fs : ForwardingSession) :
  in_int64 (BytesSent (Stats fs)) ->
  BytesSent (Stats (run_trace tr fs))
  = wrap64 (BytesSent (Stats fs) + total (reported Outbound) (snd <$> tr)).
Proof.
  revert fs. induction tr as [|[now e] tr IH]; intros fs H.
  - simpl. by rewrite Z.add_0_r, wrap64_id.
  - unfold run_trace. cbn [foldl fst snd]. fold (run_trace tr (apply_event now e fs)).
    rewrite IH, apply_event_BytesSent, wrap64_add, fmap_cons, total_cons; try done.
    + f_equal. cbn [snd]. lia.
    + rewrite apply_event_BytesSent by done. apply wrap64_in_int64.
Qed.

Lemma run_trace_BytesReceived (tr : list (Z * Event)) (fs : ForwardingSession) :
  in_int64 (BytesReceived (Stats fs)) ->
  BytesReceived (Stats (run_trace tr fs))
  = wrap64 (BytesReceived (Stats fs) + total (reported Inbound) (snd <$> tr)).
Proof.
  revert fs. induction tr as [|[now e] tr IH]; intros fs H.
  - simpl. by rewrite Z.add_0_r, wrap64_id.
  - unfold run_trace. cbn [foldl fst snd]. fold (run_trace tr (apply_event now e fs)).
    rewrite IH, apply_event_BytesReceived, wrap64_add, fmap_cons, total_cons;
      try done.
    + f_equal. cbn [snd]. lia.
    + rewrite apply_event_BytesReceived by done. apply wrap64_in_int64.
Qed.

Lemma pump_task_delivered (d d' : Direction) (res : Z * option ioerr)
    (evs : list PumpEvent) :
  total (delivered d) (pump_task d' res evs)
  = match d, d' with
    | Outbound, Outbound | Inbound, Inbound => pump_delivered evs
    | _, _ => 0
    end.
Proof.
  unfold pump_task. rewrite total_app.
  assert (total (delivered d)
            match snd res with
            | Some e =>
                [EvStat (OpIncrementErrorsIfActive (forward_error d' (fst res) e))]
            | None => []
            end = 0) as -> by (destruct (snd res); by destruct d).
  rewrite Z.add_0_r. induction evs as [|[bs|n] evs IH]; cbn [map pump_delivered].
  - by destruct d, d'.
  - rewrite total_cons, IH. destruct d, d'; simpl; lia.
  - rewrite total_cons, IH. destruct d, d'; simpl; lia.
Qed.

Lemma delivered_nonneg (d : Direction) (e : Event) : 0 <= delivered d e.
Proof. destruct d, e as [op|[] bs]; simpl; unfold blen; lia. Qed.

End Recording.

(** C5.  In each direction of a pump the callback is called after a write
    that put bytes on the destination, with their number, and at no other
    time.  So at every point of a copy, stopped there or not, the bytes
    reported do not exceed the bytes written, and at its end they are
    equal to the bytes the destination received.  The same holds of the
    two directions started by [forwardData] under every schedule, the one
    that is left running after the first is over included: what has been
    reported for a direction never exceeds what has been written to its
    destination, which never exceeds what that destination holds in the
    end.  What the session records in BytesSent and BytesReceived is the
    sum of what was reported, as a 64-bit integer. *)
Theorem pump_accounting_never_exceeds_written :
  (forall (dst src : Conn) (res : Z * option ioerr) (evs : list PumpEvent)
          (dst' src' : Conn),
     copyWithStats dst src = (res, evs, dst', src') ->
     outbox dst' = outbox dst ++ pump_bytes evs /\
     pump_reported evs = blen (pump_bytes evs) /\
     forall k : nat,
       pump_reported (take k evs) <= pump_delivered (take k evs) /\
       pump_delivered (take k evs) = blen (pump_bytes (take k evs)) /\
       pump_delivered (take k evs) <= blen (pump_bytes evs)) /\
  (forall (conn1 conn2 : Conn) (sched : list (nat * Z)) (d : Direction),
     total (reported d)
       (snd <$> interleave sched (fst (fst (forwardData conn1 conn2))))
     <= total (delivered d)
          (snd <$> interleave sched (fst (fst (forwardData conn1 conn2))))) /\
  (forall (conn1 conn2 : Conn) (sched : list (nat * Z)),
     total (delivered Outbound)
       (snd <$> interleave sched (fst (fst (forwardData conn1 conn2))))
     <= blen (outbox (snd (forwardData conn1 conn2))) - blen (outbox conn2) /\
     total (delivered Inbound)
       (snd <$> interleave sched (fst (fst (forwardData conn1 conn2))))
     <= blen (outbox (snd (fst (forwardData conn1 conn2)))) - blen (outbox conn1)) /\
  (forall (conn1 conn2 : Conn) (sched : list (nat * Z)) (fs : ForwardingSession),
     in_int64 (BytesSent (Stats fs)) -> in_int64 (BytesReceived (Stats fs)) ->
     BytesSent (Stats (run sched (fst (fst (forwardData conn1 conn2))) fs))
     = wrap64 (BytesSent (Stats fs)
               + total (reported Outbound)
                   (snd <$> interleave sched (fst (fst (forwardData conn1 conn2)))))
     /\
     BytesReceived (Stats (run sched (fst (fst (forwardData conn1 conn2))) fs))
     = wrap64 (BytesReceived (Stats fs)
               + total (reported Inbound)
                   (snd <$> interleave sched (fst (fst (forwardData conn1 conn2)))))).
Proof.
  assert (forall evs, pump_delivered evs = blen (pump_bytes evs)) as Hdel.
  { induction evs as [|[bs|n] evs IH]; simpl; [done| |done].
    unfold blen in *. rewrite length_app. lia. }
  split; [|split; [|split]].
  - intros dst src res evs dst' src' H.
    apply copyWithStats_accounted in H as (Hacc & Hout & _).
    split; [done|]. split; [by destruct (accounted_total evs Hacc) as [-> ->]|].
    intros k. split; [by apply accounted_prefix|]. split; [apply Hdel|].
    rewrite Hdel. rewrite <- (take_drop k evs) at 2.
    rewrite pump_bytes_app. unfold blen. rewrite length_app. lia.
  - intros conn1 conn2 sched d.
    destruct (forwardData_tasks conn1 conn2)
      as (r1 & evs1 & r2 & evs2 & -> & Ha1 & Ha2 & _).
    pose proof (interleave_prefix_nonneg (unaccounted d) sched
                  [pump_task Outbound r1 evs1; pump_task Inbound r2 evs2] [0; 0])
      as H.
    assert (forall tr, total (unaccounted d) tr
                       = total (delivered d) tr - total (reported d) tr) as Hsplit.
    { induction tr as [|e tr IH]; [done|].
      rewrite !total_cons, IH. unfold unaccounted. lia. }
    rewrite Hsplit in H. unfold zsum in H. simpl in H.
    assert (forall a b : Z, 0 <= a - b -> b <= a) as Hle by (intros; lia).
    apply Hle, H.
    constructor; [split; [lia | by apply pump_task_nonneg]|].
    constructor; [split; [lia | by apply pump_task_nonneg]|].
    constructor.
  - intros conn1 conn2 sched.
    destruct (forwardData_tasks conn1 conn2)
      as (r1 & evs1 & r2 & evs2 & -> & Ha1 & Ha2 & -> & ->).
    unfold blen. rewrite !length_app.
    pose proof (interleave_total_le (delivered Outbound) sched
                  [pump_task Outbound r1 evs1; pump_task Inbound r2 evs2]
                  (delivered_nonneg Outbound)) as H1.
    pose proof (interleave_total_le (delivered Inbound) sched
                  [pump_task Outbound r1 evs1; pump_task Inbound r2 evs2]
                  (delivered_nonneg Inbound)) as H2.
    rewrite !total_cons, !pump_task_delivered, !Hdel in H1, H2.
    unfold blen in H1, H2. simpl in H1, H2. lia.
  - intros conn1 conn2 sched fs Hs Hr. unfold run.
    by rewrite run_trace_BytesSent, run_trace_BytesReceived.
Qed.

Lemma pump_accounting_never_exceeds_written_witness :
  pump_reported (snd (fst (fst (copyWithStats Scenario.upstream Scenario.downstream))))
  = 3 /\
  BytesSent
    (Stats (run [(0%nat, 1); (1%nat, 2); (0%nat, 3); (1%nat, 4)]
              (fst (fst (forwardData Scenario.downstream Scenario.upstream)))
              Scenario.session_a))
  = 2.
Proof.
  destruct pump_accounting_never_exceeds_written as (Hcopy & _ & _ & Hrec).
  split.
  - destruct (Hcopy Scenario.upstream Scenario.downstream
                (3, Some io_ErrShortWrite)
                [PWrite [x01; x02]; PCallback 2; PWrite [x03]; PCallback 1]
                (mkConn [mkRead [x0a; x0b; x0c] (Some io_EOF)] [] [x01; x02; x03])
                (mkConn [mkRead [x05] None] [] []))
      as (_ & H & _).
    + vm_compute; reflexivity.
    + vm_compute; reflexivity.
  - destruct (Hrec Scenario.downstream Scenario.upstream
                [(0%nat, 1); (1%nat, 2); (0%nat, 3); (1%nat, 4)]
                Scenario.session_a) as [H _].
    + vm_compute; split; discriminate.
    + vm_compute; split; discriminate.
    + rewrite H. vm_compute; reflexivity.
Defined.

(** ** The statistics of a session under concurrent handlers *)

Section Statistics.

Implicit Types (fs : ForwardingSession) (tr : list (Z * Event))
  (tasks : list (list Event)) (sched : list (nat * Z)).

Lemma run_trace_app tr1 tr2 fs :
  run_trace (tr1 ++ tr2) fs = run_trace tr2 (run_trace tr1 fs).
Proof. unfold run_trace. apply foldl_app. Qed.

Lemma run_trace_cons (now : Z) (e : Event) tr fs :
  run_trace ((now, e) :: tr) fs = run_trace tr (apply_event now e fs).
Proof. reflexivity. Qed.

Lemma apply_event_ConnectionCount (now : Z) (e : Event) fs :
  in_int64 (ConnectionCount (Stats fs)) ->
  ConnectionCount (Stats (apply_event now e fs))
  = wrap64 (ConnectionCount (Stats fs) + conns_of e).
Proof.
  intros H. destruct e as [[n|n| | |msg|msg]|d bs]; simpl;
    try reflexivity; rewrite Z.add_0_r, wrap64_id by done; try done.
  destruct (IsActive fs); simpl; done.
Qed.

Lemma apply_event_ActiveConnections (now : Z) (e : Event) fs :
  in_int64 (ActiveConnections (Stats fs)) ->
  ActiveConnections (Stats (apply_event now e fs))
  = wrap64 (ActiveConnections (Stats fs) + delta e).
Proof.
  intros H. destruct e as [[n|n| | |msg|msg]|d bs]; simpl;
    try reflexivity; rewrite Z.add_0_r, wrap64_id by done; try done.
  destruct (IsActive fs); simpl; done.
Qed.

Lemma run_trace_ConnectionCount tr fs :
  in_int64 (ConnectionCount (Stats fs)) ->
  ConnectionCount (Stats (run_trace tr fs))
  = wrap64 (ConnectionCount (Stats fs) + total conns_of (snd <$> tr)).
Proof.
  revert fs. induction tr as [|[now e] tr IH]; intros fs H.
  - simpl. by rewrite Z.add_0_r, wrap64_id.
  - rewrite run_trace_cons, IH, apply_event_ConnectionCount, wrap64_add,
      fmap_cons, total_cons; try done.
    + f_equal. cbn [snd]. lia.
    + rewrite apply_event_ConnectionCount by done. apply wrap64_in_int64.
Qed.

Lemma run_trace_ActiveConnections tr fs :
  in_int64 (ActiveConnections (Stats fs)) ->
  ActiveConnections (Stats (run_trace tr fs))
  = wrap64 (ActiveConnections (Stats fs) + total delta (snd <$> tr)).
Proof.
  revert fs. induction tr as [|[now e] tr IH]; intros fs H.
  - simpl. by rewrite Z.add_0_r, wrap64_id.
  - rewrite run_trace_cons, IH, apply_event_ActiveConnections, wrap64_add,
      fmap_cons, total_cons; try done.
    + f_equal. cbn [snd]. lia.
    + rewrite apply_event_ActiveConnections by done. apply wrap64_in_int64.
Qed.

(** The error counter: an error recorded only while the session is
    active may or may not count. *)
Lemma run_trace_ErrorCount tr fs :
  0 <= ErrorCount (Stats fs) ->
  ErrorCount (Stats fs) + total errors_of (snd <$> tr) <= maxInt ->
  ErrorCount (Stats fs) <= ErrorCount (Stats (run_trace tr fs))
  <= ErrorCount (Stats fs) + total errors_of (snd <$> tr).
Proof.
  revert fs. induction tr as [|[now e] tr IH]; intros fs H0 Hmax.
  - simpl. lia.
  - rewrite fmap_cons, total_cons in Hmax |- *. cbn [snd] in Hmax |- *.
    rewrite run_trace_cons.
    assert (0 <= total errors_of (snd <$> tr)) as Hpos
      by (apply total_nonneg; intros [[]|]; simpl; lia).
    assert (ErrorCount (Stats fs) <= ErrorCount (Stats (apply_event now e fs))
            <= ErrorCount (Stats fs) + errors_of e) as Hstep.
    { assert (errors_of e = 1 -> AddInt64 (ErrorCount (Stats fs)) 1
                                 = ErrorCount (Stats fs) + 1) as Hinc.
      { intros He. unfold AddInt64. apply wrap64_id. rewrite in_int64_unfold.
        change maxInt with 9223372036854775807 in Hmax. lia. }
      destruct e as [[n|n| | |msg|msg]|d bs]; simpl; try lia.
      - rewrite Hinc by done. lia.
      - destruct (IsActive fs); simpl; [rewrite Hinc by done|]; lia. }
    specialize (IH (apply_event now e fs)). lia.
Qed.

Lemma reported_nonneg (d : Direction) (e : Event) :
  counts_bytes e = true -> 0 <= reported d e.
Proof.
  destruct d, e as [[n|n| | |msg|msg]|d' bs]; simpl; try lia;
    intros H%Z.leb_le; lia.
Qed.

Lemma total_nonneg_Forall {A : Type} (g : A -> Z) (l : list A) :
  Forall (fun a => 0 <= g a) l -> 0 <= total g l.
Proof. induction 1; [done|]. rewrite total_cons. lia. Qed.

Lemma total_le_pointwise {A : Type} (g h : A -> Z) (l : list A) :
  (forall a, g a <= h a) -> total g l <= total h l.
Proof.
  intros Hgh. induction l as [|a l IH]; [done|].
  rewrite !total_cons. specialize (Hgh a). lia.
Qed.

Lemma remaining_Forall (P : Event -> Prop) sched tasks :
  Forall (Forall P) tasks -> Forall (Forall P) (remaining sched tasks).
Proof.
  revert tasks. induction sched as [|[i now] sched IH]; intros tasks H; [done|].
  simpl. destruct (tasks !! i) as [[|e rest]|] eqn:Hi; try by apply IH.
  apply IH, Forall_insert; [done|].
  pose proof (Forall_lookup_1 _ _ _ _ H Hi) as He. by inversion He.
Qed.

Lemma interleave_Forall (P : Event -> Prop) sched tasks :
  Forall (Forall P) tasks -> Forall P (snd <$> interleave sched tasks).
Proof.
  revert tasks. induction sched as [|[i now] sched IH]; intros tasks H;
    [constructor|].
  simpl. destruct (tasks !! i) as [[|e rest]|] eqn:Hi; try by apply IH.
  pose proof (Forall_lookup_1 _ _ _ _ H Hi) as He. inversion He; subst.
  rewrite fmap_cons. constructor; [done|].
  apply IH, Forall_insert; done.
Qed.

(** What runs of a direction's accounting is at most what the tasks
    hold of it. *)
Lemma interleave_reported_le (d : Direction) sched tasks :
  Forall (Forall (fun e => counts_bytes e = true)) tasks ->
  0 <= total (reported d) (snd <$> interleave sched tasks)
  <= total (total (reported d)) tasks.
Proof.
  intros H. pose proof (interleave_conservation (reported d) sched tasks).
  assert (0 <= total (total (reported d)) (remaining sched tasks)).
  { apply total_nonneg_Forall.
    eapply Forall_impl; [apply (remaining_Forall _ sched _ H)|].
    intros t Ht. apply total_nonneg_Forall.
    eapply Forall_impl; [exact Ht|]. intros e. apply reported_nonneg. }
  assert (0 <= total (reported d) (snd <$> interleave sched tasks)).
  { apply total_nonneg_Forall.
    eapply Forall_impl; [apply (interleave_Forall _ sched _ H)|].
    intros e. apply reported_nonneg. }
  lia.
Qed.

End Statistics.

Section Handlers.

Lemma prefix_nonneg_zero {E : Type} (w : E -> Z) (c : Z) (t : list E) :
  0 <= c -> Forall (fun e => w e = 0) t -> prefix_nonneg w c t = true.
Proof.
  intros Hc H. induction H as [|e t He _ IH]; [done|].
  simpl. rewrite He, Z.add_0_r, IH. by apply andb_true_intro, conj, eq_refl;
    apply Z.leb_le.
Qed.

(** A direction of a pump neither opens nor closes a connection, and
    accounts positive byte counts only. *)
Lemma pump_task_disciplined (d : Direction) (res : Z * option ioerr)
    (evs : list PumpEvent) :
  accounted evs ->
  balanced 0 (pump_task d res evs) = true /\
  Forall (fun e => counts_bytes e = true) (pump_task d res evs).
Proof.
  intros Hacc. apply accounted_callbacks_positive in Hacc.
  assert (Forall (fun e => delta e = 0 /\ counts_bytes e = true)
            (pump_task d res evs)) as H.
  { unfold pump_task. apply Forall_app. split.
    - induction Hacc as [|[bs|n] evs Hn _ IH]; [constructor| |];
        cbn [map]; constructor; try done.
      destruct d; simpl; (split; [done|]); apply Z.leb_le; lia.
    - destruct (snd res); by repeat constructor. }
  split.
  - apply prefix_nonneg_zero; [done|].
    eapply Forall_impl; [exact H|]. by intros e [? _].
  - eapply Forall_impl; [exact H|]. by intros e [_ ?].
Qed.

Lemma forwardData_disciplined (conn1 conn2 : Conn) :
  Forall disciplined (fst (fst (forwardData conn1 conn2))).
Proof.
  destruct (forwardData_tasks conn1 conn2)
    as (r1 & evs1 & r2 & evs2 & -> & Ha1 & Ha2 & _).
  repeat constructor; by apply pump_task_disciplined.
Qed.

Lemma handleLocalForwardConnection_disciplined (env : Env) (sshClient : client)
    (localConn : Conn) (remoteHost : string) (remotePort : Z) :
  Forall disciplined
    (fst (handleLocalForwardConnection env sshClient localConn remoteHost
            remotePort)).
Proof.
  unfold handleLocalForwardConnection.
  destruct (client_Dial env sshClient _) as [remoteConn|e].
  - pose proof (forwardData_disciplined localConn remoteConn) as H.
    destruct (forwardData localConn remoteConn) as [[pumps c1] c2].
    simpl in *. constructor; [|done]. by repeat constructor.
  - by repeat constructor.
Qed.

Lemma handleRemoteForwardConnection_disciplined (env : Env) (remoteConn : Conn)
    (localHost : string) (localPort : Z) :
  Forall disciplined
    (fst (handleRemoteForwardConnection env remoteConn localHost localPort)).
Proof.
  unfold handleRemoteForwardConnection.
  destruct (net_Dial env _) as [localConn|e].
  - pose proof (forwardData_disciplined localConn remoteConn) as H.
    destruct (forwardData localConn remoteConn) as [[pumps c1] c2].
    simpl in *. constructor; [|done]. by repeat constructor.
  - by repeat constructor.
Qed.

Lemma handleSOCKS5Connection_disciplined (env : Env) (sshClient : client)
    (localConn : Conn) :
  Forall disciplined (fst (handleSOCKS5Connection env sshClient localConn)).
Proof.
  unfold handleSOCKS5Connection.
  destruct (socks5Handshake localConn) as [[targetAddr|e] conn1];
    [|by repeat constructor].
  destruct (client_Dial env sshClient targetAddr) as [remoteConn|e].
  - destruct (conn_Write conn1 socks5_success_reply) as [[nw ew] conn2].
    pose proof (forwardData_disciplined conn2 remoteConn) as H.
    destruct (forwardData conn2 remoteConn) as [[pumps c1] c2].
    simpl in *. constructor; [|done]. by repeat constructor.
  - destruct (conn_Write conn1 socks5_failure_reply) as [[nw ew] conn2].
    by repeat constructor.
Qed.

(** Tasks that start with no increment of their own run with credit 0. *)
Lemma disciplined_credits (tasks : list (list Event)) :
  Forall disciplined tasks ->
  Forall2 (fun c t => 0 <= c /\ balanced c t = true)
    (replicate (length tasks) 0) tasks /\
  Forall (Forall (fun e => counts_bytes e = true)) tasks /\
  zsum (replicate (length tasks) 0) = 0.
Proof.
  induction 1 as [|t tasks [Hb Hc] _ (IH1 & IH2 & IH3)]; simpl.
  - repeat split; constructor.
  - repeat split; try (constructor; done). unfold zsum in *. simpl. lia.
Qed.

End Handlers.

(** C8.  The tasks of a session run under any schedule.  Each task is
    balanced: it never decrements the active connections more often than
    it has incremented them ([credits] are the increments the tasks under
    way have made before, and the session counts at least those).  The
    byte counts accounted are not negative, and the counters stay within
    64 bits.  Then between any point of the run and any later point
    BytesReceived, BytesSent, ConnectionCount and ErrorCount do not
    decrease, and at every point ActiveConnections is not negative.  In
    particular this holds of tasks that start with no increment of their
    own, on any session whose ActiveConnections is not negative; and the
    tasks of the three connection handlers, the directions of their pumps
    included, are such tasks: balanced, accounting positive byte counts
    only. *)
Theorem stats_monotone_active_nonneg :
  (forall (tasks : list (list Event)) (credits : list Z)
          (sched1 sched2 : list (nat * Z)) (fs : ForwardingSession),
     Forall2 (fun c t => 0 <= c /\ balanced c t = true) credits tasks ->
     Forall (Forall (fun e => counts_bytes e = true)) tasks ->
     counters_nonneg fs ->
     zsum credits <= ActiveConnections (Stats fs) ->
     within_int64 fs tasks ->
     stats_le fs (run sched1 tasks fs) /\
     stats_le (run sched1 tasks fs) (run (sched1 ++ sched2) tasks fs) /\
     0 <= ActiveConnections (Stats (run sched1 tasks fs))) /\
  (forall (tasks : list (list Event)) (sched1 sched2 : list (nat * Z))
          (fs : ForwardingSession),
     Forall disciplined tasks ->
     counters_nonneg fs -> 0 <= ActiveConnections (Stats fs) ->
     within_int64 fs tasks ->
     stats_le fs (run sched1 tasks fs) /\
     stats_le (run sched1 tasks fs) (run (sched1 ++ sched2) tasks fs) /\
     0 <= ActiveConnections (Stats (run sched1 tasks fs))) /\
  (forall (env : Env) (sshClient : client) (conn : Conn) (host : string)
          (port : Z),
     Forall disciplined
       (fst (handleLocalForwardConnection env sshClient conn host port)) /\
     Forall disciplined
       (fst (handleRemoteForwardConnection env conn host port)) /\
     Forall disciplined (fst (handleSOCKS5Connection env sshClient conn))).
Proof.
  assert (forall (tasks : list (list Event)) (credits : list Z)
                 (sched1 sched2 : list (nat * Z)) (fs : ForwardingSession),
            Forall2 (fun c t => 0 <= c /\ balanced c t = true) credits tasks ->
            Forall (Forall (fun e => counts_bytes e = true)) tasks ->
            counters_nonneg fs ->
            zsum credits <= ActiveConnections (Stats fs) ->
            within_int64 fs tasks ->
            stats_le fs (run sched1 tasks fs) /\
            stats_le (run sched1 tasks fs) (run (sched1 ++ sched2) tasks fs) /\
            0 <= ActiveConnections (Stats (run sched1 tasks fs))) as Hmain.
  2: { split; [exact Hmain|]. split.
       - intros tasks sched1 sched2 fs Hd Hnn Ha Hw.
         destruct (disciplined_credits tasks Hd) as (Hb & Hc & Hz).
         apply (Hmain tasks (replicate (length tasks) 0)); try done.
         by rewrite Hz.
       - intros. split; [apply handleLocalForwardConnection_disciplined|].
         split; [apply handleRemoteForwardConnection_disciplined
                |apply handleSOCKS5Connection_disciplined]. }
  intros tasks credits sched1 sched2 fs Hbal Hbytes Hnn Hcred Hw.
  unfold run. rewrite interleave_app, run_trace_app.
  set (tr1 := interleave sched1 tasks).
  set (tr2 := interleave sched2 (remaining sched1 tasks)).
  destruct Hnn as (Hr0 & Hs0 & Hc0 & He0).
  destruct Hw as (Hrmax & Hsmax & Hcmax & Hamax & Hemax).
  unfold total_tasks in *. change maxInt with 9223372036854775807 in *.
  (* what the two parts of the trace hold, against what the tasks hold *)
  assert (forall d, 0 <= total (reported d) (snd <$> tr1) /\
                    0 <= total (reported d) (snd <$> tr2) /\
                    total (reported d) (snd <$> tr1)
                    + total (reported d) (snd <$> tr2)
                    <= total (total (reported d)) tasks) as Hrep.
  { intros d.
    pose proof (interleave_reported_le d (sched1 ++ sched2) tasks Hbytes) as H.
    rewrite interleave_app, fmap_app, total_app in H.
    pose proof (interleave_reported_le d sched1 tasks Hbytes).
    pose proof (interleave_reported_le d sched2 (remaining sched1 tasks)
                  (remaining_Forall _ sched1 _ Hbytes)).
    subst tr1 tr2. lia. }
  assert (forall f : Event -> Z, (forall e, 0 <= f e) ->
            0 <= total f (snd <$> tr1) /\ 0 <= total f (snd <$> tr2) /\
            total f (snd <$> tr1) + total f (snd <$> tr2)
            <= total (total f) tasks) as Hany.
  { intros f Hf.
    pose proof (interleave_total_le f (sched1 ++ sched2) tasks Hf) as H.
    rewrite interleave_app, fmap_app, total_app in H.
    pose proof (interleave_total_le f sched1 tasks Hf).
    pose proof (interleave_total_le f sched2 (remaining sched1 tasks) Hf).
    subst tr1 tr2. lia. }
  destruct (Hrep Inbound) as (Hi1 & Hi2 & Hi3).
  destruct (Hrep Outbound) as (Ho1 & Ho2 & Ho3).
  destruct (Hany conns_of) as (Hc1 & Hc2 & Hc3); [by intros [[]|]|].
  destruct (Hany errors_of) as (He1 & He2 & He3); [by intros [[]|]|].
  (* the counters after the first part *)
  assert (BytesReceived (Stats (run_trace tr1 fs))
          = BytesReceived (Stats fs) + total (reported Inbound) (snd <$> tr1))
    as Hr1.
  { rewrite run_trace_BytesReceived by (rewrite in_int64_unfold; lia).
    apply wrap64_id. rewrite in_int64_unfold. lia. }
  assert (BytesSent (Stats (run_trace tr1 fs))
          = BytesSent (Stats fs) + total (reported Outbound) (snd <$> tr1))
    as Hs1.
  { rewrite run_trace_BytesSent by (rewrite in_int64_unfold; lia).
    apply wrap64_id. rewrite in_int64_unfold. lia. }
  assert (ConnectionCount (Stats (run_trace tr1 fs))
          = ConnectionCount (Stats fs) + total conns_of (snd <$> tr1)) as Hcc1.
  { rewrite run_trace_ConnectionCount by (rewrite in_int64_unfold; lia).
    apply wrap64_id. rewrite in_int64_unfold. lia. }
  pose proof (run_trace_ErrorCount tr1 fs He0) as Hec1.
  change maxInt with 9223372036854775807 in Hec1.
  specialize (Hec1 ltac:(lia)).
  (* the active connections *)
  assert (0 <= zsum credits) as Hcr0.
  { apply zsum_nonneg. clear -Hbal.
    induction Hbal as [|c t cs ts [Hc _] _ IH]; constructor; auto. }
  assert (ActiveConnections (Stats (run_trace tr1 fs))
          = ActiveConnections (Stats fs) + total delta (snd <$> tr1)
          /\ 0 <= zsum credits + total delta (snd <$> tr1)) as [Ha1 Hpair].
  { pose proof (interleave_prefix_nonneg delta sched1 tasks credits Hbal) as Hp.
    change (interleave sched1 tasks) with tr1 in Hp.
    pose proof (total_le_pointwise delta conns_of (snd <$> tr1)) as Hle.
    specialize (Hle ltac:(by intros [[]|])).
    split; [|done].
    rewrite run_trace_ActiveConnections by (rewrite in_int64_unfold; lia).
    apply wrap64_id. rewrite in_int64_unfold. lia. }
  split; [|split].
  - unfold stats_le. lia.
  - unfold stats_le.
    rewrite (run_trace_BytesReceived tr2), (run_trace_BytesSent tr2),
      (run_trace_ConnectionCount tr2) by (rewrite in_int64_unfold; lia).
    rewrite !wrap64_id by (rewrite in_int64_unfold; lia).
    pose proof (run_trace_ErrorCount tr2 (run_trace tr1 fs)) as Hec2.
    change maxInt with 9223372036854775807 in Hec2.
    specialize (Hec2 ltac:(lia) ltac:(lia)). lia.
  - lia.
Qed.

Lemma stats_monotone_active_nonneg_witness :
  stats_le Scenario.session_a
    (run [(0%nat, 1); (3%nat, 2); (1%nat, 3)] Scenario.two_handlers
       Scenario.session_a) /\
  stats_le
    (run [(0%nat, 1); (3%nat, 2); (1%nat, 3)] Scenario.two_handlers
       Scenario.session_a)
    (run ([(0%nat, 1); (3%nat, 2); (1%nat, 3)]
          ++ [(3%nat, 4); (0%nat, 5); (2%nat, 6); (3%nat, 7); (2%nat, 8)])
       Scenario.two_handlers Scenario.session_a) /\
  0 <= ActiveConnections
         (Stats (run [(0%nat, 1); (3%nat, 2); (1%nat, 3)] Scenario.two_handlers
                   Scenario.session_a)).
Proof.
  apply (proj1 stats_monotone_active_nonneg Scenario.two_handlers [0; 0; 0; 0]).
  - repeat (constructor; [split; [lia | reflexivity]|]). constructor.
  - repeat constructor.
  - repeat split; simpl; lia.
  - simpl. lia.
  - repeat split; vm_compute; discriminate.
Defined.

(** * Further properties of the code *)

(** ** The manager *)

Section ManagerMore.

Implicit Types (st : State) (env : Env) (rule : ForwardingRule)
  (host : SSHHost) (p : loc).

Lemma valid_type_cases rule :
  valid_type rule = true ->
  Typ rule = LocalForward \/ Typ rule = RemoteForward \/ Typ rule = DynamicForward.
Proof.
  unfold valid_type. intros H.
  apply orb_prop in H as [H|H]; [apply orb_prop in H as [H|H]|];
    apply Z.eqb_eq in H; auto.
Qed.

(** A starter that succeeds has bound the listener of the rule's type. *)
Lemma dispatch_listener env rule host pw p st st' fs :
  heap st !! p = Some fs -> Rule fs = rule ->
  dispatch env rule host pw p st = (st', None) ->
  valid_type rule = true /\
  heap st' = alter (set_listener (Some (mkListener (listen_addr rule) false))) p
               (heap st).
Proof.
  intros Hp Hrule. unfold dispatch, valid_type, listen_addr.
  unfold startLocalForwarding, startRemoteForwarding, startDynamicForwarding.
  rewrite Hp, Hrule.
  destruct (getSSHClient env host pw st) as [st1 [c|e]] eqn:Hg;
    apply getSSHClient_frame in Hg as [_ Hh].
  - destruct (Typ rule =? LocalForward) eqn:HL.
    + apply Z.eqb_eq in HL. rewrite HL. simpl.
      destruct (net_Listen env _); [|discriminate].
      intros [= <-]. simpl. by rewrite Hh.
    + destruct (Typ rule =? RemoteForward) eqn:HR.
      * destruct (client_Listen env c _); [|discriminate].
        intros [= <-]. simpl. by rewrite Hh.
      * destruct (Typ rule =? DynamicForward) eqn:HD; [|discriminate].
        destruct (net_Listen env _); [|discriminate].
        intros [= <-]. simpl. by rewrite Hh.
  - by repeat destruct (Typ rule =? _).
Qed.

End ManagerMore.

(** X1.  A successful [StartForwarding] has a rule of one of the three
    types and an id that was free.  It registers under the id a newly
    allocated session: the rule, all counters at zero, the start time read
    from the clock, the shutdown signal open, the active flag set, and an
    open listener on RemoteHost:RemotePort for a Remote rule and on
    LocalHost:LocalPort otherwise.  Every other id resolves as before and
    every session allocated before is as it was. *)
Theorem StartForwarding_success_state
    (env : Env) (rule : ForwardingRule) (host : SSHHost) (pw : string)
    (st st1 : State) :
  StartForwarding env rule host pw st = (st1, None) ->
  valid_type rule = true /\
  GetSession (ID rule) st = None /\
  GetSession (ID rule) st1 = Some (fresh (dom (heap st))) /\
  heap st !! fresh (dom (heap st)) = None /\
  heap st1 !! fresh (dom (heap st)) = Some (started_session env rule) /\
  (forall k : string, k <> ID rule -> GetSession k st1 = GetSession k st) /\
  (forall (p : loc) (fs : ForwardingSession),
     heap st !! p = Some fs -> heap st1 !! p = Some fs).
Proof.
  rewrite StartForwarding_unfold. intros H. unfold GetSession.
  destruct (sessions st !! ID rule) eqn:Hreg; [discriminate H|].
  cbv zeta in H.
  destruct (dispatch _ _ _ _ _ _) as [st2 [e|]] eqn:Hd; [discriminate H|].
  pose proof (dispatch_frame _ _ _ _ _ _ _ _ Hd) as [Hs _].
  eapply dispatch_listener in Hd as [Hv Hh];
    [|simpl; apply lookup_insert_eq|reflexivity].
  simpl in Hs, Hh. injection H as <-. simpl.
  rewrite Hs, Hh, !alter_insert_eq.
  split; [done|]. split; [done|].
  split; [apply lookup_insert_eq|]. split; [apply fresh_heap|].
  split; [by rewrite lookup_insert_eq|].
  split.
  - intros k Hk. by rewrite lookup_insert_ne.
  - intros p fs Hp. rewrite lookup_insert_ne; [done|].
    intros <-. by rewrite fresh_heap in Hp.
Qed.

Lemma StartForwarding_success_state_witness :
  heap Scenario.st_a !! fresh (dom (heap NewManager))
  = Some (started_session Scenario.env_ok Scenario.rule_a).
Proof.
  assert (StartForwarding Scenario.env_ok Scenario.rule_a Scenario.web ""
            NewManager = (Scenario.st_a, None)) as H
    by (vm_compute; reflexivity).
  destruct (StartForwarding_success_state _ _ _ _ _ _ H)
    as (_ & _ & _ & _ & H5 & _).
  exact H5.
Defined.

Section StopMore.

Implicit Types (st : State) (p : loc).

Lemma StopForwarding_pool id st st1 o :
  StopForwarding id st = (st1, o) ->
  sshClients st1 = sshClients st /\ dialed st1 = dialed st /\
  closedClients st1 = closedClients st.
Proof.
  unfold StopForwarding. intros H.
  destruct (sessions st !! id) as [p|]; [|by inversion H; subst].
  destruct (heap st !! p) as [fs|] eqn:Hp; [|by inversion H; subst].
  simpl in H. rewrite !lookup_alter_eq, Hp in H. simpl in H.
  destruct (done fs); by inversion H; subst.
Qed.

Lemma StopForwarding_others id st st1 o :
  StopForwarding id st = (st1, o) ->
  (forall k : string, k <> id -> sessions st1 !! k = sessions st !! k) /\
  (forall q : loc, sessions st !! id <> Some q -> heap st1 !! q = heap st !! q).
Proof.
  unfold StopForwarding. intros H.
  destruct (sessions st !! id) as [p|] eqn:Hreg; [|by inversion H; subst].
  destruct (heap st !! p) as [fs|] eqn:Hp; [|by inversion H; subst].
  simpl in H. rewrite !lookup_alter_eq, Hp in H. simpl in H.
  assert (forall q : loc, Some p <> Some q -> p <> q) as Hne by congruence.
  destruct (done fs); inversion H; subst; clear H; simpl; split.
  - intros k Hk. by rewrite lookup_delete_ne.
  - intros q Hq. by rewrite !lookup_alter_ne by auto.
  - done.
  - intros q Hq. by rewrite !lookup_alter_ne by auto.
Qed.

(** Under the two invariants a registered session can be stopped. *)
Lemma StopForwarding_registered id st p :
  wf_state st -> registry_open st -> sessions st !! id = Some p ->
  exists fs st1,
    heap st !! p = Some fs /\
    StopForwarding id st = (st1, Returned None) /\
    sessions st1 = delete id (sessions st) /\
    heap st1 = <[p := stopped_session fs]> (heap st).
Proof.
  intros Hwf Hopen Hreg. destruct (Hwf id p Hreg) as (fs & Hp & _).
  pose proof (Hopen id p fs Hreg Hp) as Hdone.
  destruct (StopForwarding id st) as [st1 o] eqn:Hstop.
  assert (o = Returned None) as ->.
  { unfold StopForwarding in Hstop. rewrite Hreg, Hp in Hstop. simpl in Hstop.
    rewrite !lookup_alter_eq, Hp in Hstop. simpl in Hstop.
    rewrite Hdone in Hstop. by inversion Hstop. }
  apply StopForwarding_success_inv in Hstop
    as (p' & fs' & Hreg' & Hp' & _ & Hs & Hh).
  rewrite Hreg in Hreg'. injection Hreg' as <-.
  rewrite Hp in Hp'. injection Hp' as <-.
  exists fs, st1. by repeat split.
Qed.

Lemma registry_open_StopForwarding id st st1 o :
  wf_state st -> registry_open st -> StopForwarding id st = (st1, o) ->
  registry_open st1.
Proof.
  intros Hwf Hopen H.
  destruct (sessions st !! id) as [p|] eqn:Hreg.
  - destruct (StopForwarding_registered id st p Hwf Hopen Hreg)
      as (fs & st1' & Hp & Hstop & Hs & Hh).
    rewrite H in Hstop. injection Hstop as <- ->.
    intros k q fs' Hk Hq. rewrite Hs in Hk.
    apply lookup_delete_Some in Hk as [Hne Hk].
    destruct (decide (q = p)) as [->|Hqp].
    + destruct (Hwf k p Hk) as (fs0 & Hp0 & Hid0).
      destruct (Hwf id p Hreg) as (fs1 & Hp1 & Hid1).
      rewrite Hp0 in Hp1. injection Hp1 as <-. congruence.
    + rewrite Hh, lookup_insert_ne in Hq by done. eauto.
  - rewrite (StopForwarding_absent id st Hreg) in H. by injection H as <- _.
Qed.

End StopMore.

(** X2.  Whatever [StopForwarding] returns, it leaves the transport pool
    alone: no transport is closed or removed, so stopping sessions never
    releases a pooled transport.  It leaves every other id registered as
    before and every session other than the one named as it was.  When it
    returns without error the session named is no longer registered,
    while the session itself, which its goroutines still hold, has its
    active flag cleared, its listener closed and its shutdown signal
    closed; its rule and its statistics are kept. *)
Theorem StopForwarding_effect
    (id : string) (st st1 : State) (o : outcome) :
  StopForwarding id st = (st1, o) ->
  (sshClients st1 = sshClients st /\ dialed st1 = dialed st /\
   closedClients st1 = closedClients st) /\
  (forall k : string, k <> id -> GetSession k st1 = GetSession k st) /\
  (forall q : loc, GetSession id st <> Some q -> heap st1 !! q = heap st !! q) /\
  (o = Returned None ->
   GetSession id st1 = None /\
   exists (p : loc) (fs : ForwardingSession),
     GetSession id st = Some p /\ heap st !! p = Some fs /\
     done fs = chan_open /\
     heap st1 !! p = Some (stopped_session fs)).
Proof.
  intros H. split; [by eapply StopForwarding_pool|].
  destruct (StopForwarding_others _ _ _ _ H) as [Hk Hq].
  split; [exact Hk|]. split; [exact Hq|].
  intros ->. apply StopForwarding_success_inv in H
    as (p & fs & Hreg & Hp & Hdone & Hs & Hh).
  unfold GetSession. rewrite Hs, Hh.
  split; [apply lookup_delete_eq|].
  exists p, fs. by rewrite lookup_insert_eq.
Qed.

Lemma StopForwarding_effect_witness :
  sshClients (fst (StopForwarding "a" Scenario.st_a)) = sshClients Scenario.st_a /\
  GetSession "a" (fst (StopForwarding "a" Scenario.st_a)) = None.
Proof.
  assert (StopForwarding "a" Scenario.st_a
          = (fst (StopForwarding "a" Scenario.st_a), Returned None)) as H
    by (vm_compute; reflexivity).
  destruct (StopForwarding_effect _ _ _ _ H) as ((Hp & _) & _ & _ & Hgone).
  split; [exact Hp|]. by destruct (Hgone eq_refl).
Defined.

Section StopAllMore.

Implicit Types (st : State) (p : loc).

Lemma StopForwarding_returns id st :
  wf_state st -> registry_open st ->
  exists st1 err,
    StopForwarding id st = (st1, Returned err) /\
    wf_state st1 /\ registry_open st1 /\
    sessions st1 = delete id (sessions st).
Proof.
  intros Hwf Hopen. destruct (sessions st !! id) as [p|] eqn:Hreg.
  - destruct (StopForwarding_registered id st p Hwf Hopen Hreg)
      as (fs & st1 & Hp & Hstop & Hs & Hh).
    exists st1, None. split; [done|].
    split; [by eapply wf_StopForwarding|].
    split; [by eapply registry_open_StopForwarding|done].
  - exists st, (Some ("session " +:+ id +:+ " not found")).
    rewrite (StopForwarding_absent id st Hreg).
    split; [done|]. split; [done|]. split; [done|].
    by rewrite delete_id.
Qed.

(** Stopping the ids of a list one after the other, as [StopAll] does. *)
Lemma stop_list (ids : list string) st :
  wf_state st -> registry_open st ->
  exists st',
    foldl (fun acc id =>
             match acc with
             | (st, Returned _) =>
                 match StopForwarding id st with
                 | (st, Returned _) => (st, Returned None)
                 | (st, Panicked msg) => (st, Panicked msg)
                 end
             | (st, Panicked msg) => (st, Panicked msg)
             end) (st, Returned None) ids
    = (st', Returned None) /\
    wf_state st' /\ registry_open st' /\
    (sshClients st' = sshClients st /\ dialed st' = dialed st /\
     closedClients st' = closedClients st) /\
    (forall k, k ∈ ids -> sessions st' !! k = None) /\
    (forall k, k ∉ ids -> sessions st' !! k = sessions st !! k) /\
    (forall q, (forall k, k ∈ ids -> sessions st !! k <> Some q) ->
               heap st' !! q = heap st !! q) /\
    (forall k p, k ∈ ids -> sessions st !! k = Some p ->
       exists fs', heap st' !! p = Some fs' /\ done fs' = chan_closed /\
                   active fs' = 0).
Proof.
  revert st. induction ids as [|id ids IH]; intros st Hwf Hopen.
  - exists st. simpl. repeat split; try done.
    + intros k Hk. by apply elem_of_nil in Hk.
    + intros k p Hk. by apply elem_of_nil in Hk.
  - destruct (StopForwarding_returns id st Hwf Hopen)
      as (st1 & err & Hstop & Hwf1 & Hopen1 & Hs1).
    destruct (IH st1 Hwf1 Hopen1)
      as (st' & Hfold & Hwf' & Hopen' & Hpool & Hin & Hout & Hheap & Hstopped).
    pose proof (StopForwarding_pool _ _ _ _ Hstop) as (Hp1 & Hp2 & Hp3).
    pose proof (StopForwarding_others _ _ _ _ Hstop) as [_ Hq1].
    exists st'. cbn [foldl]. rewrite Hstop.
    split; [exact Hfold|]. split; [done|]. split; [done|].
    split; [destruct Hpool as (-> & -> & ->); done|].
    split; [|split; [|split]].
    + intros k Hk. destruct (decide (k ∈ ids)) as [Hi|Hni]; [by apply Hin|].
      apply elem_of_cons in Hk as [->|Hk]; [|done].
      rewrite (Hout id Hni), Hs1. apply lookup_delete_eq.
    + intros k Hk. apply not_elem_of_cons in Hk as [Hne Hk].
      rewrite (Hout k Hk), Hs1. by rewrite lookup_delete_ne.
    + intros q Hq. rewrite Hheap.
      * apply Hq1. apply Hq. apply elem_of_cons. by left.
      * intros k Hk Hkq. rewrite Hs1 in Hkq.
        apply lookup_delete_Some in Hkq as [_ Hkq].
        apply (Hq k); [apply elem_of_cons; by right|done].
    + intros k p Hk Hkp. destruct (decide (k = id)) as [->|Hne].
      * destruct (StopForwarding_registered id st p Hwf Hopen Hkp)
          as (fs & st1' & Hp & Hstop' & _ & Hh).
        rewrite Hstop in Hstop'. injection Hstop' as <- _.
        exists (stopped_session fs). split; [|done].
        rewrite Hheap; [by rewrite Hh, lookup_insert_eq|].
        intros k' _ Hk'. rewrite Hs1 in Hk'.
        apply lookup_delete_Some in Hk' as [Hne' Hk'].
        destruct (Hwf k' p Hk') as (fs0 & Hp0 & Hid0).
        destruct (Hwf id p Hkp) as (fs1 & Hp1' & Hid1).
        rewrite Hp0 in Hp1'. injection Hp1' as <-. congruence.
      * apply elem_of_cons in Hk as [->|Hk]; [done|].
        apply (Hstopped k p Hk). rewrite Hs1. by rewrite lookup_delete_ne.
Qed.

End StopAllMore.

(** X3.  On a manager whose registry satisfies its invariants (each id
    leads to a session carrying it, with its shutdown signal open),
    [StopAll] returns without a panic and leaves the registry empty:
    [GetAllSessions] lists nothing.  Every session that was registered has
    its shutdown signal closed and its active flag cleared, and the
    transport pool is as it was. *)
Theorem StopAll_clears (st : State) :
  wf_state st -> registry_open st ->
  exists st',
    StopAll st = (st', Returned None) /\
    sessions st' = ∅ /\ GetAllSessions st' = [] /\
    (sshClients st' = sshClients st /\ dialed st' = dialed st /\
     closedClients st' = closedClients st) /\
    (forall (k : string) (p : loc),
       GetSession k st = Some p ->
       exists fs', heap st' !! p = Some fs' /\ done fs' = chan_closed /\
                   active fs' = 0).
Proof.
  intros Hwf Hopen.
  destruct (stop_list (map_to_list (sessions st)).*1 st Hwf Hopen)
    as (st' & Hfold & _ & _ & Hpool & Hin & Hout & _ & Hstopped).
  assert (forall k p, sessions st !! k = Some p ->
                      k ∈ (map_to_list (sessions st)).*1) as Hkeys.
  { intros k p Hk. apply list_elem_of_fmap. exists (k, p).
    split; [done|]. by apply elem_of_map_to_list. }
  assert (sessions st' = ∅) as Hempty.
  { apply map_eq. intros k. rewrite lookup_empty.
    destruct (sessions st !! k) as [p|] eqn:Hk.
    - apply Hin. by eapply Hkeys.
    - destruct (decide (k ∈ (map_to_list (sessions st)).*1)) as [Hi|Hni].
      + by apply Hin.
      + by rewrite Hout. }
  exists st'. split; [exact Hfold|]. split; [done|].
  split; [unfold GetAllSessions; by rewrite Hempty, map_to_list_empty|].
  split; [done|].
  intros k p Hk. apply (Hstopped k p); [by eapply Hkeys|done].
Qed.

Lemma StopAll_clears_witness :
  exists st',
    StopAll Scenario.st_a = (st', Returned None) /\ GetAllSessions st' = [].
Proof.
  assert (StartForwarding Scenario.env_ok Scenario.rule_a Scenario.web ""
            NewManager = (Scenario.st_a, None)) as H
    by (vm_compute; reflexivity).
  destruct (StopAll_clears Scenario.st_a) as (st' & Hstop & _ & Hall & _).
  - exact (wf_StartForwarding _ _ _ _ _ _ _ wf_NewManager H).
  - intros k p fs Hk Hp.
    destruct (decide (k = "a")) as [->|Hne].
    + vm_compute in Hk. injection Hk as <-. vm_compute in Hp.
      injection Hp as <-. reflexivity.
    + apply (StartForwarding_success_inv _ _ _ _ _ _) in H as (_ & Hs & _).
      rewrite Hs, lookup_insert_ne in Hk by done. discriminate Hk.
  - exists st'. by split.
Defined.

Section Reachable.

Implicit Types (st : State) (env : Env) (rule : ForwardingRule)
  (host : SSHHost) (p : loc).

Lemma registry_open_NewManager : registry_open NewManager.
Proof. intros k p fs H. simpl in H. by rewrite lookup_empty in H. Qed.

Lemma registry_open_StartForwarding env rule host pw st st1 err :
  wf_state st -> registry_open st ->
  StartForwarding env rule host pw st = (st1, err) -> registry_open st1.
Proof.
  intros Hwf Hopen H k q fs Hk Hq. destruct err as [e|].
  - pose proof (StartForwarding_failure_inv _ _ _ _ _ _ _ H) as Hs.
    rewrite Hs in Hk. destruct (Hwf k q Hk) as (fs0 & Hq0 & _).
    rewrite StartForwarding_unfold in H.
    destruct (sessions st !! ID rule) eqn:Hreg; [inversion H; subst; eauto|].
    cbv zeta in H.
    destruct (dispatch _ _ _ _ _ _) as [st2 [e'|]] eqn:Hd; [|inversion H].
    apply dispatch_frame in Hd as [_ Hh]. simpl in Hh.
    inversion H; subst; clear H. simpl in Hq. rewrite Hh in Hq.
    rewrite lookup_insert_ne in Hq; [eauto|].
    intros <-. by rewrite fresh_heap in Hq0.
  - apply StartForwarding_success_inv in H as (Hreg & Hs & addr & Hh).
    rewrite Hs in Hk. rewrite Hh in Hq.
    destruct (decide (ID rule = k)) as [<-|Hne].
    + rewrite lookup_insert_eq in Hk. injection Hk as <-.
      rewrite lookup_insert_eq in Hq. by injection Hq as <-.
    + rewrite lookup_insert_ne in Hk by done.
      destruct (Hwf k q Hk) as (fs0 & Hq0 & _).
      rewrite lookup_insert_ne in Hq; [eauto|].
      intros <-. by rewrite fresh_heap in Hq0.
Qed.

Lemma pool_ok_NewManager : pool_ok NewManager.
Proof.
  split; [|split].
  - intros k c H. simpl in H. by rewrite lookup_empty in H.
  - intros c H. simpl in H. by apply elem_of_nil in H.
  - intros k1 k2 c H. simpl in H. by rewrite lookup_empty in H.
Qed.

(** Storing a newly dialed transport keeps the pool in order. *)
Lemma pool_ok_store (k : string) st :
  (forall (k' : string) (c : client),
     k' <> k -> sshClients st !! k' = Some c ->
     (c < dialed st)%nat /\ c ∉ closedClients st) ->
  (forall c : client, c ∈ closedClients st -> (c < dialed st)%nat) ->
  (forall (k1 k2 : string) (c : client),
     k1 <> k -> k2 <> k ->
     sshClients st !! k1 = Some c -> sshClients st !! k2 = Some c -> k1 = k2) ->
  pool_ok (mkState (sessions st) (<[k := dialed st]> (sshClients st)) (heap st)
             (S (dialed st)) (closedClients st)).
Proof.
  intros Hin Hcl Hinj. split; [|split]; simpl.
  - intros k' c. destruct (decide (k = k')) as [<-|Hne].
    + rewrite lookup_insert_eq. intros [= <-]. split; [lia|].
      intros Hc. apply Hcl in Hc. lia.
    + rewrite lookup_insert_ne by done. intros Hk'.
      destruct (Hin k' c) as [? ?]; [done|done|]. split; [lia|done].
  - intros c Hc. apply Hcl in Hc. lia.
  - intros k1 k2 c.
    destruct (decide (k = k1)) as [<-|Hne1]; destruct (decide (k = k2)) as [<-|Hne2];
      rewrite ?lookup_insert_eq, ?lookup_insert_ne by done; try done.
    + intros [= <-] H2. destruct (Hin k2 (dialed st)); [done|done|lia].
    + intros H1 [= <-]. destruct (Hin k1 (dialed st)); [done|done|lia].
    + intros H1 H2. by apply (Hinj k1 k2 c).
Qed.

Lemma pool_ok_getSSHClient env host pw st st' r :
  pool_ok st -> getSSHClient env host pw st = (st', r) ->
  pool_ok st' /\
  match r with
  | Ok c => sshClients st' !! clientKey host = Some c /\ c ∉ closedClients st'
  | Err _ => True
  end.
Proof.
  intros (Hin & Hcl & Hinj). unfold getSSHClient.
  assert (forall st0 : State,
            sshClients st0 !! clientKey host = None ->
            pool_ok st0 ->
            match createSSHClient env host pw st0 with
            | (st1, Err e) => (st1, Err e)
            | (st1, Ok c) =>
                (set_sshClients (<[clientKey host := c]> (sshClients st1)) st1, Ok c)
            end = (st', r) ->
            pool_ok st' /\
            match r with
            | Ok c => sshClients st' !! clientKey host = Some c
                      /\ c ∉ closedClients st'
            | Err _ => True
            end) as Hcreate.
  { intros st0 Hnone (Hin0 & Hcl0 & Hinj0) H.
    destruct (createSSHClient env host pw st0) as [st1 [c|e]] eqn:Hc;
      pose proof (createSSHClient_frame _ _ _ _ _ _ Hc) as (Hs & Hh & Hp & Hc');
      apply createSSHClient_dialed in Hc.
    - destruct Hc as [-> Hd]. injection H as <- <-.
      assert (st1 = mkState (sessions st0) (sshClients st0) (heap st0)
                      (S (dialed st0)) (closedClients st0)) as ->
        by (destruct st1; simpl in *; congruence).
      split.
      + apply (pool_ok_store (clientKey host) st0); eauto.
      + simpl. split; [apply lookup_insert_eq|].
        intros Hc. apply Hcl0 in Hc. lia.
    - injection H as <- <-.
      assert (st1 = st0) as -> by (destruct st1, st0; simpl in *; congruence).
      split; [|done]. split; [|split]; assumption. }
  destruct (sshClients st !! clientKey host) as [c|] eqn:Hk.
  - destruct (keepalive env c).
    + intros [= <- <-]. split; [split; [|split]; assumption|].
      split; [done|]. by destruct (Hin _ _ Hk).
    + apply Hcreate; simpl.
      * apply lookup_delete_eq.
      * split; [|split]; simpl.
        -- intros k' c' Hk'. apply lookup_delete_Some in Hk' as [Hne Hk'].
           destruct (Hin _ _ Hk') as [? Hnc]. split; [done|].
           intros [->|Hc']%elem_of_cons; [|done].
           by apply Hne, (Hinj _ _ _ Hk Hk').
        -- intros c' [->|Hc']%elem_of_cons; [by destruct (Hin _ _ Hk)|auto].
        -- intros k1 k2 c' H1 H2.
           apply lookup_delete_Some in H1 as [_ H1].
           apply lookup_delete_Some in H2 as [_ H2]. eauto.
  - by apply Hcreate.
Qed.

Lemma pool_ok_same st st' :
  sshClients st' = sshClients st -> dialed st' = dialed st ->
  closedClients st' = closedClients st -> pool_ok st -> pool_ok st'.
Proof. unfold pool_ok. by intros -> -> ->. Qed.

Lemma pool_ok_dispatch env rule host pw p st st' err :
  pool_ok st -> dispatch env rule host pw p st = (st', err) -> pool_ok st'.
Proof.
  intros Hok.
  unfold dispatch, startLocalForwarding, startRemoteForwarding,
    startDynamicForwarding.
  intros H.
  destruct (heap st !! p) as [fs|];
    [|repeat match type of H with
             | context [if ?b then _ else _] => destruct b
             end; by injection H as <- _].
  destruct (getSSHClient env host pw st) as [st1 [c|e]] eqn:Hg;
    apply (pool_ok_getSSHClient _ _ _ _ _ _ Hok) in Hg as [Hok1 _];
    repeat match type of H with
           | context [if ?b then _ else _] => destruct b
           | context [match ?x with Ok _ => _ | Err _ => _ end] => destruct x
           end;
    injection H as <- _; try done;
    by apply (pool_ok_same st1).
Qed.

Lemma pool_ok_StartForwarding env rule host pw st st1 err :
  pool_ok st -> StartForwarding env rule host pw st = (st1, err) -> pool_ok st1.
Proof.
  intros Hok. rewrite StartForwarding_unfold.
  destruct (sessions st !! ID rule); [by intros [= <- _]|].
  cbv zeta.
  destruct (dispatch _ _ _ _ _ _) as [st2 [e|]] eqn:Hd;
    apply pool_ok_dispatch in Hd;
    try (by apply (pool_ok_same st));
    intros [= <- _]; by apply (pool_ok_same st2).
Qed.

Lemma registry_running_NewManager : registry_running NewManager.
Proof. intros k p fs H. simpl in H. by rewrite lookup_empty in H. Qed.

Lemma registry_running_StartForwarding env rule host pw st st1 err :
  wf_state st -> registry_running st ->
  StartForwarding env rule host pw st = (st1, err) -> registry_running st1.
Proof.
  intros Hwf Hrun H k q fs Hk Hq. destruct err as [e|].
  - pose proof (StartForwarding_failure_inv _ _ _ _ _ _ _ H) as Hs.
    rewrite Hs in Hk. destruct (Hwf k q Hk) as (fs0 & Hq0 & _).
    rewrite StartForwarding_unfold in H.
    destruct (sessions st !! ID rule) eqn:Hreg; [inversion H; subst; eauto|].
    cbv zeta in H.
    destruct (dispatch _ _ _ _ _ _) as [st2 [e'|]] eqn:Hd; [|inversion H].
    apply dispatch_frame in Hd as [_ Hh]. simpl in Hh.
    inversion H; subst; clear H. simpl in Hq. rewrite Hh in Hq.
    rewrite lookup_insert_ne in Hq; [eauto|].
    intros <-. by rewrite fresh_heap in Hq0.
  - apply StartForwarding_success_inv in H as (Hreg & Hs & addr & Hh).
    rewrite Hs in Hk. rewrite Hh in Hq.
    destruct (decide (ID rule = k)) as [<-|Hne].
    + rewrite lookup_insert_eq in Hk. injection Hk as <-.
      rewrite lookup_insert_eq in Hq. injection Hq as <-.
      split; [done|]. by exists addr.
    + rewrite lookup_insert_ne in Hk by done.
      destruct (Hwf k q Hk) as (fs0 & Hq0 & _).
      rewrite lookup_insert_ne in Hq; [eauto|].
      intros <-. by rewrite fresh_heap in Hq0.
Qed.

Lemma registry_running_StopForwarding id st st1 o :
  wf_state st -> registry_open st -> registry_running st ->
  StopForwarding id st = (st1, o) -> registry_running st1.
Proof.
  intros Hwf Hopen Hrun H.
  destruct (sessions st !! id) as [p|] eqn:Hreg.
  - destruct (StopForwarding_registered id st p Hwf Hopen Hreg)
      as (fs & st1' & Hp & Hstop & Hs & Hh).
    rewrite H in Hstop. injection Hstop as <- ->.
    intros k q fs' Hk Hq. rewrite Hs in Hk.
    apply lookup_delete_Some in Hk as [Hne Hk].
    destruct (decide (q = p)) as [->|Hqp].
    + destruct (Hwf k p Hk) as (fs0 & Hp0 & Hid0).
      destruct (Hwf id p Hreg) as (fs1 & Hp1 & Hid1).
      rewrite Hp0 in Hp1. injection Hp1 as <-. congruence.
    + rewrite Hh, lookup_insert_ne in Hq by done. eauto.
  - rewrite (StopForwarding_absent id st Hreg) in H. by injection H as <- _.
Qed.

(** What every call keeps, and with it returns. *)
Lemma call_returns (c : Call) st :
  wf_state st -> registry_open st -> registry_running st -> pool_ok st ->
  exists st1 err,
    call c st = (st1, Returned err) /\
    wf_state st1 /\ registry_open st1 /\ registry_running st1 /\ pool_ok st1.
Proof.
  intros Hwf Hopen Hrun Hok. destruct c as [env rule host pw|id|]; simpl.
  - destruct (StartForwarding env rule host pw st) as [st1 err] eqn:H.
    exists st1, err. split; [done|].
    split; [by eapply wf_StartForwarding|].
    split; [by eapply registry_open_StartForwarding|].
    split; [by eapply registry_running_StartForwarding|].
    by eapply pool_ok_StartForwarding.
  - destruct (StopForwarding_returns id st Hwf Hopen)
      as (st1 & err & Hstop & Hwf1 & Hopen1 & _).
    exists st1, err. split; [done|]. split; [done|]. split; [done|].
    split; [exact (registry_running_StopForwarding id st st1 _ Hwf Hopen Hrun Hstop)|].
    apply StopForwarding_pool in Hstop as (H1 & H2 & H3).
    by apply (pool_ok_same st).
  - destruct (stop_list (map_to_list (sessions st)).*1 st Hwf Hopen)
      as (st' & Hfold & Hwf' & Hopen' & (H1 & H2 & H3) & Hin & Hout & _).
    exists st', None. split; [exact Hfold|]. split; [done|]. split; [done|].
    split; [|by apply (pool_ok_same st)].
    intros k p fs Hk. destruct (decide (k ∈ (map_to_list (sessions st)).*1))
      as [Hi|Hni].
    + by rewrite (Hin k Hi) in Hk.
    + rewrite (Hout k Hni) in Hk. exfalso. apply Hni.
      apply list_elem_of_fmap. exists (k, p).
      split; [done|]. by apply elem_of_map_to_list.
Qed.

End Reachable.

(** X4.  Calls of [StartForwarding], [StopForwarding] and [StopAll] made
    one after the other on a new manager never panic, whatever the rules,
    the hosts, the ids and the behaviour of the network and the key files:
    no shutdown signal is closed twice and no missing session is
    dereferenced.  After any such sequence every registered id leads to a
    session that carries this id, is active, holds an open listener and
    has its shutdown signal open; every pooled transport has been dialed
    and not closed, and no transport is pooled under two keys. *)
Theorem sequential_calls_never_panic (cs : list Call) :
  exists st : State,
    calls cs NewManager = (st, Returned None) /\
    wf_state st /\ registry_open st /\ registry_running st /\ pool_ok st.
Proof.
  assert (forall st : State,
            wf_state st -> registry_open st -> registry_running st ->
            pool_ok st ->
            exists st' : State,
              calls cs st = (st', Returned None) /\
              wf_state st' /\ registry_open st' /\ registry_running st' /\
              pool_ok st') as Hgen.
  { induction cs as [|c cs IH]; intros st Hwf Hopen Hrun Hok.
    - exists st. split; [reflexivity|]. split; [done|]. split; [done|].
      split; assumption.
    - destruct (call_returns c st Hwf Hopen Hrun Hok)
        as (st1 & err & Hc & Hwf1 & Hopen1 & Hrun1 & Hok1).
      cbn [calls]. rewrite Hc. by apply IH. }
  apply Hgen.
  - apply wf_NewManager.
  - apply registry_open_NewManager.
  - apply registry_running_NewManager.
  - apply pool_ok_NewManager.
Qed.

Section StartErrors.

Implicit Types (st : State) (env : Env) (rule : ForwardingRule)
  (host : SSHHost) (p : loc).

Lemma ForwardingType_String_unknown rule :
  valid_type rule = false -> ForwardingType_String (Typ rule) = "Unknown".
Proof.
  unfold valid_type, ForwardingType_String. intros H.
  apply orb_false_elim in H as [H H3]. apply orb_false_elim in H as [H1 H2].
  by rewrite H1, H2, H3.
Qed.

Lemma createSSHClient_error env host pw st st' m :
  createSSHClient env host pw st = (st', Err m) ->
  st' = st /\
  ((Identity host <> "" /\
    exists m', loadPrivateKey env (Identity host) pw = Err m' /\
               m = "failed to load private key: " +:+ m') \/
   (exists m', m = "failed to connect to SSH server: " +:+ m')).
Proof.
  unfold createSSHClient.
  destruct (String.eqb (Identity host) "") eqn:Hid; simpl.
  - destruct (ssh_Dial env _ _ _) as [u|m']; [discriminate|].
    intros [= <- <-]. split; [done|]. right. by exists m'.
  - apply String.eqb_neq in Hid.
    destruct (loadPrivateKey env (Identity host) pw) as [key|m'].
    + destruct (ssh_Dial env _ _ _) as [u|m'']; [discriminate|].
      intros [= <- <-]. split; [done|]. right. by exists m''.
    + intros [= <- <-]. split; [done|]. left. split; [done|]. by exists m'.
Qed.

Lemma getSSHClient_error env host pw st st' m :
  getSSHClient env host pw st = (st', Err m) ->
  sshClients st' !! clientKey host = None /\ dialed st' = dialed st /\
  ((Identity host <> "" /\
    exists m', loadPrivateKey env (Identity host) pw = Err m' /\
               m = "failed to load private key: " +:+ m') \/
   (exists m', m = "failed to connect to SSH server: " +:+ m')).
Proof.
  unfold getSSHClient.
  destruct (sshClients st !! clientKey host) as [c|] eqn:Hk.
  - destruct (keepalive env c); [discriminate|].
    destruct (createSSHClient env host pw _) as [st1 [c1|e]] eqn:Hc;
      [discriminate|].
    intros [= <- <-]. apply createSSHClient_error in Hc as [-> Hm].
    simpl. split; [apply lookup_delete_eq|]. by split.
  - destruct (createSSHClient env host pw st) as [st1 [c1|e]] eqn:Hc;
      [discriminate|].
    intros [= <- <-]. apply createSSHClient_error in Hc as [-> Hm].
    by repeat split.
Qed.

(** The ways in which the starter of a rule fails. *)
Lemma dispatch_failure env rule host pw p st st' e fs :
  heap st !! p = Some fs -> Rule fs = rule ->
  dispatch env rule host pw p st = (st', Some e) ->
  (valid_type rule = false /\ st' = st /\
   e = "unsupported forwarding type: Unknown") \/
  (valid_type rule = true /\
   exists m, getSSHClient env host pw st = (st', Err m) /\
             e = "failed to get SSH client: " +:+ m) \/
  (valid_type rule = true /\
   exists c m,
     getSSHClient env host pw st = (st', Ok c) /\
     (if Typ rule =? RemoteForward
      then client_Listen env c (listen_addr rule)
      else net_Listen env (listen_addr rule)) = Err m /\
     e = (if Typ rule =? RemoteForward
          then "failed to listen on remote " else "failed to listen on ")
         +:+ listen_addr rule +:+ ": " +:+ m).
Proof.
  intros Hp Hrule. unfold dispatch.
  destruct (valid_type rule) eqn:Hv.
  - unfold listen_addr.
    unfold startLocalForwarding, startRemoteForwarding, startDynamicForwarding.
    rewrite Hp, Hrule.
    destruct (getSSHClient env host pw st) as [st1 [c|m]] eqn:Hg.
    + intros H. right. right. split; [done|]. exists c.
      destruct (Typ rule =? LocalForward) eqn:HL.
      * apply Z.eqb_eq in HL. rewrite HL in *. simpl.
        destruct (net_Listen env _) as [u|m]; [discriminate H|].
        injection H as <- <-. by exists m.
      * destruct (Typ rule =? RemoteForward) eqn:HR.
        -- destruct (client_Listen env c _) as [u|m]; [discriminate H|].
           injection H as <- <-. by exists m.
        -- destruct (Typ rule =? DynamicForward) eqn:HD.
           ++ destruct (net_Listen env _) as [u|m]; [discriminate H|].
              injection H as <- <-. by exists m.
           ++ unfold valid_type in Hv. by rewrite HL, HR, HD in Hv.
    + intros H. right. left. split; [done|]. exists m.
      unfold valid_type in Hv.
      destruct (Typ rule =? LocalForward); [by injection H as <- <-|].
      destruct (Typ rule =? RemoteForward); [by injection H as <- <-|].
      destruct (Typ rule =? DynamicForward); [by injection H as <- <-|].
      discriminate Hv.
  - intros H. left. split; [done|].
    rewrite (ForwardingType_String_unknown rule Hv) in H.
    unfold valid_type in Hv.
    apply orb_false_elim in Hv as [Hv H3]. apply orb_false_elim in Hv as [H1 H2].
    rewrite H1, H2, H3 in H. by injection H as <- <-.
Qed.

(** The transport pool does not depend on the registry or on the
    sessions. *)
Lemma getSSHClient_pool_only env host pw st sa st' r :
  sshClients sa = sshClients st -> dialed sa = dialed st ->
  closedClients sa = closedClients st ->
  getSSHClient env host pw sa = (st', r) ->
  exists st'',
    getSSHClient env host pw st = (st'', r) /\
    sshClients st' = sshClients st'' /\ dialed st' = dialed st'' /\
    closedClients st' = closedClients st''.
Proof.
  intros H1 H2 H3. unfold getSSHClient, createSSHClient. simpl.
  rewrite ?H1, ?H2, ?H3.
  destruct (sshClients st !! clientKey host) as [c|];
    [destruct (keepalive env c)|];
    repeat match goal with
           | |- context [if ?b then _ else _] => destruct b
           | |- context [match loadPrivateKey ?a ?b ?c with _ => _ end] =>
               destruct (loadPrivateKey a b c)
           | |- context [match ssh_Dial ?a ?b ?c ?d with _ => _ end] =>
               destruct (ssh_Dial a b c d)
           end; simpl;
    intros [= <- <-]; eexists; (split; [reflexivity|]); simpl;
    rewrite ?H1, ?H2, ?H3; done.
Qed.

End StartErrors.

(** X5.  The ways in which [StartForwarding] fails, and what each leaves
    behind.  Either the id is registered, the error is "forwarding session
    <id> already exists" and the manager is untouched.  Or the id is free
    and: the rule's type is none of the three, the error is "unsupported
    forwarding type: Unknown" and the transport pool is untouched; or no
    transport could be had, the error is "failed to get SSH client: "
    followed by "failed to load private key: ..." (only for a host with an
    identity file) or "failed to connect to SSH server: ...", nothing has
    been dialed and the host's key is left without a pooled transport; or
    the listener could not be bound, the error is "failed to listen on
    <LocalHost:LocalPort>: ..." (for a Remote rule "failed to listen on
    remote <RemoteHost:RemotePort>: ...") and the transport obtained for
    the host stays in the pool. *)
Theorem StartForwarding_failure_cases
    (env : Env) (rule : ForwardingRule) (host : SSHHost) (pw : string)
    (st st1 : State) (e : string) :
  StartForwarding env rule host pw st = (st1, Some e) ->
  (is_Some (GetSession (ID rule) st) /\ st1 = st /\
   e = "forwarding session " +:+ ID rule +:+ " already exists") \/
  (GetSession (ID rule) st = None /\
   ((valid_type rule = false /\
     e = "unsupported forwarding type: Unknown" /\
     sshClients st1 = sshClients st /\ dialed st1 = dialed st /\
     closedClients st1 = closedClients st) \/
    (valid_type rule = true /\
     sshClients st1 !! clientKey host = None /\ dialed st1 = dialed st /\
     exists m,
       e = "failed to get SSH client: " +:+ m /\
       ((Identity host <> "" /\
         exists m', loadPrivateKey env (Identity host) pw = Err m' /\
                    m = "failed to load private key: " +:+ m') \/
        (exists m', m = "failed to connect to SSH server: " +:+ m'))) \/
    (valid_type rule = true /\
     exists (c : client) (m : string),
       sshClients st1 !! clientKey host = Some c /\
       (if Typ rule =? RemoteForward
        then client_Listen env c (listen_addr rule)
        else net_Listen env (listen_addr rule)) = Err m /\
       e = (if Typ rule =? RemoteForward
            then "failed to listen on remote " else "failed to listen on ")
           +:+ listen_addr rule +:+ ": " +:+ m))).
Proof.
  rewrite StartForwarding_unfold. unfold GetSession.
  destruct (sessions st !! ID rule) as [q|] eqn:Hreg.
  - intros [= <- <-]. left. by split; [eexists|].
  - cbv zeta. intros H. right. split; [done|].
    destruct (dispatch _ _ _ _ _ _) as [st2 [e'|]] eqn:Hd; [|discriminate H].
    injection H as <- <-.
    eapply dispatch_failure in Hd
      as [(Hv & -> & ->)|[(Hv & m & Hg & ->)|(Hv & c & m & Hg & Hl & ->)]];
      [| |
       |simpl; apply lookup_insert_eq|reflexivity].
    + left. by repeat split.
    + right. left. split; [done|].
      apply getSSHClient_error in Hg as (Hk & Hdial & Hm).
      simpl in *. split; [done|]. split; [done|]. by exists m.
    + right. right. split; [done|]. exists c, m.
      apply getSSHClient_stored in Hg. simpl. by repeat split.
Qed.

Lemma StartForwarding_failure_cases_witness :
  exists (st1 : State) (c : client),
    StartForwarding Scenario.env_busy Scenario.rule_a Scenario.web "" NewManager
    = (st1, Some "failed to listen on localhost:8080: bind: address already in use") /\
    sshClients st1 !! clientKey Scenario.web = Some c.
Proof.
  assert (exists st1,
            StartForwarding Scenario.env_busy Scenario.rule_a Scenario.web ""
              NewManager
            = (st1, Some "failed to listen on localhost:8080: bind: address already in use"))
    as [st1 H] by (eexists; vm_compute; reflexivity).
  destruct (StartForwarding_failure_cases _ _ _ _ _ _ _ H)
    as [([q Hq] & _)|(_ & [(Hv & _)|[(_ & _ & _ & m & Hm & _)|(_ & c & m & Hc & _)]])].
  - discriminate Hq.
  - discriminate Hv.
  - exfalso. clear -Hm. vm_compute in Hm. discriminate Hm.
  - exists st1, c. split; [exact H|exact Hc].
Defined.

Section Credentials.

Implicit Types (st : State) (env : Env) (rule : ForwardingRule)
  (host : SSHHost) (p : loc).

Lemma getSSHClient_keyPassword env host pw pw' st :
  Identity host = "" \/
  (exists c, sshClients st !! clientKey host = Some c /\ keepalive env c = true) ->
  getSSHClient env host pw st = getSSHClient env host pw' st.
Proof.
  intros [Hid|(c & Hk & Hlive)].
  - unfold getSSHClient, createSSHClient. by rewrite Hid.
  - by rewrite !(getSSHClient_live env host _ st c Hk Hlive).
Qed.

Lemma dispatch_keyPassword env rule host pw pw' p st :
  Identity host = "" \/
  (exists c, sshClients st !! clientKey host = Some c /\ keepalive env c = true) ->
  dispatch env rule host pw p st = dispatch env rule host pw' p st.
Proof.
  intros H. unfold dispatch, startLocalForwarding, startRemoteForwarding,
    startDynamicForwarding.
  by rewrite (getSSHClient_keyPassword env host pw pw' st H).
Qed.

End Credentials.

(** X6.  The key password is consulted only when a transport has to be
    created for a host that names an identity file.  For a host without
    an identity file, and for a host whose pooled transport passes the
    probe, [StartForwarding] does the same whatever password it is given:
    a wrong password goes unnoticed as long as the transport is reused. *)
Theorem keyPassword_consulted_only_for_new_keyed_transport
    (env : Env) (rule : ForwardingRule) (host : SSHHost) (pw pw' : string)
    (st : State) :
  Identity host = "" \/
  (exists c : client,
     sshClients st !! clientKey host = Some c /\ keepalive env c = true) ->
  StartForwarding env rule host pw st = StartForwarding env rule host pw' st.
Proof.
  intros H. rewrite !StartForwarding_unfold.
  destruct (sessions st !! ID rule); [done|]. cbv zeta.
  by rewrite (dispatch_keyPassword env rule host pw pw').
Qed.

Lemma keyPassword_consulted_only_for_new_keyed_transport_witness :
  StartForwarding Scenario.env_ok Scenario.rule_a Scenario.web "secret" NewManager
  = StartForwarding Scenario.env_ok Scenario.rule_a Scenario.web "" NewManager.
Proof.
  apply keyPassword_consulted_only_for_new_keyed_transport.
  left. reflexivity.
Defined.

Section PumpDelivery.

Lemma conn_Read_readable (c : Conn) (size : nat) (data : list byte)
    (er : option ioerr) (c' : Conn) :
  conn_Read c size = (data, er, c') ->
  readable (inbox c)
  = data ++ match er with Some _ => [] | None => readable (inbox c') end /\
  read_error (inbox c)
  = match er with
    | Some e => if is_EOF e then None else Some e
    | None => read_error (inbox c')
    end.
Proof.
  unfold conn_Read. destruct (inbox c) as [|r rest]; [by intros [= <- <- <-]|].
  destruct (drop size (r_data r)) as [|b pending] eqn:Hdrop.
  - intros [= <- <- <-]. simpl.
    assert (take size (r_data r) = r_data r) as ->.
    { rewrite <- (take_drop size (r_data r)) at 2. by rewrite Hdrop, app_nil_r. }
    by destruct (r_err r).
  - intros [= <- <- <-]. rewrite <- Hdrop.
    cbn [inbox readable read_error r_data r_err].
    by rewrite app_assoc, take_drop.
Qed.

Lemma conn_Write_healthy (c : Conn) (p : list byte) :
  wscript c = [] ->
  conn_Write c p = (blen p, None, mkConn (inbox c) [] (outbox c ++ p)).
Proof. unfold conn_Write. by intros ->. Qed.

Lemma conn_Write_full (c : Conn) (p : list byte) (nw : Z) (ew : option ioerr)
    (c' : Conn) :
  conn_Write c p = (nw, ew, c') -> blen p = nw ->
  outbox c' = outbox c ++ p.
Proof.
  unfold conn_Write. destruct (wscript c) as [|w ws].
  - by intros [= <- <- <-].
  - intros [= <- <- <-] Hlen. simpl. f_equal.
    unfold blen in Hlen. apply Nat2Z.inj in Hlen.
    rewrite length_take in Hlen. apply take_ge. lia.
Qed.

Lemma conn_Write_prefix (c : Conn) (p : list byte) (nw : Z) (ew : option ioerr)
    (c' : Conn) :
  conn_Write c p = (nw, ew, c') ->
  exists sent, nw = blen sent /\ outbox c' = outbox c ++ sent /\
               sent `prefix_of` p.
Proof.
  unfold conn_Write. destruct (wscript c) as [|w ws]; intros [= <- <- <-]; simpl.
  - by exists p.
  - exists (take (w_accept w) p). split; [done|]. split; [done|].
    apply prefix_take.
Qed.

Lemma copy_loop_delivery (fuel size : nat) (dst src : Conn) (written : Z)
    (res : Z * option ioerr) (evs : list PumpEvent) (dst' src' : Conn) :
  in_int64 written ->
  copy_loop fuel size dst src written = Some (res, evs, dst', src') ->
  pump_bytes evs `prefix_of` readable (inbox src) /\
  fst res = wrap64 (written + blen (pump_bytes evs)) /\
  (snd res = None ->
   pump_bytes evs = readable (inbox src) /\ read_error (inbox src) = None) /\
  (wscript dst = [] ->
   pump_bytes evs = readable (inbox src) /\ snd res = read_error (inbox src)).
Proof.
  revert dst src written res evs dst' src'.
  induction fuel as [|fuel IH]; intros dst src written res evs dst' src' Hw H;
    [discriminate H|].
  simpl in H. destruct (conn_Read src size) as [[data er] src1] eqn:Hr.
  apply conn_Read_readable in Hr as [Hread Herr]. rewrite Hread, Herr.
  clear Hread Herr.
  assert (forall w evs0 dst0,
            in_int64 w -> w = wrap64 (written + blen data) ->
            pump_bytes evs0 = data ->
            (wscript dst = [] -> wscript dst0 = []) ->
            match er with
            | Some e =>
                if is_EOF e then Some (w, None, evs0, dst0, src1)
                else Some (w, Some e, evs0, dst0, src1)
            | None =>
                match copy_loop fuel size dst0 src1 w with
                | Some (r, evs', dst', src') => Some (r, evs0 ++ evs', dst', src')
                | None => None
                end
            end = Some (res, evs, dst', src') ->
            pump_bytes evs
              `prefix_of` data ++ match er with
                                  | Some _ => []
                                  | None => readable (inbox src1)
                                  end /\
            fst res = wrap64 (written + blen (pump_bytes evs)) /\
            (snd res = None ->
             pump_bytes evs
             = data ++ match er with
                       | Some _ => []
                       | None => readable (inbox src1)
                       end /\
             match er with
             | Some e => if is_EOF e then None else Some e
             | None => read_error (inbox src1)
             end = None) /\
            (wscript dst = [] ->
             pump_bytes evs
             = data ++ match er with
                       | Some _ => []
                       | None => readable (inbox src1)
                       end /\
             snd res = match er with
                       | Some e => if is_EOF e then None else Some e
                       | None => read_error (inbox src1)
                       end)) as Hcont.
  { intros w evs0 dst0 Hw0 Hweq Hbytes Hhealthy Hk. destruct er as [e|].
    - destruct (is_EOF e) eqn:He; inversion Hk; subst; clear Hk; simpl;
        rewrite app_nil_r.
      + split; [done|]. split; [done|]. by split.
      + split; [done|]. split; [done|]. split; [done|]. by split.
    - destruct (copy_loop fuel size dst0 src1 w)
        as [[[[r evs1] dst1] src2]|] eqn:Hl; [|discriminate Hk].
      apply IH in Hl as (Hpre & Hres & Hnone & Hh); [|done].
      inversion Hk; subst; clear Hk.
      rewrite pump_bytes_app.
      split; [by apply prefix_app|].
      split.
      { rewrite Hres, wrap64_add. f_equal. unfold blen.
        rewrite length_app. lia. }
      split.
      + intros Hn. destruct (Hnone Hn) as [-> ->]. done.
      + intros Hd. destruct (Hh (Hhealthy Hd)) as [-> ->]. done. }
  destruct (0 <? blen data) eqn:Hnr.
  - destruct (conn_Write dst data) as [[nw ew] dst1] eqn:Hwr.
    pose proof (conn_Write_prefix _ _ _ _ _ Hwr) as (sent & -> & Hout & Hpre).
    rewrite Hout, drop_app_length in H.
    pose proof (pump_bytes_block sent (blen sent)) as Hbytes.
    assert ((if 0 <? blen sent then AddInt64 written (blen sent) else written)
            = wrap64 (written + blen sent)) as Hacc.
    { destruct (0 <? blen sent) eqn:Hs; [done|].
      apply Z.ltb_ge in Hs. assert (blen sent = 0) as -> by (unfold blen in *; lia).
      rewrite Z.add_0_r. symmetry. by apply wrap64_id. }
    rewrite Hacc in H.
    assert (wscript dst = [] -> sent = data /\ ew = None /\ wscript dst1 = [])
      as Hhealthy.
    { intros Hd. rewrite (conn_Write_healthy dst data Hd) in Hwr.
      injection Hwr as Hlen <- <-. simpl in Hout.
      apply app_inv_head in Hout. by subst. }
    destruct ew as [e|].
    + inversion H; subst; clear H. rewrite Hbytes. simpl.
      split; [by apply prefix_app_r|]. split; [done|]. split; [done|].
      intros Hd. by destruct (Hhealthy Hd) as (_ & ? & _).
    + destruct (negb (blen data =? blen sent)) eqn:Hneq.
      * inversion H; subst; clear H. rewrite Hbytes. simpl.
        split; [by apply prefix_app_r|]. split; [done|]. split; [done|].
        intros Hd. destruct (Hhealthy Hd) as (-> & _ & _).
        by rewrite Z.eqb_refl in Hneq.
      * apply negb_false_iff, Z.eqb_eq in Hneq.
        assert (sent = data) as ->.
        { apply (conn_Write_full _ _ _ _ _ Hwr) in Hneq.
          rewrite Hout in Hneq. by apply app_inv_head in Hneq. }
        refine (Hcont _ (PWrite data :: (if 0 <? blen data
                                         then [PCallback (blen data)] else []))
                  dst1 _ _ _ _ H).
        -- apply wrap64_in_int64.
        -- done.
        -- exact Hbytes.
        -- intros Hd. by destruct (Hhealthy Hd) as (_ & _ & ?).
  - apply Z.ltb_ge in Hnr.
    assert (data = []) as -> by (destruct data; [done|unfold blen in Hnr; simpl in Hnr; lia]).
    refine (Hcont written [] dst Hw _ _ _ H).
    + unfold blen. simpl. rewrite Z.add_0_r. symmetry. by apply wrap64_id.
    + done.
    + done.
Qed.

End PumpDelivery.

(** X7.  One direction of the pump relays in order and invents nothing:
    what [copyWithStats] puts on the destination is a prefix of what the
    source hands out before its first error, and the count it returns is
    the number of these bytes (modulo 2^64).  When it returns no error
    the destination has received all of it and the source ended with the
    end of the stream; and a destination that accepts every write
    receives all of it, the error returned being the source's. *)
Theorem copyWithStats_delivers_in_order
    (dst src : Conn) (res : Z * option ioerr) (evs : list PumpEvent)
    (dst' src' : Conn) :
  copyWithStats dst src = (res, evs, dst', src') ->
  outbox dst' = outbox dst ++ pump_bytes evs /\
  pump_bytes evs `prefix_of` readable (inbox src) /\
  fst res = wrap64 (blen (pump_bytes evs)) /\
  (snd res = None ->
   pump_bytes evs = readable (inbox src) /\ read_error (inbox src) = None) /\
  (wscript dst = [] ->
   pump_bytes evs = readable (inbox src) /\ snd res = read_error (inbox src)).
Proof.
  intros H. pose proof (copyWithStats_loop dst src) as Hl. rewrite H in Hl.
  pose proof (copy_loop_accounted _ _ _ _ _ _ _ _ _ Hl) as [_ Ho].
  apply copy_loop_delivery in Hl; [|unfold in_int64, minInt, maxInt; lia].
  by split.
Qed.

Lemma copyWithStats_delivers_in_order_witness :
  exists (res : Z * option ioerr) (evs : list PumpEvent) (dst' src' : Conn),
    copyWithStats Scenario.upstream Scenario.downstream = (res, evs, dst', src') /\
    outbox dst' = outbox Scenario.upstream ++ pump_bytes evs /\
    pump_bytes evs `prefix_of` readable (inbox Scenario.downstream).
Proof.
  assert (exists r, copyWithStats Scenario.upstream Scenario.downstream = r)
    as [[[[res evs] dst'] src'] H] by (eexists; vm_compute; reflexivity).
  exists res, evs, dst', src'. split; [exact H|].
  destruct (copyWithStats_delivers_in_order _ _ _ _ _ _ H) as (H1 & H2 & _).
  split; [exact H1|exact H2].
Defined.

Section Relay.

(** A copy writes to its destination only: what the destination has
    still to deliver is left alone. *)
Lemma copy_loop_dst_inbox (fuel size : nat) (dst src : Conn) (written : Z)
    (res : Z * option ioerr) (evs : list PumpEvent) (dst' src' : Conn) :
  copy_loop fuel size dst src written = Some (res, evs, dst', src') ->
  inbox dst' = inbox dst.
Proof.
  revert dst src written res evs dst' src'.
  induction fuel as [|fuel IH]; intros dst src written res evs dst' src' H;
    [discriminate H|].
  simpl in H. destruct (conn_Read src size) as [[data er] src1].
  assert (forall w evs0 dst0,
            match er with
            | Some e =>
                if is_EOF e then Some (w, None, evs0, dst0, src1)
                else Some (w, Some e, evs0, dst0, src1)
            | None =>
                match copy_loop fuel size dst0 src1 w with
                | Some (r, evs', dst', src') => Some (r, evs0 ++ evs', dst', src')
                | None => None
                end
            end = Some (res, evs, dst', src') ->
            inbox dst' = inbox dst0) as Hcont.
  { intros w evs0 dst0 Hk. destruct er as [e|].
    - destruct (is_EOF e); inversion Hk; by subst.
    - destruct (copy_loop fuel size dst0 src1 w)
        as [[[[r evs1] dst1] src2]|] eqn:Hl; [|discriminate Hk].
      apply IH in Hl. inversion Hk; by subst. }
  destruct (0 <? blen data); [|exact (Hcont written [] dst H)].
  destruct (conn_Write dst data) as [[nw ew] dst1] eqn:Hw.
  apply conn_Write_inbox in Hw. rewrite <- Hw.
  destruct ew; [inversion H; by subst|].
  destruct (negb (blen data =? nw)); [inversion H; by subst|].
  exact (Hcont _ (PWrite _ :: (if 0 <? nw then [PCallback nw] else [])) _ H).
Qed.

Lemma pump_task_reported (d d' : Direction) (res : Z * option ioerr)
    (evs : list PumpEvent) :
  total (reported d) (pump_task d' res evs)
  = match d, d' with
    | Outbound, Outbound | Inbound, Inbound => pump_reported evs
    | _, _ => 0
    end.
Proof.
  unfold pump_task. rewrite total_app.
  assert (total (reported d)
            match snd res with
            | Some e =>
                [EvStat (OpIncrementErrorsIfActive (forward_error d' (fst res) e))]
            | None => []
            end = 0) as -> by (destruct (snd res); by destruct d).
  rewrite Z.add_0_r. induction evs as [|[bs|n] evs IH]; cbn [map pump_reported].
  - by destruct d, d'.
  - rewrite total_cons, IH. destruct d, d'; simpl; lia.
  - rewrite total_cons, IH. destruct d, d'; simpl; lia.
Qed.

Lemma pump_task_errors (d : Direction) (res : Z * option ioerr)
    (evs : list PumpEvent) :
  total errors_of (pump_task d res evs)
  = match snd res with Some _ => 1 | None => 0 end.
Proof.
  unfold pump_task. rewrite total_app.
  assert (total errors_of
            (map (fun e => match e with
                           | PWrite bs => EvWrite d bs
                           | PCallback n => EvStat (statsCallback d n)
                           end) evs) = 0) as ->.
  { induction evs as [|[bs|n] evs IH]; cbn [map]; [done| |];
      rewrite total_cons, IH; [done|by destruct d]. }
  by destruct (snd res).
Qed.

(** What [forwardData] relays, and what it accounts. *)
Lemma forwardData_spec (conn1 conn2 : Conn) (tasks : list (list Event))
    (c1 c2 : Conn) :
  forwardData conn1 conn2 = (tasks, c1, c2) ->
  exists (r1 r2 : Z * option ioerr) (evs1 evs2 : list PumpEvent),
    tasks = [pump_task Outbound r1 evs1; pump_task Inbound r2 evs2] /\
    accounted evs1 /\ accounted evs2 /\
    outbox c2 = outbox conn2 ++ pump_bytes evs1 /\
    pump_bytes evs1 `prefix_of` readable (inbox conn1) /\
    outbox c1 = outbox conn1 ++ pump_bytes evs2 /\
    pump_bytes evs2 `prefix_of` readable (inbox conn2) /\
    (wscript conn2 = [] -> pump_bytes evs1 = readable (inbox conn1)) /\
    (wscript conn1 = [] -> pump_bytes evs2 = readable (inbox conn2)) /\
    (snd r1 = None -> pump_bytes evs1 = readable (inbox conn1)) /\
    (snd r2 = None -> pump_bytes evs2 = readable (inbox conn2)).
Proof.
  unfold forwardData.
  destruct (copyWithStats conn2 conn1) as [[[r1 evs1] c2a] c1a] eqn:H1.
  destruct (copyWithStats c1a c2a) as [[[r2 evs2] c1b] c2b] eqn:H2.
  intros [= <- <- <-].
  pose proof (copyWithStats_loop conn2 conn1) as Hl1. rewrite H1 in Hl1.
  pose proof (copyWithStats_loop c1a c2a) as Hl2. rewrite H2 in Hl2.
  pose proof (copy_loop_accounted _ _ _ _ _ _ _ _ _ Hl1) as [Ha1 Ho1].
  pose proof (copy_loop_accounted _ _ _ _ _ _ _ _ _ Hl2) as [Ha2 Ho2].
  pose proof (copy_loop_frame _ _ _ _ _ _ _ _ _ Hl1) as [Hf1 Hw1].
  pose proof (copy_loop_frame _ _ _ _ _ _ _ _ _ Hl2) as [Hf2 Hw2].
  pose proof (copy_loop_dst_inbox _ _ _ _ _ _ _ _ _ Hl1) as Hi1.
  assert (in_int64 0) as H0 by (unfold in_int64, minInt, maxInt; lia).
  apply (copy_loop_delivery _ _ _ _ _ _ _ _ _ H0) in Hl1
    as (Hp1 & _ & Hn1 & Hh1).
  apply (copy_loop_delivery _ _ _ _ _ _ _ _ _ H0) in Hl2
    as (Hp2 & _ & Hn2 & Hh2).
  rewrite Hi1 in Hp2, Hn2, Hh2. rewrite Hw1 in Hh2.
  exists r1, r2, evs1, evs2.
  split; [done|]. split; [done|]. split; [done|].
  split; [by rewrite Hf2, Ho1|]. split; [done|].
  split; [by rewrite Ho2, Hf1|]. split; [done|].
  split; [intros Hd; by destruct (Hh1 Hd)|].
  split; [intros Hd; by destruct (Hh2 Hd)|].
  split; [intros Hd; by destruct (Hn1 Hd)|].
  intros Hd; by destruct (Hn2 Hd).
Qed.

End Relay.

(** X8.  [forwardData] relays both ways and accounts what it relayed.
    What arrives on conn2 is a prefix of what conn1 hands out before its
    first error, and what arrives on conn1 a prefix of what conn2 hands
    out; when both pumps are over, the bytes reported for [BytesSent] are
    exactly those delivered to conn2 and the bytes reported for
    [BytesReceived] exactly those delivered to conn1.  A side that
    accepts every write receives everything the other side hands out,
    and when the pumps record no error both sides have received
    everything. *)
Theorem forwardData_relays
    (conn1 conn2 : Conn) (tasks : list (list Event)) (c1 c2 : Conn) :
  forwardData conn1 conn2 = (tasks, c1, c2) ->
  exists sent recv : list byte,
    outbox c2 = outbox conn2 ++ sent /\
    sent `prefix_of` readable (inbox conn1) /\
    outbox c1 = outbox conn1 ++ recv /\
    recv `prefix_of` readable (inbox conn2) /\
    total_tasks (reported Outbound) tasks = blen sent /\
    total_tasks (reported Inbound) tasks = blen recv /\
    (wscript conn2 = [] -> sent = readable (inbox conn1)) /\
    (wscript conn1 = [] -> recv = readable (inbox conn2)) /\
    (total_tasks errors_of tasks = 0 ->
     sent = readable (inbox conn1) /\ recv = readable (inbox conn2)).
Proof.
  intros H. apply forwardData_spec in H
    as (r1 & r2 & evs1 & evs2 & -> & Ha1 & Ha2 & Ho2 & Hp1 & Ho1 & Hp2
        & Hh1 & Hh2 & Hn1 & Hn2).
  exists (pump_bytes evs1), (pump_bytes evs2).
  split; [done|]. split; [done|]. split; [done|]. split; [done|].
  destruct (accounted_total evs1 Ha1) as [Hr1 Hd1].
  destruct (accounted_total evs2 Ha2) as [Hr2 Hd2].
  unfold total_tasks. rewrite !total_cons, !pump_task_reported,
    !pump_task_errors. cbn [total foldr].
  split; [lia|]. split; [lia|]. split; [done|]. split; [done|].
  intros He. destruct (snd r1), (snd r2); try lia. auto.
Qed.

Lemma forwardData_relays_witness :
  exists (tasks : list (list Event)) (c1 c2 : Conn) (sent recv : list byte),
    forwardData Scenario.downstream Scenario.upstream = (tasks, c1, c2) /\
    outbox c2 = outbox Scenario.upstream ++ sent /\
    outbox c1 = outbox Scenario.downstream ++ recv /\
    total_tasks (reported Outbound) tasks = blen sent /\
    total_tasks (reported Inbound) tasks = blen recv.
Proof.
  assert (exists r, forwardData Scenario.downstream Scenario.upstream = r)
    as [[[tasks c1] c2] H] by (eexists; vm_compute; reflexivity).
  destruct (forwardData_relays _ _ _ _ _ H)
    as (sent & recv & H1 & _ & H2 & _ & H3 & H4 & _).
  exists tasks, c1, c2, sent, recv. split; [exact H|].
  split; [exact H1|]. split; [exact H2|]. split; [exact H3|exact H4].
Defined.
